(** * WideSteepPipeline: the card-lookup core of [app.py]

    A shallow embedding of the rate limiter, the upstream fetch routine with
    its retry and backoff loop, the queue worker and the lookup route of
    [src/app.py], together with the properties its specification states
    about them.

    Conventions of the embedding.
    - Python [int] values are [Z]; clock readings ([time.time()], a float)
      are rationals [Q], so that subtraction and comparison are exact.
    - Values whose Python type is only known at run time (the fields of a
      decoded JSON body) are of the type [json].
    - Code that awaits, raises or mutates module-level state is written in a
      state-and-exception monad [M] over a [world]; what the environment
      answers (the upstream service, the outcome of a timed wait) is an
      explicit oracle argument.
    - Only exceptions deriving from Python's [Exception] are modelled; task
      cancellation, a [BaseException], is outside the model. *)

From Stdlib Require Import ZArith QArith Lqa Lia List Bool String.
From stdpp Require Import base gmap strings list.
Import ListNotations.

Local Open Scope string_scope.
Local Open Scope Z_scope.

(** ** Configuration ([class Config]) *)

Module Config.
Record t := {
  MAX_RETRIES : Z;
  MAX_QUEUE_SIZE : Z;
  BATCH_SIZE : Z;
  RATE_LIMIT_DELAY : Q;
  RATE_LIMIT : Z;
  RATE_LIMIT_PERIOD : Z;
  MAX_CONCURRENT_REQUESTS : Z
}.

(** The values [class Config] of [app.py] gives. *)
Definition default : t := {|
  MAX_RETRIES := 3;
  MAX_QUEUE_SIZE := 1000;
  BATCH_SIZE := 10;
  RATE_LIMIT_DELAY := 1 # 10;
  RATE_LIMIT := 10;
  RATE_LIMIT_PERIOD := 60;
  MAX_CONCURRENT_REQUESTS := 5
|}.
End Config.

(** ** RateLimiter *)

Module RateLimiter.

Record t := {
  limit : Z;
  period : Z;
  requests : list Q
}.

(** [RateLimiter.__init__] *)
Definition init (l p : Z) : t :=
  {| limit := l; period := p; requests := [] |}.

(** [x < y] on rationals, as a boolean. *)
Definition Qltb (x y : Q) : bool := negb (Qle_bool y x).

(** The test of the list comprehension: [now - t < self.period]. *)
Definition in_period (p : Z) (now t : Q) : bool :=
  Qltb (now - t) (inject_Z p).

(** [RateLimiter.is_allowed], with the clock reading [now] of
    [time.time()] as an argument. *)
Definition is_allowed (now : Q) (rl : t) : bool * t :=
  let kept := List.filter (in_period (period rl) now) (requests rl) in
  if Z.of_nat (length kept) <? limit rl
  then (true, {| limit := limit rl; period := period rl;
                 requests := kept ++ [now] |})
  else (false, {| limit := limit rl; period := period rl;
                  requests := kept |}).

(** A sequence of calls, one per clock reading. *)
Fixpoint run (rl : t) (clock : list Q) : list bool * t :=
  match clock with
  | [] => ([], rl)
  | now :: rest =>
      let (b, rl1) := is_allowed now rl in
      let (bs, rl2) := run rl1 rest in
      (b :: bs, rl2)
  end.

(** Clock readings that never go backwards. *)
Fixpoint monotone (clock : list Q) : Prop :=
  match clock with
  | [] => True
  | t0 :: rest =>
      match rest with
      | [] => True
      | t1 :: _ => (t0 <= t1)%Q
      end /\ monotone rest
  end.

(** The answers to the calls whose clock reading lies in the window
    [a <= t < a + p], in call order. *)
Fixpoint answers_in_window (p : Z) (a : Q) (clock : list Q)
    (answers : list bool) : list bool :=
  match clock, answers with
  | t0 :: clock', b :: answers' =>
      if Qle_bool a t0 && Qltb t0 (a + inject_Z p)
      then b :: answers_in_window p a clock' answers'
      else answers_in_window p a clock' answers'
  | _, _ => []
  end.

(** The number of admitted calls among some answers, and the number of
    recorded admissions made at [a] or later. *)
Definition admissions (answers : list bool) : Z :=
  Z.of_nat (length (List.filter (fun b : bool => b) answers)).

Definition recorded_from (a : Q) (w : list Q) : Z :=
  Z.of_nat (length (List.filter (Qle_bool a) w)).

(** The first [l] of [n] calls admitted, the others rejected. *)
Definition first_admitted (l : Z) (n : nat) : list bool :=
  List.map (fun i => Z.of_nat i <? l) (seq 0 n).

(** The window reading of the specification: in every window of [p]
    seconds, exactly the first [l] calls are admitted. *)
Definition first_calls_of_every_window (l p : Z) (clock : list Q) : Prop :=
  forall a : Q,
    let w := answers_in_window p a clock (fst (run (init l p) clock)) in
    w = first_admitted l (length w).

End RateLimiter.

(** ** Values, exceptions and the world *)

(** A decoded JSON value: what [response.json()] can return, and what the
    fields of a [CardData] built from it then hold. *)
#[warnings="-register-all"]
Inductive json :=
| JNull
| JBool (b : bool)
| JNum (n : Z)
| JStr (s : string)
| JArr (l : list json)
| JObj (m : gmap string json).

(** The exceptions (subclasses of [Exception]) the code names or catches. *)
Inductive exn :=
| ClientResponseError (status : Z)
| ServerDisconnectedError
| TooManyRedirects
| TimeoutError
| QueueFull
| RuntimeError (msg : string)
| AttributeError
| ValueError
| OtherException (msg : string).

Inductive result (A : Type) :=
| Ok (a : A)
| Raise (e : exn).
Arguments Ok {A} a.
Arguments Raise {A} e.

(** [class CardData] *)
Record CardData := {
  name : json;
  oracle_text : json;
  mana_cost : json;
  type_line : json;
  set_name : json;
  found : bool
}.

(** [asyncio.Queue]: the pending items, the count of items put and not yet
    marked done, and the capacity. *)
Record Queue := {
  items : list string;
  unfinished_tasks : Z;
  maxsize : Z
}.

(** What the code does to its environment, in the order it does it. *)
Inductive event :=
| EvAcquire                              (* entering async with self.semaphore *)
| EvRelease                              (* leaving async with self.semaphore *)
| EvSleep (seconds : Q)                  (* await asyncio.sleep(seconds) *)
| EvGet (fuzzy : string)                 (* session.get(API_BASE_URL, params) *)
| EvPut (item : string) (timeout : Q)    (* wait_for(queue.put(item), timeout) *)
| EvTaskDone (item : string).            (* queue.task_done(), in the iteration of item *)

(** The module-level state of [app.py] ([card_cache], the queue of
    [queue_worker]) and the interaction history. [card_cache] is the map of
    its live entries; expiry and eviction of [TTLCache] are not modelled. *)
Record world := {
  upstream_calls : nat;
  enqueue_waits : nat;
  trace : list event;
  card_cache : gmap string CardData;
  queue : Queue
}.

(** What one [session.get] and the reading of its response can do. *)
Inductive json_outcome :=
| JsonRaises (e : exn)
| JsonValue (v : json).

Inductive get_outcome :=
| GetRaises (e : exn)
| GetResponse (status : Z) (body : json_outcome).

(** What [wait_for(queue.put(item), timeout)] can do when the queue is
    full: a consumer takes the head item in time, the timeout elapses, or
    the wait fails otherwise. *)
Inductive wait_outcome :=
| SlotFreed
| WaitTimedOut
| WaitRaised (e : exn).

(** The environment: the answer of the upstream service to the n-th request
    of the run, and the outcome of the n-th wait on a full queue. *)
Record env := {
  upstream : nat -> string -> get_outcome;
  put_wait : nat -> wait_outcome
}.

(** ** The monad of the embedding *)

Definition M (A : Type) : Type := world -> result A * world.

Definition ret {A} (a : A) : M A := fun w => (Ok a, w).

Definition bind {A B} (m : M A) (k : A -> M B) : M B :=
  fun w =>
    match m w with
    | (Ok a, w1) => k a w1
    | (Raise e, w1) => (Raise e, w1)
    end.

Definition raise {A} (e : exn) : M A := fun w => (Raise e, w).

(** [try: m  except Exception as e: h e] *)
Definition try_except {A} (m : M A) (h : exn -> M A) : M A :=
  fun w =>
    match m w with
    | (Ok a, w1) => (Ok a, w1)
    | (Raise e, w1) => h e w1
    end.

(** [try: m  finally: f] *)
Definition try_finally {A} (m : M A) (f : M unit) : M A :=
  fun w =>
    match m w with
    | (r, w1) =>
        match f w1 with
        | (Ok _, w2) => (r, w2)
        | (Raise e, w2) => (Raise e, w2)
        end
    end.

Notation "'do' x <- m ; k" := (bind m (fun x => k))
  (at level 10, x name, m at level 100, k at level 200, only parsing).

Definition get_world : M world := fun w => (Ok w, w).

Definition emit (e : event) : M unit :=
  fun w => (Ok tt, {| upstream_calls := upstream_calls w;
                      enqueue_waits := enqueue_waits w;
                      trace := trace w ++ [e];
                      card_cache := card_cache w;
                      queue := queue w |}).

Definition set_cache (c : gmap string CardData) : M unit :=
  fun w => (Ok tt, {| upstream_calls := upstream_calls w;
                      enqueue_waits := enqueue_waits w;
                      trace := trace w;
                      card_cache := c;
                      queue := queue w |}).

Definition set_queue (q : Queue) : M unit :=
  fun w => (Ok tt, {| upstream_calls := upstream_calls w;
                      enqueue_waits := enqueue_waits w;
                      trace := trace w;
                      card_cache := card_cache w;
                      queue := q |}).

(** [await asyncio.sleep(seconds)] *)
Definition sleep (seconds : Q) : M unit := emit (EvSleep seconds).

(** ** CardManager *)

Module CardManager.

(** [aiohttp.ClientSession], as far as the code looks at it. *)
Record ClientSession := { closed : bool }.

Record t := {
  session : option ClientSession;
  semaphore : Z
}.

(** [asyncio.Semaphore(value)] refuses a negative initial value. *)
Definition Semaphore (value : Z) : result Z :=
  if value <? 0 then Raise ValueError else Ok value.

(** [CardManager.__init__] *)
Definition init (cfg : Config.t) : result t :=
  match Semaphore (Config.MAX_CONCURRENT_REQUESTS cfg) with
  | Ok sem => Ok {| session := None; semaphore := sem |}
  | Raise e => Raise e
  end.

(** [CardManager.__aenter__] *)
Definition aenter (cm : t) : t :=
  match session cm with
  | Some s =>
      if closed s
      then {| session := Some {| closed := false |};
              semaphore := semaphore cm |}
      else cm
  | None => {| session := Some {| closed := false |};
               semaphore := semaphore cm |}
  end.

(** [CardManager.__aexit__] *)
Definition aexit (cm : t) : t :=
  match session cm with
  | Some s =>
      if closed s then cm
      else {| session := Some {| closed := true |};
              semaphore := semaphore cm |}
  | None => cm
  end.

(** [not self.session or self.session.closed] *)
Definition session_unusable (cm : t) : bool :=
  match session cm with
  | Some s => closed s
  | None => true
  end.

(** [CardData(name=card_name, found=False)]: the other fields take the
    defaults of the constructor. *)
Definition not_found (card_name : string) : CardData :=
  {| name := JStr card_name;
     oracle_text := JStr "";
     mana_cost := JStr "";
     type_line := JStr "";
     set_name := JStr "";
     found := false |}.

(** [async with self.session.get(API_BASE_URL, params=params) as response]:
    the request is issued and the environment answers it. *)
Definition session_get (ev : env) (fuzzy : string) : M (Z * json_outcome) :=
  fun w =>
    let w1 := {| upstream_calls := S (upstream_calls w);
                 enqueue_waits := enqueue_waits w;
                 trace := trace w ++ [EvGet fuzzy];
                 card_cache := card_cache w;
                 queue := queue w |} in
    match upstream ev (upstream_calls w) fuzzy with
    | GetRaises e => (Raise e, w1)
    | GetResponse status body => (Ok (status, body), w1)
    end.

(** [response.raise_for_status()] *)
Definition raise_for_status (status : Z) : M unit :=
  if 400 <=? status then raise (ClientResponseError status) else ret tt.

(** [await response.json()] *)
Definition response_json (body : json_outcome) : M json :=
  match body with
  | JsonRaises e => raise e
  | JsonValue v => ret v
  end.

(** [data.get(key, dflt)]; a value that is no dict has no [get]. *)
Definition data_get (data : json) (key : string) (dflt : json) : M json :=
  match data with
  | JObj m => ret (default dflt (m !! key))
  | _ => raise AttributeError
  end.

(** The body of the [try] of one attempt. *)
Definition attempt_body (cfg : Config.t) (ev : env) (card_name : string)
    : M CardData :=
  do _ <- sleep (Config.RATE_LIMIT_DELAY cfg) ;
  do response <- session_get ev card_name ;
  if fst response =? 404 then ret (not_found card_name)
  else
    do _ <- raise_for_status (fst response) ;
    do data <- response_json (snd response) ;
    do n <- data_get data "name" (JStr "") ;
    do o <- data_get data "oracle_text" (JStr "") ;
    do m <- data_get data "mana_cost" (JStr "") ;
    do t <- data_get data "type_line" (JStr "") ;
    do s <- data_get data "set_name" (JStr "") ;
    ret {| name := n; oracle_text := o; mana_cost := m; type_line := t;
           set_name := s; found := true |}.

(** The [except] clauses of one attempt. [Some c] is [return c], [None]
    lets the [for] loop go on. *)
Definition attempt_handler (cfg : Config.t) (card_name : string)
    (attempt : nat) (e : exn) : M (option CardData) :=
  match e with
  | ClientResponseError status =>
      if status =? 404 then ret (Some (not_found card_name))
      else if Z.of_nat attempt =? Config.MAX_RETRIES cfg - 1
      then ret (Some (not_found card_name))
      else do _ <- sleep (inject_Z (2 ^ Z.of_nat attempt)) ; ret None
  | ServerDisconnectedError | TooManyRedirects | TimeoutError =>
      if Z.of_nat attempt =? Config.MAX_RETRIES cfg - 1
      then ret (Some (not_found card_name))
      else do _ <- sleep (inject_Z (2 ^ Z.of_nat attempt)) ; ret None
  | _ => ret (Some (not_found card_name))
  end.

(** One iteration of [for attempt in range(Config.MAX_RETRIES)]. *)
Definition attempt_once (cfg : Config.t) (ev : env) (card_name : string)
    (attempt : nat) : M (option CardData) :=
  try_except
    (do c <- attempt_body cfg ev card_name ; ret (Some c))
    (attempt_handler cfg card_name attempt).

(** The [for] loop over the attempts still to make, and the [return]
    after it. *)
Fixpoint attempts_loop (cfg : Config.t) (ev : env) (card_name : string)
    (attempts : list nat) : M CardData :=
  match attempts with
  | [] => ret (not_found card_name)
  | attempt :: rest =>
      do r <- attempt_once cfg ev card_name attempt ;
      match r with
      | Some c => ret c
      | None => attempts_loop cfg ev card_name rest
      end
  end.

(** [CardManager.fetch_card_info]. The invocation is followed from the
    moment the semaphore grants it a permit. *)
Definition fetch_card_info (cfg : Config.t) (ev : env) (cm : t)
    (card_name : string) : M CardData :=
  if session_unusable cm
  then raise (RuntimeError
                "CardManager session is not initialized or has been closed")
  else
    do _ <- emit EvAcquire ;
    try_finally
      (attempts_loop cfg ev card_name
         (seq 0 (Z.to_nat (Config.MAX_RETRIES cfg))))
      (emit EvRelease).

(** *** The failure classes of the specification *)

(** The transient exceptions: a bad status other than 404, a disconnect,
    a redirect loop, a timeout. *)
Definition transient_exn (e : exn) : bool :=
  match e with
  | ClientResponseError status => negb (status =? 404)
  | ServerDisconnectedError | TooManyRedirects | TimeoutError => true
  | _ => false
  end.

(** An answer of the upstream service that fails transiently. *)
Definition transient (o : get_outcome) : bool :=
  match o with
  | GetRaises e => transient_exn e
  | GetResponse status body =>
      if status =? 404 then false
      else if 400 <=? status then true
      else match body with
           | JsonRaises e => transient_exn e
           | JsonValue _ => false
           end
  end.

(** An answer of the upstream service with the not-found status. *)
Definition is_not_found (o : get_outcome) : bool :=
  match o with
  | GetRaises (ClientResponseError status) => status =? 404
  | GetResponse status _ => status =? 404
  | _ => false
  end.

(** A successful answer: a status below 400 and a JSON object. *)
Definition success_body (o : get_outcome) : option (gmap string json) :=
  match o with
  | GetResponse status (JsonValue (JObj m)) =>
      if 400 <=? status then None else Some m
  | _ => None
  end.

(** The record built from a successful answer. *)
Definition found_card (m : gmap string json) : CardData :=
  {| name := default (JStr "") (m !! "name");
     oracle_text := default (JStr "") (m !! "oracle_text");
     mana_cost := default (JStr "") (m !! "mana_cost");
     type_line := default (JStr "") (m !! "type_line");
     set_name := default (JStr "") (m !! "set_name");
     found := true |}.

(** The interaction of a fetch whose [n] attempts all fail transiently:
    each attempt but the last is followed by its backoff. *)
Definition retries_from (d : Q) (card_name : string) (first n : nat)
    : list event :=
  flat_map (fun k => [EvSleep d; EvGet card_name;
                      EvSleep (inject_Z (2 ^ Z.of_nat k))])
           (seq first n).

Definition exhausted_trace (d : Q) (card_name : string) (n : nat)
    : list event :=
  match n with
  | O => []
  | S n' => retries_from d card_name 0 n' ++ [EvSleep d; EvGet card_name]
  end.

(** The requests of an interaction, and the sleeps that directly follow
    a request (the backoffs). *)
Fixpoint requests_made (evs : list event) : nat :=
  match evs with
  | [] => O
  | EvGet _ :: rest => S (requests_made rest)
  | _ :: rest => requests_made rest
  end.

Fixpoint backoffs (evs : list event) : list Q :=
  match evs with
  | [] => []
  | EvGet _ :: rest =>
      match rest with
      | EvSleep seconds :: _ => seconds :: backoffs rest
      | _ => backoffs rest
      end
  | _ :: rest => backoffs rest
  end.

(** The events an attempt can make. *)
Definition attempt_event (e : event) : bool :=
  match e with
  | EvSleep _ | EvGet _ => true
  | _ => false
  end.

(** The events a fetch can make. *)
Definition fetch_event (e : event) : bool :=
  match e with
  | EvAcquire | EvRelease | EvSleep _ | EvGet _ => true
  | EvPut _ _ | EvTaskDone _ => false
  end.

(** The world after [calls] more upstream calls and the events [evs]. *)
Definition advance (w : world) (calls : nat) (evs : list event) : world :=
  {| upstream_calls := upstream_calls w + calls;
     enqueue_waits := enqueue_waits w;
     trace := trace w ++ evs;
     card_cache := card_cache w;
     queue := queue w |}.

(** The reading of the specification that [fetch_card_info] never
    raises. *)
Definition never_raises : Prop :=
  forall cfg ev cm card_name w,
    exists c, fst (fetch_card_info cfg ev cm card_name w) = Ok c.

(** The reading of the specification that a not-found answer, whichever
    attempt observes it, leaves the fetch with one upstream call made. *)
Definition one_call_on_not_found (cfg : Config.t) : Prop :=
  forall ev cm card_name w (k : nat),
    session_unusable cm = false ->
    (k < Z.to_nat (Config.MAX_RETRIES cfg))%nat ->
    (forall i, (i < k)%nat ->
               transient (upstream ev (upstream_calls w + i) card_name)
               = true) ->
    is_not_found (upstream ev (upstream_calls w + k) card_name) = true ->
    fst (fetch_card_info cfg ev cm card_name w) = Ok (not_found card_name)
    /\ upstream_calls (snd (fetch_card_info cfg ev cm card_name w))
       = S (upstream_calls w).

End CardManager.

(** ** QueueWorker *)

Module QueueWorker.

(** [asyncio.Queue(maxsize=Config.MAX_QUEUE_SIZE)] *)
Definition new_queue (cfg : Config.t) : Queue :=
  {| items := []; unfinished_tasks := 0;
     maxsize := Config.MAX_QUEUE_SIZE cfg |}.

(** [Queue.full()]: a capacity of zero or less is no bound. *)
Definition full (q : Queue) : bool :=
  if maxsize q <=? 0 then false
  else maxsize q <=? Z.of_nat (length (items q)).

(** Placing an item: it joins the tail and counts as unfinished. *)
Definition put_item (item : string) (q : Queue) : Queue :=
  {| items := items q ++ [item];
     unfinished_tasks := unfinished_tasks q + 1;
     maxsize := maxsize q |}.

(** A consumer takes the head item. *)
Definition take_head (q : Queue) : Queue :=
  {| items := tail (items q);
     unfinished_tasks := unfinished_tasks q;
     maxsize := maxsize q |}.

Definition next_wait : M nat :=
  fun w => (Ok (enqueue_waits w),
            {| upstream_calls := upstream_calls w;
               enqueue_waits := S (enqueue_waits w);
               trace := trace w;
               card_cache := card_cache w;
               queue := queue w |}).

(** [await asyncio.wait_for(self.queue.put(item), timeout)] *)
Definition wait_for_put (ev : env) (item : string) (timeout : Q) : M unit :=
  do _ <- emit (EvPut item timeout) ;
  do w <- get_world ;
  if full (queue w)
  then
    do n <- next_wait ;
    match put_wait ev n with
    | SlotFreed => set_queue (put_item item (take_head (queue w)))
    | WaitTimedOut => raise TimeoutError
    | WaitRaised e => raise e
    end
  else set_queue (put_item item (queue w)).

(** [QueueWorker.add_to_queue] *)
Definition add_to_queue (ev : env) (card_name : string) : M bool :=
  try_except
    (do _ <- wait_for_put ev card_name 5 ; ret true)
    (fun e =>
       match e with
       | QueueFull => ret false
       | TimeoutError => ret false
       | _ => ret false
       end).

(** [QueueWorker.get_queue_size] *)
Definition get_queue_size : M Z :=
  do w <- get_world ; ret (Z.of_nat (length (items (queue w)))).

(** [self.queue.task_done()], called in the iteration of [item]. *)
Definition task_done (item : string) : M unit :=
  do w <- get_world ;
  if unfinished_tasks (queue w) <=? 0 then raise ValueError
  else
    do _ <- emit (EvTaskDone item) ;
    set_queue {| items := items (queue w);
                 unfinished_tasks := unfinished_tasks (queue w) - 1;
                 maxsize := maxsize (queue w) |}.

(** The body of [for card_name in batch] of [process_queue]. *)
Definition process_item (cfg : Config.t) (ev : env) (cm : CardManager.t)
    (card_name : string) : M unit :=
  try_finally
    (try_except
       (do w <- get_world ;
        match card_cache w !! card_name with
        | None =>
            do card_info <- CardManager.fetch_card_info cfg ev cm card_name ;
            do w1 <- get_world ;
            set_cache (<[card_name := card_info]> (card_cache w1))
        | Some _ => ret tt
        end)
       (fun _ => ret tt))
    (task_done card_name).

(** [for card_name in batch: ...] *)
Fixpoint process_batch (cfg : Config.t) (ev : env) (cm : CardManager.t)
    (batch : list string) : M unit :=
  match batch with
  | [] => ret tt
  | card_name :: rest =>
      do _ <- process_item cfg ev cm card_name ;
      process_batch cfg ev cm rest
  end.

(** The collection of a batch: up to [n] items are taken; the wait on an
    empty queue ends in its timeout, which leaves the loop. *)
Fixpoint collect_batch (n : nat) (batch : list string) : M (list string) :=
  match n with
  | O => ret batch
  | S n' =>
      do w <- get_world ;
      match items (queue w) with
      | [] => ret batch
      | card_name :: _ =>
          do _ <- set_queue (take_head (queue w)) ;
          collect_batch n' (batch ++ [card_name])
      end
  end.

(** One pass of the [while self.is_running] loop of [process_queue]. *)
Definition process_queue_pass (cfg : Config.t) (ev : env)
    (cm : CardManager.t) : M unit :=
  try_except
    (do batch <- collect_batch (Z.to_nat (Config.BATCH_SIZE cfg)) [] ;
     match batch with
     | [] => sleep (1 # 10)
     | _ => process_batch cfg ev cm batch
     end)
    (fun _ => sleep 1).

(** The items marked done in an interaction, and the items whose
    placing was attempted. *)
Definition done_items (evs : list event) : list string :=
  flat_map (fun e => match e with EvTaskDone item => [item] | _ => [] end)
           evs.

Definition put_attempts (evs : list event) : list string :=
  flat_map (fun e => match e with EvPut item _ => [item] | _ => [] end) evs.

End QueueWorker.

(** ** The lookup route *)

Module Routes.

(** The body of a response: [jsonify] of a list of dicts or of an error
    dict. *)
Inductive body :=
| JsonList (l : list (gmap string json))
| JsonError (msg : string).

Definition status_of (card : CardData) : json :=
  JStr (if found card then "found" else "not found").

(** The dict a cached record is reported as. *)
Definition card_entry (card : CardData) : gmap string json :=
  list_to_map
    [("name", name card);
     ("oracle_text", oracle_text card);
     ("mana_cost", mana_cost card);
     ("type_line", type_line card);
     ("set_name", set_name card);
     ("status", status_of card)].

(** The dict an uncached name is reported as. *)
Definition queue_entry (card_name : string) (queued : bool)
    : gmap string json :=
  list_to_map
    [("name", JStr card_name);
     ("status", JStr (if queued then "queued" else "queue full"))].

(** [for name in card_names: ...] of [fetch_cards]. *)
Fixpoint fetch_cards_loop (ev : env) (card_names : list string)
    (results : list (gmap string json)) : M (list (gmap string json)) :=
  match card_names with
  | [] => ret results
  | card_name :: rest =>
      do w <- get_world ;
      match card_cache w !! card_name with
      | Some card_data =>
          fetch_cards_loop ev rest (results ++ [card_entry card_data])
      | None =>
          do queued <- QueueWorker.add_to_queue ev card_name ;
          fetch_cards_loop ev rest
            (results ++ [queue_entry card_name queued])
      end
  end.

(** The handler [fetch_cards] on the submitted [card_names]; the
    [rate_limit] decorator of the route is not part of it. With no name
    submitted all cached cards are listed (in the order of the map, not
    the insertion order of the cache). *)
Definition fetch_cards (ev : env) (card_names : list string)
    : M (body * Z) :=
  try_except
    (match card_names with
     | [] =>
         do w <- get_world ;
         ret (JsonList (card_entry <$> (map_to_list (card_cache w)).*2), 200)
     | _ =>
         do results <- fetch_cards_loop ev card_names [] ;
         ret (JsonList results, 200)
     end)
    (fun _ => ret (JsonError "Internal server error", 500)).

(** The submitted names whose reported status is [status]. *)
Definition status_is (status : string) (r : gmap string json) : bool :=
  match r !! "status" with
  | Some (JStr s) => String.eqb s status
  | _ => false
  end.

Fixpoint names_with_status (status : string) (card_names : list string)
    (results : list (gmap string json)) : list string :=
  match card_names, results with
  | card_name :: names', r :: results' =>
      if status_is status r
      then card_name :: names_with_status status names' results'
      else names_with_status status names' results'
  | _, _ => []
  end.

(** The submitted names that have no cache entry. *)
Definition uncached (cache : gmap string CardData)
    (card_names : list string) : list string :=
  List.filter (fun n => match cache !! n with
                        | Some _ => false
                        | None => true
                        end) card_names.

(** What one submitted name is answered with, given the cache. *)
Definition answers (cache : gmap string CardData) (card_name : string)
    (r : gmap string json) : Prop :=
  match cache !! card_name with
  | Some card =>
      r = card_entry card
      /\ r !! "status"
         = Some (JStr (if found card then "found" else "not found"))
  | None =>
      exists queued,
        r = queue_entry card_name queued
        /\ r !! "status"
           = Some (JStr (if queued then "queued" else "queue full"))
  end.

End Routes.

(** ** Concurrent invocations of [fetch_card_info]

    Several invocations share one [CardManager] and interleave at their
    awaits. What each of them does is what [fetch_card_info] does; the
    semaphore decides which of them may go on. *)

Module Concurrent.

(** A world without history. *)
Definition blank : world :=
  {| upstream_calls := 0; enqueue_waits := 0; trace := [];
     card_cache := ∅;
     queue := {| items := []; unfinished_tasks := 0; maxsize := 0 |} |}.

(** The events of one invocation [fetch_card_info(card_name)], in order:
    those the routine makes when it runs, against the answers [ev] of the
    upstream service to its requests. *)
Definition events_of (cfg : Config.t) (cm : CardManager.t)
    (call : env * string) : list event :=
  trace (snd (CardManager.fetch_card_info cfg (fst call) cm (snd call) blank)).

(** An invocation under way: the events it has made and those it has still
    to make. It is suspended between two events, at an await. *)
Record task := {
  past : list event;
  future : list event
}.

(** The semaphore of the manager and the invocations that share it. *)
Record sys := {
  permits : Z;
  tasks : list task
}.

(** An invocation that has not begun. *)
Definition arrived (cfg : Config.t) (cm : CardManager.t)
    (call : env * string) : task :=
  {| past := []; future := events_of cfg cm call |}.

(** The invocations [calls] arrive on the manager [cm]. *)
Definition start (cfg : Config.t) (cm : CardManager.t)
    (calls : list (env * string)) : sys :=
  {| permits := CardManager.semaphore cm;
     tasks := List.map (arrived cfg cm) calls |}.

Definition proceed (t : task) : task :=
  match future t with
  | [] => t
  | e :: rest => {| past := past t ++ [e]; future := rest |}
  end.

(** The event loop lets invocation [i] go on to its next event.
    [asyncio.Semaphore]: entering [async with self.semaphore] takes a permit
    when one is free and leaves the invocation suspended otherwise; leaving
    the block gives the permit back. Which suspended invocation gets a free
    permit is the choice of the schedule here. *)
Definition step (s : sys) (i : nat) : sys :=
  match tasks s !! i with
  | Some t =>
      match future t with
      | [] => s
      | EvAcquire :: _ =>
          if 0 <? permits s
          then {| permits := permits s - 1;
                  tasks := <[i := proceed t]> (tasks s) |}
          else s
      | EvRelease :: _ =>
          {| permits := permits s + 1;
             tasks := <[i := proceed t]> (tasks s) |}
      | _ :: _ =>
          {| permits := permits s;
             tasks := <[i := proceed t]> (tasks s) |}
      end
  | None => s
  end.

Definition run (s : sys) (schedule : list nat) : sys :=
  fold_left step schedule s.

(** The invocation has an upstream call in flight: the last thing it did
    was to issue a request. *)
Definition requesting (t : task) : bool :=
  match last (past t) with
  | Some (EvGet _) => true
  | _ => false
  end.

Definition acquires (evs : list event) : Z :=
  Z.of_nat (length (List.filter
                      (fun e => match e with EvAcquire => true | _ => false end)
                      evs)).

Definition releases (evs : list event) : Z :=
  Z.of_nat (length (List.filter
                      (fun e => match e with EvRelease => true | _ => false end)
                      evs)).

(** The permits an invocation holds: those it took and has not given
    back. *)
Definition held (t : task) : Z := acquires (past t) - releases (past t).

(** The upstream calls in flight, and the permits held, over all
    invocations. *)
Definition in_flight (s : sys) : Z :=
  Z.of_nat (length (List.filter requesting (tasks s))).

Definition permits_held (s : sys) : Z :=
  fold_right Z.add 0 (List.map held (tasks s)).

(** The schedule on which the first [n] invocations, one after the other,
    come to the semaphore, sleep and issue their first request. *)
Definition burst (n : nat) : list nat :=
  flat_map (fun i => [i; i; i]) (seq 0 n).

(** An invocation that has taken a permit and issued its first
    request. *)
Definition first_request (cfg : Config.t) (cm : CardManager.t)
    (call : env * string) : task :=
  proceed (proceed (proceed (arrived cfg cm call))).

(** An invocation is made of the events of [fetch_card_info] on an open
    session: a permit taken, attempts, the permit given back. *)
Definition well_formed (t : task) : Prop :=
  exists body,
    (past t ++ future t = EvAcquire :: body ++ [EvRelease])%list
    /\ forallb CardManager.attempt_event body = true.

(** The accounting of the semaphore, and the shape of the invocations. *)
Definition invariant (total : Z) (s : sys) : Prop :=
  0 <= permits s
  /\ permits s + permits_held s = total
  /\ Forall well_formed (tasks s).

End Concurrent.

(** ** Concrete environments *)

Module Scenario.

Definition idle : world :=
  {| upstream_calls := 0; enqueue_waits := 0; trace := [];
     card_cache := ∅; queue := QueueWorker.new_queue Config.default |}.

(** A manager inside [async with CardManager() as card_manager]. *)
Definition manager : CardManager.t :=
  CardManager.aenter
    {| CardManager.session := None;
       CardManager.semaphore := Config.MAX_CONCURRENT_REQUESTS Config.default |}.

(** A manager that was never entered. *)
Definition unopened : CardManager.t :=
  {| CardManager.session := None;
     CardManager.semaphore := Config.MAX_CONCURRENT_REQUESTS Config.default |}.

(** An upstream service that answers every request with status 500. *)
Definition failing : env :=
  {| upstream := fun _ _ => GetResponse 500 (JsonValue JNull);
     put_wait := fun _ => WaitTimedOut |}.

(** An upstream service whose first answer times out and whose later
    answers have status 404. *)
Definition timeout_then_404 : env :=
  {| upstream := fun n _ =>
       match n with
       | O => GetRaises TimeoutError
       | S _ => GetResponse 404 (JsonValue JNull)
       end;
     put_wait := fun _ => WaitTimedOut |}.

(** An upstream service that answers every request with a card of the
    requested name. *)
Definition echoing : env :=
  {| upstream := fun _ fuzzy =>
       GetResponse 200
         (JsonValue (JObj (list_to_map
            [("name", JStr fuzzy); ("mana_cost", JStr "0");
             ("type_line", JStr "Artifact")])));
     put_wait := fun _ => WaitTimedOut |}.

(** Fifteen distinct names, enqueued and not yet processed. *)
Definition fifteen : list string :=
  ["c01"; "c02"; "c03"; "c04"; "c05"; "c06"; "c07"; "c08"; "c09"; "c10";
   "c11"; "c12"; "c13"; "c14"; "c15"].

Definition fifteen_pending : world :=
  {| upstream_calls := 0; enqueue_waits := 0; trace := [];
     card_cache := ∅;
     queue := {| items := fifteen; unfinished_tasks := 15;
                 maxsize := Config.MAX_QUEUE_SIZE Config.default |} |}.

(** A queue of capacity two that holds two items. *)
Definition full_queue : world :=
  {| upstream_calls := 0; enqueue_waits := 0; trace := [];
     card_cache := ∅;
     queue := {| items := ["c01"; "c02"]; unfinished_tasks := 2;
                 maxsize := 2 |} |}.

End Scenario.

(** ** Further readings of the fetch *)

Module Retry.
Import CardManager.

(** The record an attempt that ends the fetch returns: the record of a
    successful answer, the not-found record otherwise. *)
Definition final_record (card_name : string) (o : get_outcome) : CardData :=
  match success_body o with
  | Some m => found_card m
  | None => not_found card_name
  end.

(** An answer that is an unexpected failure: an exception that is neither
    a response error nor a network error, or a body that is no JSON
    object. *)
Definition unexpected_exn (e : exn) : bool :=
  match e with
  | ClientResponseError _ | ServerDisconnectedError | TooManyRedirects
  | TimeoutError => false
  | _ => true
  end.

Definition unexpected (o : get_outcome) : bool :=
  match o with
  | GetRaises e => unexpected_exn e
  | GetResponse status body =>
      if status =? 404 then false
      else if 400 <=? status then false
      else match body with
           | JsonRaises e => unexpected_exn e
           | JsonValue (JObj _) => false
           | JsonValue _ => true
           end
  end.

(** The seconds of backoff after [k] failed attempts. *)
Definition backoff_total (k : nat) : Z :=
  fold_right Z.add 0 (List.map (fun i => 2 ^ Z.of_nat i) (seq 0 k)).

(** The seconds of a list of sleeps. *)
Definition Qsum (l : list Q) : Q := fold_right Qplus 0%Q l.

(** The events a fetch adds to the history. *)
Definition fetch_events (cfg : Config.t) (ev : env) (cm : CardManager.t)
    (card_name : string) (w : world) : list event :=
  drop (length (trace w))
       (trace (snd (fetch_card_info cfg ev cm card_name w))).

(** The interaction of a fetch that ends at its attempt [k]. *)
Definition fetch_trace (cfg : Config.t) (card_name : string) (k : nat)
    : list event :=
  [EvAcquire]
  ++ retries_from (Config.RATE_LIMIT_DELAY cfg) card_name 0 k
  ++ [EvSleep (Config.RATE_LIMIT_DELAY cfg); EvGet card_name; EvRelease].

End Retry.

(** ** The rate-limited route *)

Module RateLimited.
Import Routes.

(** The module-level [rate_limiter] beside the world. *)
Definition state : Type := RateLimiter.t * world.

(** [rate_limit(f)]: the decorated function, called at the clock reading
    [now]. *)
Definition rate_limit (f : M (body * Z)) (now : Q) (s : state)
    : result (body * Z) * state :=
  let (allowed, rl1) := RateLimiter.is_allowed now (fst s) in
  if allowed
  then
    let (r, w1) :=
      try_except f
        (fun _ => ret (JsonError "Internal server error", 500)) (snd s) in
    (r, (rl1, w1))
  else (Ok (JsonError "Rate limit exceeded", 429), (rl1, snd s)).

(** The route [/fetch]: [fetch_cards] under [rate_limit]. *)
Definition fetch_route (ev : env) (now : Q) (card_names : list string)
    : state -> result (body * Z) * state :=
  rate_limit (fetch_cards ev card_names) now.

(** Requests served one after the other, each with its clock reading. *)
Fixpoint serve (ev : env) (requests : list (Q * list string)) (s : state)
    : list (result (body * Z)) * state :=
  match requests with
  | [] => ([], s)
  | (now, card_names) :: rest =>
      let (r, s1) := fetch_route ev now card_names s in
      let (rs, s2) := serve ev rest s1 in
      (r :: rs, s2)
  end.

(** The status code of a response. *)
Definition status_code (r : result (body * Z)) : option Z :=
  match r with
  | Ok (_, code) => Some code
  | Raise _ => None
  end.

(** A response other than the refusal of the limiter. *)
Definition served (r : result (body * Z)) : bool :=
  match status_code r with
  | Some code => negb (code =? 429)
  | None => true
  end.

(** The handler run directly on the requests the limiter admitted. *)
Fixpoint handle_admitted (ev : env) (requests : list (Q * list string))
    (admitted : list bool) (w : world) : world :=
  match requests, admitted with
  | (_, card_names) :: rest, b :: admitted' =>
      handle_admitted ev rest admitted'
        (if b : bool then snd (fetch_cards ev card_names w) else w)
  | _, _ => w
  end.

(** What the decorator answers when the limiter refuses. *)
Definition refusal : result (body * Z) :=
  Ok (JsonError "Rate limit exceeded", 429).

(** What the decorator makes of the outcome of the handler. *)
Definition absorbed (r : result (body * Z)) : result (body * Z) :=
  match r with
  | Ok a => Ok a
  | Raise _ => Ok (JsonError "Internal server error", 500)
  end.

(** A route decorated with [rate_limit] under requests served one after
    the other: each request is the clock reading of its arrival and what
    the handler does with it. *)
Fixpoint serve_with (requests : list (Q * M (body * Z))) (s : state)
    : list (result (body * Z)) * state :=
  match requests with
  | [] => ([], s)
  | (now, f) :: rest =>
      let (r, s1) := rate_limit f now s in
      let (rs, s2) := serve_with rest s1 in
      (r :: rs, s2)
  end.

(** The reading of the decorator: the handlers of the admitted requests
    run one after the other and answer them, the other requests are
    refused. *)
Fixpoint answer_admitted (requests : list (Q * M (body * Z)))
    (admitted : list bool) (w : world)
    : list (result (body * Z)) * world :=
  match requests, admitted with
  | (_, f) :: rest, true :: admitted' =>
      let (r, w1) := f w in
      let (rs, w2) := answer_admitted rest admitted' w1 in
      (absorbed r :: rs, w2)
  | (_, f) :: rest, false :: admitted' =>
      let (rs, w2) := answer_admitted rest admitted' w in
      (refusal :: rs, w2)
  | _, _ => ([], w)
  end.

End RateLimited.

(** ** Measures of the queue and of the worker *)

Module Accounting.
Import QueueWorker.

(** The fetches begun in an interaction. *)
Definition fetches (evs : list event) : nat :=
  length (List.filter (fun e => match e with EvAcquire => true | _ => false end)
                      evs).

(** Every pending item is counted as unfinished. *)
Definition accounted (q : Queue) : Prop :=
  Z.of_nat (length (items q)) <= unfinished_tasks q.

(** The pending items do not exceed the capacity, when there is one. *)
Definition within_capacity (q : Queue) : Prop :=
  maxsize q <= 0 \/ Z.of_nat (length (items q)) <= maxsize q.

(** [add_to_queue] called for each name in turn. *)
Fixpoint enqueue_all (ev : env) (card_names : list string) : M (list bool) :=
  match card_names with
  | [] => ret []
  | card_name :: rest =>
      do b <- add_to_queue ev card_name ;
      do bs <- enqueue_all ev rest ;
      ret (b :: bs)
  end.

(** [n] passes of the worker loop, one after the other. *)
Fixpoint passes (cfg : Config.t) (ev : env) (cm : CardManager.t) (n : nat)
    : M unit :=
  match n with
  | O => ret tt
  | S n' =>
      do _ <- process_queue_pass cfg ev cm ;
      passes cfg ev cm n'
  end.

(** An environment in which no wait on a full queue ends well. *)
Definition no_consumer (ev : env) : Prop :=
  forall n, put_wait ev n <> SlotFreed.

End Accounting.

(** ** The cache beyond a map: capacity and time to live *)

Module TTLCache.
Import QueueWorker.

(** [Config.CACHE_SIZE], the [maxsize] of [card_cache]. *)
Definition CACHE_SIZE : Z := 1000.

(** What [TTLCache] of cachetools does beyond a map. [lapsed w key] says
    that at the moment the world [w] has reached the entry of [key] has
    outlived [Config.CACHE_TTL]; [victim] says which entry [popitem] takes
    from a cache that is full. *)
Record policy := {
  capacity : Z;
  lapsed : world -> string -> bool;
  victim : gmap string CardData -> string
}.

(** [key in card_cache]: an entry that has outlived its time to live does
    not count. *)
Definition contains (p : policy) (w : world) (key : string) : bool :=
  match card_cache w !! key with
  | Some _ => negb (lapsed p w key)
  | None => false
  end.

(** [self.expire(time)]: the entries that have outlived their time to live
    are removed. *)
Definition expire (p : policy) (w : world) : gmap string CardData :=
  filter (fun kv => lapsed p w kv.1 = false) (card_cache w).

(** [while self.currsize + 1 > maxsize: self.popitem()] *)
Fixpoint make_room (fuel : nat) (p : policy) (cache : gmap string CardData)
    : gmap string CardData :=
  match fuel with
  | O => cache
  | S fuel' =>
      if capacity p <? Z.of_nat (size cache) + 1
      then make_room fuel' p (delete (victim p cache) cache)
      else cache
  end.

(** [card_cache[key] = value] ([TTLCache.__setitem__]): the entries that
    have outlived their time are removed, a value that cannot fit is
    refused, entries are popped until a new key fits, and the value is
    stored. *)
Definition setitem (p : policy) (key : string) (value : CardData) : M unit :=
  do w <- get_world ;
  let live := expire p w in
  do _ <- set_cache live ;
  if capacity p <? 1 then raise ValueError
  else
    match live !! key with
    | Some _ => set_cache (<[key := value]> live)
    | None => set_cache (<[key := value]> (make_room (size live) p live))
    end.

(** The body of [for card_name in batch] of [process_queue], on the cache
    with its capacity and its time to live. *)
Definition process_item (cfg : Config.t) (ev : env) (cm : CardManager.t)
    (p : policy) (card_name : string) : M unit :=
  try_finally
    (try_except
       (do w <- get_world ;
        if contains p w card_name then ret tt
        else
          do card_info <- CardManager.fetch_card_info cfg ev cm card_name ;
          setitem p card_name card_info)
       (fun _ => ret tt))
    (task_done card_name).

(** [for card_name in batch: ...] *)
Fixpoint process_batch (cfg : Config.t) (ev : env) (cm : CardManager.t)
    (p : policy) (batch : list string) : M unit :=
  match batch with
  | [] => ret tt
  | card_name :: rest =>
      do _ <- process_item cfg ev cm p card_name ;
      process_batch cfg ev cm p rest
  end.

(** The cache has room for a new entry per name of the batch. *)
Definition room (p : policy) (batch : list string) (w : world) : Prop :=
  Z.of_nat (size (card_cache w)) + Z.of_nat (length batch) <= capacity p.

(** No entry outlives its time to live. *)
Definition none_lapses (p : policy) : Prop :=
  forall w key, lapsed p w key = false.

(** The cache of the application while nothing lapses. *)
Definition fresh : policy :=
  {| capacity := CACHE_SIZE;
     lapsed := fun _ _ => false;
     victim := fun cache => default "" (head (map_to_list cache).*1) |}.

End TTLCache.

(** ** The export route *)

Module ExportRoute.
Import Routes.

(** What the export route answers: the rows handed to [csv.writer], sent
    as the attachment [card_data.csv], or an error dict. The text the
    [csv] module makes of the rows is not modelled. *)
Inductive export_body :=
| CsvFile (rows : list (list json))
| ExportError (msg : string).

Definition header : list json :=
  [JStr "Name"; JStr "Oracle Text"; JStr "Mana Cost"; JStr "Type Line";
   JStr "Set Name"; JStr "Status"].

(** The row written for a cached record. *)
Definition card_row (card : CardData) : list json :=
  [name card; oracle_text card; mana_cost card; type_line card;
   set_name card; status_of card].

(** The row written for [name]: [card_cache.get(name)] decides. *)
Definition export_row (cache : gmap string CardData) (card_name : string)
    : list json :=
  match cache !! card_name with
  | Some card_data => card_row card_data
  | None =>
      [JStr card_name; JStr ""; JStr ""; JStr ""; JStr ""; JStr "not found"]
  end.

(** [if not card_names: card_names = list(card_cache.keys())] (in the order
    of the map, not the insertion order of the cache). *)
Definition exported_names (cache : gmap string CardData)
    (card_names : list string) : list string :=
  match card_names with
  | [] => (map_to_list cache).*1
  | _ => card_names
  end.

(** The handler [export_cards]; [sent] is what [send_file] does with the
    encoded rows. *)
Definition export_cards (sent : result unit) (card_names : list string)
    : M (export_body * Z) :=
  try_except
    (do w <- get_world ;
     let rows :=
       header :: List.map (export_row (card_cache w))
                   (exported_names (card_cache w) card_names) in
     match sent with
     | Ok _ => ret (CsvFile rows, 200)
     | Raise e => raise e
     end)
    (fun _ => ret (ExportError "Internal server error", 500)).

(** The cells of a lookup entry, in the order of the export columns. *)
Definition entry_cells (r : gmap string json) : list (option json) :=
  List.map (fun key : string => r !! key)
    ["name"; "oracle_text"; "mana_cost"; "type_line"; "set_name"; "status"].

End ExportRoute.

(** ** The life of the worker, and the routes that look at it *)

Module Lifecycle.

(** The flag and the task of the worker, as [start], [stop] and the
    handlers change them. A call is over before the next one begins: calls
    of [stop] or of the handler [clear_cards] that overlap at the await of
    [stop] are not modelled. *)

(** A task made by [asyncio.create_task]. *)
Inductive task_state :=
| TaskRunning
| TaskExited
| TaskCancelled
| TaskFailed (e : exn).

(** [queue_worker] apart from its queue, and the tasks it has created so
    far; [worker_task] is the place of its task among them. *)
Record worker := {
  is_running : bool;
  worker_task : option nat;
  tasks : list task_state
}.

(** [QueueWorker.__init__] *)
Definition new_worker : worker :=
  {| is_running := false; worker_task := None; tasks := [] |}.

(** What [wait_for(self.worker_task, timeout=60.0)] does to a task that is
    still running: the loop leaves by itself, the grace period elapses, or
    the task ends in an exception. *)
Inductive join_outcome :=
| LoopExited
| GraceElapsed
| LoopFailed (e : exn).

(** [QueueWorker.start] *)
Definition start (wk : worker) : worker :=
  if is_running wk then wk
  else {| is_running := true;
          worker_task := Some (length (tasks wk));
          tasks := tasks wk ++ [TaskRunning] |}.

(** The end of the awaited task: on a timeout [wait_for] cancels it and
    the handler calls [cancel] on it. *)
Definition ended (j : join_outcome) : task_state :=
  match j with
  | LoopExited => TaskExited
  | GraceElapsed => TaskCancelled
  | LoopFailed e => TaskFailed e
  end.

(** The task of the worker is still running. *)
Definition alive (wk : worker) : bool :=
  match worker_task wk with
  | Some i =>
      match tasks wk !! i with
      | Some TaskRunning => true
      | _ => false
      end
  | None => false
  end.

(** The task of the worker ends in [st], if it is still running; a task
    that is over stays as it is. *)
Definition end_task (st : task_state) (wk : worker) : list task_state :=
  match worker_task wk with
  | Some i =>
      match tasks wk !! i with
      | Some TaskRunning => <[i := st]> (tasks wk)
      | _ => tasks wk
      end
  | None => tasks wk
  end.

(** [QueueWorker.stop]: the exception of the awaited task is logged. *)
Definition stop (j : join_outcome) (wk : worker) : worker :=
  if is_running wk
  then {| is_running := false;
          worker_task := worker_task wk;
          tasks := end_task (ended j) wk |}
  else wk.

(** [process_queue] leaves in an exception of the opening or closing of its
    session: the task is over, the worker is not told. *)
Definition loop_ends (e : exn) (wk : worker) : worker :=
  {| is_running := is_running wk;
     worker_task := worker_task wk;
     tasks := end_task (TaskFailed e) wk |}.

(** The application: the world and the worker. *)
Definition app : Type := world * worker.

(** The handler [clear_cards]. While [stop] awaits a loop that is still
    running, that loop goes on: [during] is what it does to the world until
    it is over. *)
Definition clear_cards (j : join_outcome) (during : world -> world) (a : app)
  : (json * Z) * app :=
  let w := fst a in
  let wk := snd a in
  let w1 := {| upstream_calls := upstream_calls w;
               enqueue_waits := enqueue_waits w;
               trace := trace w;
               card_cache := ∅;
               queue := queue w |} in
  let w2 := if is_running wk && alive wk then during w1 else w1 in
  ((JObj (list_to_map [("success", JBool true);
                       ("message", JStr "All cards cleared")]), 200),
   (w2, start (stop j wk))).

(** The handler [status]. *)
Definition status (a : app) : json * Z :=
  (JObj (list_to_map
           [("queue_size", JNum (Z.of_nat (length (items (queue (fst a))))));
            ("cache_size", JNum (Z.of_nat (size (card_cache (fst a)))));
            ("is_fetching", JBool (is_running (snd a)))]), 200).

(** What happens to the worker. *)
Inductive call :=
| CallStart
| CallStop (j : join_outcome)
| CallClear (j : join_outcome)
| LoopEnds (e : exn).

Definition apply_call (wk : worker) (c : call) : worker :=
  match c with
  | CallStart => start wk
  | CallStop j => stop j wk
  | CallClear j => start (stop j wk)
  | LoopEnds e => loop_ends e wk
  end.

Definition after_calls (calls : list call) : worker :=
  fold_left apply_call calls new_worker.

(** The tasks that are running. *)
Definition running (ts : list task_state) : nat :=
  length (List.filter (fun t => match t with TaskRunning => true | _ => false end)
                      ts).

(** The worker is consistent: the only task that can be running is its own,
    and only while the worker is running. *)
Definition consistent (wk : worker) : Prop :=
  running (tasks wk) = (if alive wk then 1%nat else 0%nat)
  /\ (alive wk = true -> is_running wk = true).

End Lifecycle.

(** * Properties *)

Module RateLimiterFacts.
Import RateLimiter.

Lemma Qltb_lt (x y : Q) : Qltb x y = true <-> (x < y)%Q.
Proof.
  unfold Qltb. rewrite negb_true_iff.
  destruct (Qle_bool y x) eqn:E.
  - apply Qle_bool_iff in E. split; [discriminate | intros; lra].
  - split; [intros _ | reflexivity].
    destruct (Qlt_le_dec x y) as [Hlt | Hle]; [exact Hlt |].
    apply Qle_bool_iff in Hle. congruence.
Qed.

Lemma Qltb_ge (x y : Q) : Qltb x y = false <-> (y <= x)%Q.
Proof.
  unfold Qltb. rewrite negb_false_iff. apply Qle_bool_iff.
Qed.

Lemma in_period_iff p now t :
  in_period p now t = true <-> (now - t < inject_Z p)%Q.
Proof. apply Qltb_lt. Qed.

Lemma is_allowed_limit now rl : limit (snd (is_allowed now rl)) = limit rl.
Proof. unfold is_allowed. destruct (_ <? _); reflexivity. Qed.

Lemma is_allowed_period now rl : period (snd (is_allowed now rl)) = period rl.
Proof. unfold is_allowed. destruct (_ <? _); reflexivity. Qed.

Lemma filter_all_kept {A} (f : A -> bool) (l : list A) :
  Forall (fun x => f x = true) l -> List.filter f l = l.
Proof.
  induction 1 as [| x l Hx _ IH]; simpl; [reflexivity |].
  rewrite Hx, IH. reflexivity.
Qed.

Lemma filter_none_kept {A} (f : A -> bool) (l : list A) :
  Forall (fun x => f x = false) l -> List.filter f l = [].
Proof.
  induction 1 as [| x l Hx _ IH]; simpl; [reflexivity |].
  rewrite Hx, IH. reflexivity.
Qed.

Lemma filter_length_le {A} (f : A -> bool) (l : list A) :
  (length (List.filter f l) <= length l)%nat.
Proof.
  induction l as [| x l IH]; simpl; [lia |].
  destruct (f x); simpl; lia.
Qed.

(** A filter that drops nothing in length drops nothing at all. *)
Lemma filter_full_length {A} (f : A -> bool) (l : list A) :
  (length l <= length (List.filter f l))%nat -> List.filter f l = l.
Proof.
  induction l as [| x l IH]; simpl; [reflexivity |].
  pose proof (filter_length_le f l) as Hle.
  destruct (f x); simpl; intros H.
  - f_equal. apply IH. lia.
  - lia.
Qed.

(** The window never outgrows the limit. *)
Lemma is_allowed_bounded now rl :
  Z.of_nat (length (requests rl)) <= limit rl ->
  Z.of_nat (length (requests (snd (is_allowed now rl)))) <= limit rl.
Proof.
  intros H. unfold is_allowed.
  pose proof (filter_length_le (in_period (period rl) now) (requests rl)).
  destruct (_ <? _) eqn:E; simpl.
  - apply Z.ltb_lt in E. rewrite length_app. simpl. lia.
  - lia.
Qed.

Lemma run_limit rl clock : limit (snd (run rl clock)) = limit rl.
Proof.
  revert rl. induction clock as [| now rest IH]; intros rl; simpl.
  - reflexivity.
  - destruct (is_allowed now rl) as [b rl1] eqn:E.
    specialize (IH rl1). destruct (run rl1 rest) as [bs rl2]. simpl in *.
    rewrite IH. change rl1 with (snd (b, rl1)). rewrite <- E.
    apply is_allowed_limit.
Qed.

Lemma run_period rl clock : period (snd (run rl clock)) = period rl.
Proof.
  revert rl. induction clock as [| now rest IH]; intros rl; simpl.
  - reflexivity.
  - destruct (is_allowed now rl) as [b rl1] eqn:E.
    specialize (IH rl1). destruct (run rl1 rest) as [bs rl2]. simpl in *.
    rewrite IH. change rl1 with (snd (b, rl1)). rewrite <- E.
    apply is_allowed_period.
Qed.

Lemma run_bounded rl clock :
  Z.of_nat (length (requests rl)) <= limit rl ->
  Z.of_nat (length (requests (snd (run rl clock)))) <= limit rl.
Proof.
  revert rl. induction clock as [| now rest IH]; intros rl H; simpl.
  - exact H.
  - pose proof (is_allowed_bounded now rl H) as Hb.
    pose proof (is_allowed_limit now rl) as Hl.
    destruct (is_allowed now rl) as [b rl1]. simpl in *.
    specialize (IH rl1). destruct (run rl1 rest) as [bs rl2]. simpl in *.
    rewrite <- Hl. apply IH. rewrite Hl. exact Hb.
Qed.

(** Every timestamp of the window after a call is younger than the
    period at that call. *)
Lemma is_allowed_recent now rl :
  0 < period rl ->
  Forall (fun t => (now - t < inject_Z (period rl))%Q)
         (requests (snd (is_allowed now rl))).
Proof.
  intros Hp.
  assert (Hkept : Forall (fun t => (now - t < inject_Z (period rl))%Q)
                    (List.filter (in_period (period rl) now) (requests rl))).
  { apply List.Forall_forall. intros t Ht.
    apply List.filter_In in Ht. apply in_period_iff. apply Ht. }
  unfold is_allowed. destruct (_ <? _); simpl; [| exact Hkept].
  apply List.Forall_app. split; [exact Hkept |].
  constructor; [| constructor].
  assert (0 < inject_Z (period rl))%Q.
  { unfold Qlt, inject_Z. simpl. lia. }
  lra.
Qed.

(** A rejected call on a window within its limit changes nothing. *)
Lemma is_allowed_rejected now rl :
  Z.of_nat (length (requests rl)) <= limit rl ->
  fst (is_allowed now rl) = false ->
  snd (is_allowed now rl) = rl.
Proof.
  intros Hb. unfold is_allowed.
  destruct (_ <? _) eqn:E; simpl; [discriminate |]. intros _.
  apply Z.ltb_ge in E.
  rewrite filter_full_length by lia. destruct rl; reflexivity.
Qed.

(** Calls inside the window opened at [t0], on a limiter that holds only
    admissions made since [t0]: the call number [j] is admitted exactly
    when [j] is below the limit. *)
Lemma run_inside_window l p t0 clock : forall w (j : nat),
  Forall (fun t => (t0 <= t)%Q) w ->
  Forall (fun t => (t0 <= t)%Q /\ (t - t0 < inject_Z p)%Q) clock ->
  (Z.of_nat j < l -> length w = j) ->
  (l <= Z.of_nat j -> l <= Z.of_nat (length w)) ->
  fst (run {| limit := l; period := p; requests := w |} clock)
  = List.map (fun i => Z.of_nat i <? l) (seq j (length clock)).
Proof.
  induction clock as [| now rest IH]; intros w j Hw Hc Hlt Hge; simpl.
  - reflexivity.
  - inversion Hc as [| ? ? [Hnow0 Hnow1] Hrest]; subst.
    unfold is_allowed. simpl.
    rewrite (filter_all_kept (in_period p now) w).
    2:{ eapply List.Forall_impl; [| exact Hw]. simpl. intros t Ht.
        apply in_period_iff. lra. }
    destruct (Z.of_nat (length w) <? l) eqn:E.
    + apply Z.ltb_lt in E.
      assert (Hj : Z.of_nat j < l) by lia.
      specialize (IH (w ++ [now])%list (S j)).
      destruct (run _ rest) as [bs rl2]. simpl in *.
      f_equal.
      * symmetry. apply Z.ltb_lt. exact Hj.
      * apply IH; [| exact Hrest | |].
        -- apply List.Forall_app. split; [exact Hw |]. constructor; [exact Hnow0 | constructor].
        -- intros _. rewrite length_app. simpl. rewrite (Hlt Hj). lia.
        -- intros Hl'. rewrite length_app. simpl. rewrite (Hlt Hj). lia.
    + apply Z.ltb_ge in E.
      assert (Hj : l <= Z.of_nat j).
      { destruct (Z_lt_le_dec (Z.of_nat j) l) as [Hl' | Hl']; [| exact Hl'].
        rewrite (Hlt Hl') in E. lia. }
      specialize (IH w (S j)).
      destruct (run _ rest) as [bs rl2]. simpl in *.
      f_equal.
      * symmetry. apply Z.ltb_ge. exact Hj.
      * apply IH; [exact Hw | exact Hrest | lia | lia].
Qed.

Lemma monotone_tail t0 clock : monotone (t0 :: clock) -> monotone clock.
Proof. simpl. tauto. Qed.

(** Once the clock has passed the end of a window, no later call falls
    into it. *)
Lemma answers_after_window p a : forall clock lo answers,
  (a + inject_Z p <= lo)%Q ->
  monotone (lo :: clock) ->
  answers_in_window p a (lo :: clock) answers = [].
Proof.
  induction clock as [| t1 clock IH]; intros lo answers Hlo Hm.
  - simpl. destruct answers as [| b answers]; [reflexivity |].
    replace (Qltb lo (a + inject_Z p)) with false
      by (symmetry; apply Qltb_ge; exact Hlo).
    rewrite andb_false_r. reflexivity.
  - destruct answers as [| b answers]; [reflexivity |].
    cbn [answers_in_window].
    replace (Qltb lo (a + inject_Z p)) with false
      by (symmetry; apply Qltb_ge; exact Hlo).
    rewrite andb_false_r.
    destruct Hm as [Hle Hm]. apply IH; [lra | exact Hm].
Qed.

Lemma recorded_from_le a w : recorded_from a w <= Z.of_nat (length w).
Proof.
  unfold recorded_from. pose proof (filter_length_le (Qle_bool a) w). lia.
Qed.

Lemma recorded_from_app a w1 w2 :
  recorded_from a (w1 ++ w2) = recorded_from a w1 + recorded_from a w2.
Proof.
  unfold recorded_from. rewrite List.filter_app, length_app. lia.
Qed.

(** Pruning at a reading before the end of the window drops only
    admissions made before the window. *)
Lemma recorded_from_pruned p a now w :
  0 < p -> (now < a + inject_Z p)%Q ->
  recorded_from a (List.filter (in_period p now) w) = recorded_from a w.
Proof.
  intros Hp Hnow. unfold recorded_from.
  induction w as [| t w IH]; simpl; [reflexivity |].
  destruct (in_period p now t) eqn:Ein; simpl.
  - destruct (Qle_bool a t); simpl; lia.
  - apply Qltb_ge in Ein.
    destruct (Qle_bool a t) eqn:Ea; [| exact IH].
    apply Qle_bool_iff in Ea. lra.
Qed.

(** The budget of a window: the admissions already recorded in it and
    those still to come never exceed the limit. *)
Lemma window_budget l p a : 0 < p -> forall clock w,
  monotone clock ->
  Z.of_nat (length w) <= l ->
  recorded_from a w
  + admissions (answers_in_window p a clock
                  (fst (run {| limit := l; period := p; requests := w |}
                          clock)))
  <= l.
Proof.
  intros Hp. induction clock as [| now rest IH]; intros w Hm Hlen.
  - simpl. pose proof (recorded_from_le a w). unfold admissions. simpl. lia.
  - destruct (Qlt_le_dec now (a + inject_Z p)) as [Hin | Hout].
    + pose proof (recorded_from_pruned p a now w Hp Hin) as Hkept.
      pose proof (is_allowed_bounded now
                    {| limit := l; period := p; requests := w |} Hlen) as Hb.
      simpl. unfold is_allowed in *. simpl in *.
      replace (Qltb now (a + inject_Z p)) with true
        by (symmetry; apply Qltb_lt; exact Hin).
      rewrite andb_true_r.
      destruct (Z.of_nat (length (List.filter (in_period p now) w)) <? l);
        simpl in Hb.
      * specialize (IH (List.filter (in_period p now) w ++ [now])%list
                      (monotone_tail _ _ Hm) Hb).
        rewrite recorded_from_app, Hkept in IH.
        destruct (run _ rest) as [bs rl2]. simpl in *.
        unfold recorded_from at 2 in IH. simpl in IH.
        destruct (Qle_bool a now); simpl in *.
        -- unfold admissions in *. simpl. lia.
        -- lia.
      * specialize (IH (List.filter (in_period p now) w)
                      (monotone_tail _ _ Hm) Hb).
        rewrite Hkept in IH.
        destruct (run _ rest) as [bs rl2]. simpl in *.
        destruct (Qle_bool a now); simpl in *.
        -- unfold admissions in *. simpl. lia.
        -- lia.
    + rewrite answers_after_window by assumption.
      pose proof (recorded_from_le a w). unfold admissions. simpl. lia.
Qed.

(** A window of no length holds no call. *)
Lemma answers_in_empty_window p a : p <= 0 -> forall clock answers,
  answers_in_window p a clock answers = [].
Proof.
  intros Hp.
  assert (Hq : (inject_Z p <= 0)%Q) by (unfold Qle, inject_Z; simpl; lia).
  induction clock as [| t0 clock IH]; intros answers; [reflexivity |].
  destruct answers as [| b answers]; [reflexivity |].
  cbn [answers_in_window].
  destruct (Qle_bool a t0) eqn:Ea; simpl; [| apply IH].
  apply Qle_bool_iff in Ea.
  replace (Qltb t0 (a + inject_Z p)) with false
    by (symmetry; apply Qltb_ge; lra).
  apply IH.
Qed.

(** C3, as the specification words it, fails: with [limit = 1] and
    [period = 10], calls at the clock readings 0, 5 and 10 are answered
    true, false, true, so that of the two calls inside the window from 5
    to 15 the first is rejected and the second admitted. *)
Lemma first_calls_of_every_window_fails :
  ~ first_calls_of_every_window 1 10 [0; 5; 10]%Q.
Proof.
  intros H. specialize (H 5%Q). vm_compute in H. discriminate H.
Qed.

(** C3 (amended): [is_allowed] keeps the timestamps [t] of the window with
    [now - t < period] (it discards those [period] seconds old or older),
    then answers true and records [now] when fewer than [limit] are kept,
    and answers false otherwise. So in a window of [period] seconds that
    opens with a call at [t0] at which no unexpired admission is left,
    exactly the first [limit] calls are admitted and every later one is
    rejected; in any window of [period] seconds, on a clock that does not
    go backwards, at most [limit] calls are admitted; and a call made
    [period] seconds or more after the oldest recorded admission is
    admitted. *)
Theorem sliding_window_admission (l p : Z) (w : list Q) (t0 : Q)
    (clock : list Q) :
  Forall (fun t => (inject_Z p <= t0 - t)%Q) w ->
  Forall (fun t => (t0 <= t)%Q /\ (t - t0 < inject_Z p)%Q) clock ->
  (forall now rl,
      let kept := List.filter (in_period (period rl) now) (requests rl) in
      (forall t, In t kept <->
                 In t (requests rl) /\ (now - t < inject_Z (period rl))%Q)
      /\ is_allowed now rl
         = if Z.of_nat (length kept) <? limit rl
           then (true, {| limit := limit rl; period := period rl;
                          requests := kept ++ [now] |})
           else (false, {| limit := limit rl; period := period rl;
                           requests := kept |}))
  /\ fst (run {| limit := l; period := p; requests := w |} (t0 :: clock))
     = first_admitted l (S (length clock))
  /\ (forall readings a,
        0 <= l ->
        monotone readings ->
        admissions (answers_in_window p a readings
                      (fst (run (init l p) readings))) <= l)
  /\ (forall rl now oldest rest,
        requests rl = oldest :: rest ->
        Z.of_nat (length (requests rl)) <= limit rl ->
        (inject_Z (period rl) <= now - oldest)%Q ->
        fst (is_allowed now rl) = true).
Proof.
  intros Hexpired Hclock. split; [| split; [| split]].
  - intros now rl kept. split; [| reflexivity].
    intros t. unfold kept. rewrite List.filter_In, in_period_iff. reflexivity.
  - unfold first_admitted. simpl. unfold is_allowed. simpl.
    rewrite (filter_none_kept (in_period p t0) w).
    2:{ eapply List.Forall_impl; [| exact Hexpired]. simpl. intros t Ht.
        apply Qltb_ge. exact Ht. }
    simpl. change (Z.of_nat 0) with 0. destruct (0 <? l) eqn:E.
    + apply Z.ltb_lt in E.
      pose proof (run_inside_window l p t0 clock [t0] 1) as H.
      destruct (run _ clock) as [bs rl2]. simpl in *. f_equal.
      apply H; [| exact Hclock | reflexivity | simpl; lia].
      constructor; [lra | constructor].
    + apply Z.ltb_ge in E.
      pose proof (run_inside_window l p t0 clock [] 1) as H.
      destruct (run _ clock) as [bs rl2]. simpl in *. f_equal.
      apply H; [constructor | exact Hclock | lia | simpl; lia].
  - intros readings a Hl Hm.
    destruct (Z_lt_le_dec 0 p) as [Hp | Hp].
    + pose proof (window_budget l p a Hp readings [] Hm) as H.
      unfold recorded_from in H. simpl in H.
      unfold init. lia.
    + rewrite answers_in_empty_window by exact Hp.
      unfold admissions. simpl. lia.
  - intros rl now oldest rest Hreq Hlen Hold.
    unfold is_allowed. rewrite Hreq in *. simpl in *.
    assert (Hdrop : in_period (period rl) now oldest = false)
      by (apply Qltb_ge; exact Hold).
    rewrite Hdrop.
    pose proof (filter_length_le (in_period (period rl) now) rest).
    destruct (_ <? _) eqn:E; [reflexivity |].
    apply Z.ltb_ge in E. lia.
Qed.

(** Scenario 1 of the specification, and a fifth call sixty seconds after
    the first. *)
Lemma sliding_window_admission_witness :
  fst (run (init 3 60) [0; 0; 0; 0]%Q) = [true; true; true; false]
  /\ admissions (answers_in_window 60 30 [0; 20; 40; 60; 80]%Q
                   (fst (run (init 3 60) [0; 20; 40; 60; 80]%Q))) <= 3
  /\ fst (is_allowed 60 {| limit := 3; period := 60;
                           requests := [0; 0; 0]%Q |}) = true.
Proof.
  assert (H1 : Forall (fun t => (inject_Z 60 <= 0 - t)%Q) []) by constructor.
  assert (H2 : Forall (fun t => (0 <= t)%Q /\ (t - 0 < inject_Z 60)%Q)
                 [0; 0; 0]%Q).
  { repeat constructor; vm_compute; congruence. }
  destruct (sliding_window_admission 3 60 [] 0 [0; 0; 0]%Q H1 H2)
    as [_ [Hburst [Hany Hfree]]].
  split; [| split].
  - exact Hburst.
  - apply Hany; [lia |]. simpl. repeat split; vm_compute; congruence.
  - apply (Hfree _ 60%Q 0%Q [0; 0]%Q).
    + reflexivity.
    + simpl. lia.
    + vm_compute. congruence.
Defined.

(** C10: after every call of [is_allowed] on a limiter built by
    [RateLimiter(l, p)] and used by any calls before, the window holds at
    most [l] timestamps, each less than [p] seconds before the clock
    reading of the call; a call answered false leaves the pruned window
    without appending to it, and the limiter answers every later call as
    if the rejected call had not been made. *)
Theorem window_invariant (l p : Z) (clock : list Q) (now : Q) :
  0 <= l -> 0 < p ->
  let rl := snd (run (init l p) clock) in
  let after := snd (is_allowed now rl) in
  Z.of_nat (length (requests after)) <= l
  /\ Forall (fun t => (now - t < inject_Z p)%Q) (requests after)
  /\ (fst (is_allowed now rl) = false ->
      requests after = List.filter (in_period p now) (requests rl)
      /\ forall later, run after later = run rl later).
Proof.
  intros Hl Hp rl after.
  assert (Hlim : limit rl = l) by apply run_limit.
  assert (Hper : period rl = p) by apply run_period.
  assert (Hb : Z.of_nat (length (requests rl)) <= limit rl).
  { rewrite Hlim. apply (run_bounded (init l p) clock). simpl. lia. }
  split; [| split].
  - rewrite <- Hlim. apply is_allowed_bounded. exact Hb.
  - rewrite <- Hper. apply is_allowed_recent. lia.
  - intros Hrej.
    pose proof (is_allowed_rejected now rl Hb Hrej) as Hsame.
    split.
    + unfold after. rewrite <- Hper. clear Hsame. revert Hrej.
      unfold is_allowed.
      destruct (_ <? _); simpl; [discriminate | reflexivity].
    + intros later. unfold after. rewrite Hsame. reflexivity.
Qed.

(** A limiter of one call per ten seconds, used at 0 and asked again
    at 5. *)
Lemma window_invariant_witness :
  fst (is_allowed 5 (snd (run (init 1 10) [0%Q]))) = false
  /\ requests (snd (is_allowed 5 (snd (run (init 1 10) [0%Q])))) = [0%Q]
  /\ Z.of_nat
       (length (requests (snd (is_allowed 5 (snd (run (init 1 10) [0%Q]))))))
     <= 1.
Proof.
  assert (H0 : 0 <= 1) by lia.
  assert (H1 : 0 < 10) by lia.
  destruct (window_invariant 1 10 [0%Q] 5%Q H0 H1) as [Hlen [_ Hrej]].
  assert (Hf : fst (is_allowed 5 (snd (run (init 1 10) [0%Q]))) = false)
    by reflexivity.
  split; [exact Hf |]. split; [| exact Hlen].
  destruct (Hrej Hf) as [Hreq _]. rewrite Hreq. reflexivity.
Defined.

End RateLimiterFacts.

Module CardManagerFacts.
Import CardManager.

Lemma advance_0 w : advance w 0 [] = w.
Proof.
  destruct w. unfold advance. simpl. f_equal; [lia | apply app_nil_r].
Qed.

Lemma advance_advance w a b e1 e2 :
  advance (advance w a e1) b e2 = advance w (a + b) (e1 ++ e2).
Proof.
  unfold advance. simpl. f_equal; [lia | symmetry; apply app_assoc].
Qed.

(** Unfolding of the monad on one attempt. *)
Ltac run_attempt :=
  cbv [attempt_once try_except attempt_body bind ret raise sleep emit
       session_get raise_for_status response_json data_get
       attempt_handler fst snd]; simpl.

Lemma world_eq w calls evs u t :
  u = (upstream_calls w + calls)%nat -> t = (trace w ++ evs)%list ->
  {| upstream_calls := u; enqueue_waits := enqueue_waits w; trace := t;
     card_cache := card_cache w; queue := queue w |} = advance w calls evs.
Proof. intros -> ->. reflexivity. Qed.

Ltac close_world :=
  apply world_eq; [lia | repeat rewrite <- app_assoc; reflexivity].

(** An attempt that fails transiently: the last one gives up, an earlier
    one backs off and lets the loop go on. *)
Lemma attempt_once_transient cfg ev card_name attempt w :
  transient (upstream ev (upstream_calls w) card_name) = true ->
  attempt_once cfg ev card_name attempt w
  = if Z.of_nat attempt =? Config.MAX_RETRIES cfg - 1
    then (Ok (Some (not_found card_name)),
          advance w 1 [EvSleep (Config.RATE_LIMIT_DELAY cfg);
                       EvGet card_name])
    else (Ok None,
          advance w 1 [EvSleep (Config.RATE_LIMIT_DELAY cfg);
                       EvGet card_name;
                       EvSleep (inject_Z (2 ^ Z.of_nat attempt))]).
Proof.
  intros H. run_attempt.
  destruct (upstream ev (upstream_calls w) card_name) as [e | status body];
    simpl in *.
  - destruct e; simpl in H; try discriminate H;
      try (apply negb_true_iff in H; rewrite H);
      destruct (Z.of_nat attempt =? _); simpl; f_equal; close_world.
  - destruct (status =? 404) eqn:E404; [discriminate H |].
    destruct (400 <=? status) eqn:E400; simpl.
    + rewrite E404. destruct (Z.of_nat attempt =? _); simpl; f_equal; close_world.
    + destruct body as [e | v]; [| discriminate H]. simpl.
      destruct e; simpl in H; try discriminate H;
        try (apply negb_true_iff in H; rewrite H);
        destruct (Z.of_nat attempt =? _); simpl; f_equal; close_world.
Qed.

(** An attempt answered with the not-found status returns at once. *)
Lemma attempt_once_not_found cfg ev card_name attempt w :
  is_not_found (upstream ev (upstream_calls w) card_name) = true ->
  attempt_once cfg ev card_name attempt w
  = (Ok (Some (not_found card_name)),
     advance w 1 [EvSleep (Config.RATE_LIMIT_DELAY cfg); EvGet card_name]).
Proof.
  intros H. run_attempt.
  destruct (upstream ev (upstream_calls w) card_name) as [e | status body];
    simpl in *.
  - destruct e; try discriminate H. rewrite H. f_equal. close_world.
  - rewrite H. simpl. f_equal. close_world.
Qed.

(** A successful attempt returns the record of the answer. *)
Lemma attempt_once_success cfg ev card_name attempt w m :
  success_body (upstream ev (upstream_calls w) card_name) = Some m ->
  attempt_once cfg ev card_name attempt w
  = (Ok (Some (found_card m)),
     advance w 1 [EvSleep (Config.RATE_LIMIT_DELAY cfg); EvGet card_name]).
Proof.
  intros H. run_attempt.
  destruct (upstream ev (upstream_calls w) card_name) as [e | status body];
    simpl in *; [discriminate H |].
  destruct body as [e | v]; [discriminate H |].
  destruct v; try discriminate H.
  destruct (400 <=? status) eqn:E400; [discriminate H |].
  injection H as <-.
  destruct (status =? 404) eqn:E404; [lia |].
  simpl. f_equal. close_world.
Qed.

(** Whatever the upstream service answers, an attempt raises nothing: it
    lets the loop go on, returns the not-found record, or returns the
    record of a successful answer. *)
Lemma attempt_once_shape cfg ev card_name attempt w :
  exists r evs,
    attempt_once cfg ev card_name attempt w = (Ok r, advance w 1 evs)
    /\ forallb attempt_event evs = true
    /\ (r = None \/ r = Some (not_found card_name)
        \/ exists m,
             success_body (upstream ev (upstream_calls w) card_name) = Some m
             /\ r = Some (found_card m)).
Proof.
  destruct (success_body (upstream ev (upstream_calls w) card_name))
    as [m |] eqn:Hs.
  { eexists _, _. split; [apply attempt_once_success; exact Hs |].
    split; [reflexivity |].
    right. right. exists m. split; reflexivity. }
  run_attempt.
  destruct (upstream ev (upstream_calls w) card_name) as [e | status body];
    simpl in *.
  - destruct e; simpl;
      repeat match goal with
             | |- context [if ?b then _ else _] => destruct b; simpl
             end;
      eexists _, _; (split; [f_equal; close_world | split; [reflexivity | tauto]]).
  - destruct (status =? 404) eqn:E404; simpl.
    { eexists _, _. split; [f_equal; close_world | split; [reflexivity | tauto]]. }
    destruct (400 <=? status) eqn:E400; simpl.
    { rewrite E404. destruct (Z.of_nat attempt =? _); simpl;
        eexists _, _; (split; [f_equal; close_world | split; [reflexivity | tauto]]). }
    destruct body as [e | v]; simpl.
    + destruct e; simpl;
        repeat match goal with
               | |- context [if ?b then _ else _] => destruct b; simpl
               end;
        eexists _, _; (split; [f_equal; close_world | split; [reflexivity | tauto]]).
    + destruct v; try discriminate Hs; simpl;
        eexists _, _; (split; [f_equal; close_world | split; [reflexivity | tauto]]).
Qed.

(** The loop raises nothing and returns the not-found record or the
    record of a successful answer to one of its requests. *)
Lemma attempts_loop_shape cfg ev card_name : forall attempts w,
  exists c calls evs,
    attempts_loop cfg ev card_name attempts w = (Ok c, advance w calls evs)
    /\ (calls <= length attempts)%nat
    /\ forallb attempt_event evs = true
    /\ (c = not_found card_name
        \/ exists i m,
             (i < calls)%nat
             /\ success_body (upstream ev (upstream_calls w + i) card_name)
                = Some m
             /\ c = found_card m).
Proof.
  induction attempts as [| attempt rest IH]; intros w; simpl.
  - exists (not_found card_name), 0%nat, [].
    unfold ret. rewrite advance_0. split; [reflexivity |].
    split; [lia |]. split; [reflexivity | left; reflexivity].
  - unfold bind.
    destruct (attempt_once_shape cfg ev card_name attempt w)
      as (r & evs & Hrun & Hev & Hr).
    rewrite Hrun.
    destruct Hr as [-> | [-> | (m & Hm & ->)]].
    + destruct (IH (advance w 1 evs))
        as (c & calls & evs' & Hloop & Hle & Hev' & Hc).
      rewrite Hloop, advance_advance.
      exists c, (1 + calls)%nat, (evs ++ evs')%list.
      split; [reflexivity |]. split; [simpl; lia |].
      split; [rewrite forallb_app, Hev, Hev'; reflexivity |].
      destruct Hc as [-> | (i & m & Hi & Hm & ->)]; [left; reflexivity |].
      right. exists (1 + i)%nat, m. split; [lia |]. split; [| reflexivity].
      simpl in Hm. rewrite <- Hm. f_equal. f_equal. lia.
    + exists (not_found card_name), 1%nat, evs.
      split; [reflexivity |]. split; [simpl; lia |].
      split; [exact Hev | left; reflexivity].
    + exists (found_card m), 1%nat, evs.
      split; [reflexivity |]. split; [simpl; lia |].
      split; [exact Hev |].
      right. exists 0%nat, m. split; [lia |]. split; [| reflexivity].
      rewrite <- Hm. f_equal. f_equal. lia.
Qed.

(** With a usable session the fetch is its loop between the taking and
    the giving back of the permit. *)
Lemma fetch_card_info_open cfg ev cm card_name w c w1 :
  session_unusable cm = false ->
  attempts_loop cfg ev card_name
    (seq 0 (Z.to_nat (Config.MAX_RETRIES cfg))) (advance w 0 [EvAcquire])
  = (Ok c, w1) ->
  fetch_card_info cfg ev cm card_name w = (Ok c, advance w1 0 [EvRelease]).
Proof.
  intros Hs Hloop. unfold fetch_card_info. rewrite Hs.
  unfold bind, emit, try_finally.
  replace {| upstream_calls := upstream_calls w;
             enqueue_waits := enqueue_waits w;
             trace := trace w ++ [EvAcquire];
             card_cache := card_cache w;
             queue := queue w |}
    with (advance w 0 [EvAcquire]) by (symmetry; close_world).
  rewrite Hloop. f_equal. close_world.
Qed.

(** Without a usable session the fetch raises before doing anything. *)
Lemma fetch_card_info_unusable cfg ev cm card_name w :
  session_unusable cm = true ->
  fetch_card_info cfg ev cm card_name w
  = (Raise (RuntimeError
              "CardManager session is not initialized or has been closed"),
     w).
Proof. intros Hs. unfold fetch_card_info. rewrite Hs. reflexivity. Qed.

(** Attempts that fail transiently and are not the last allowed one are
    each followed by their backoff, and the loop goes on after them. *)
Lemma attempts_loop_retries cfg ev card_name rest : forall n first w,
  (forall i, (i < n)%nat ->
             transient (upstream ev (upstream_calls w + i) card_name) = true) ->
  (first + n < Z.to_nat (Config.MAX_RETRIES cfg))%nat ->
  attempts_loop cfg ev card_name (seq first n ++ rest) w
  = attempts_loop cfg ev card_name rest
      (advance w n
         (retries_from (Config.RATE_LIMIT_DELAY cfg) card_name first n)).
Proof.
  induction n as [| n IH]; intros first w Htr Hlt.
  - simpl. unfold retries_from. simpl. rewrite advance_0. reflexivity.
  - simpl. unfold bind.
    rewrite attempt_once_transient.
    2:{ specialize (Htr 0%nat). rewrite Nat.add_0_r in Htr. apply Htr. lia. }
    destruct (Z.of_nat first =? Config.MAX_RETRIES cfg - 1) eqn:E.
    { apply Z.eqb_eq in E. lia. }
    rewrite IH.
    + rewrite advance_advance. reflexivity.
    + intros i Hi. simpl.
      replace (upstream_calls w + 1 + i)%nat
        with (upstream_calls w + S i)%nat by lia.
      apply Htr. lia.
    + lia.
Qed.

Lemma attempt_events_fetch evs :
  forallb attempt_event evs = true -> forallb fetch_event evs = true.
Proof.
  induction evs as [| e evs IH]; simpl; [reflexivity |].
  intros H. apply andb_true_iff in H. destruct H as [He Hevs].
  rewrite (IH Hevs). destruct e; try discriminate He; reflexivity.
Qed.

(** A fetch touches neither the cache nor the queue; it only makes
    upstream calls and events of its own. *)
Lemma fetch_card_info_frame cfg ev cm card_name w :
  exists r calls evs,
    fetch_card_info cfg ev cm card_name w = (r, advance w calls evs)
    /\ forallb fetch_event evs = true
    /\ (session_unusable cm = false -> exists c, r = Ok c).
Proof.
  destruct (session_unusable cm) eqn:Hs.
  - eexists _, 0%nat, []. rewrite advance_0.
    split; [apply fetch_card_info_unusable; exact Hs |].
    split; [reflexivity | discriminate].
  - destruct (attempts_loop_shape cfg ev card_name
                (seq 0 (Z.to_nat (Config.MAX_RETRIES cfg)))
                (advance w 0 [EvAcquire]))
      as (c & calls & evs & Hloop & _ & Hev & _).
    eexists (Ok c), _, _. split.
    + erewrite fetch_card_info_open; [| exact Hs | exact Hloop].
      rewrite !advance_advance. reflexivity.
    + split; [| intros _; exists c; reflexivity].
      simpl. rewrite forallb_app, (attempt_events_fetch _ Hev). reflexivity.
Qed.

(** With an open session, the requests of a fetch are all made between
    the taking and the giving back of its permit. *)
Lemma fetch_card_info_bracketed cfg ev cm card_name w :
  session_unusable cm = false ->
  exists c calls body,
    fetch_card_info cfg ev cm card_name w
    = (Ok c, advance w calls (EvAcquire :: body ++ [EvRelease]))
    /\ forallb attempt_event body = true.
Proof.
  intros Hs.
  destruct (attempts_loop_shape cfg ev card_name
              (seq 0 (Z.to_nat (Config.MAX_RETRIES cfg)))
              (advance w 0 [EvAcquire]))
    as (c & calls & evs & Hloop & _ & Hev & _).
  exists c, (0 + calls + 0)%nat, evs. split; [| exact Hev].
  erewrite fetch_card_info_open; [| exact Hs | exact Hloop].
  rewrite !advance_advance. reflexivity.
Qed.

Lemma retries_from_requests d card_name : forall n first,
  requests_made (retries_from d card_name first n) = n.
Proof.
  unfold retries_from.
  induction n as [| n IH]; intros first; simpl; [reflexivity |].
  rewrite IH. reflexivity.
Qed.

Lemma requests_made_app e1 e2 :
  requests_made (e1 ++ e2) = (requests_made e1 + requests_made e2)%nat.
Proof.
  induction e1 as [| e e1 IH]; simpl; [reflexivity |].
  destruct e; simpl; rewrite IH; reflexivity.
Qed.

Lemma retries_from_backoffs d card_name tl : forall n first,
  backoffs (retries_from d card_name first n ++ EvSleep d :: tl)
  = (List.map (fun k => inject_Z (2 ^ Z.of_nat k)) (seq first n)
     ++ backoffs (EvSleep d :: tl))%list.
Proof.
  unfold retries_from.
  induction n as [| n IH]; intros first; [reflexivity |].
  cbn [seq flat_map List.map app].
  change (backoffs (EvSleep d :: EvGet card_name
            :: EvSleep (inject_Z (2 ^ Z.of_nat first))
            :: (flat_map (fun k => [EvSleep d; EvGet card_name;
                                    EvSleep (inject_Z (2 ^ Z.of_nat k))])
                  (seq (S first) n) ++ EvSleep d :: tl)%list))
    with (inject_Z (2 ^ Z.of_nat first)
          :: backoffs (flat_map (fun k => [EvSleep d; EvGet card_name;
                                    EvSleep (inject_Z (2 ^ Z.of_nat k))])
                  (seq (S first) n) ++ EvSleep d :: tl)%list).
  rewrite IH. reflexivity.
Qed.

(** C1, as the specification words it, fails: called on a manager whose
    session was never opened, [fetch_card_info] raises [RuntimeError]. *)
Lemma never_raises_fails : ~ never_raises.
Proof.
  intros H.
  destruct (H Config.default Scenario.failing Scenario.unopened "Black Lotus"
              Scenario.idle) as [c Hc].
  rewrite fetch_card_info_unusable in Hc by reflexivity.
  discriminate Hc.
Qed.

(** C1 (amended): on a manager without an open session
    [fetch_card_info] raises [RuntimeError] before any attempt; on a
    manager with an open session it raises nothing, whatever the upstream
    service answers: it returns a record, and that record is the
    not-found record of the submitted name unless one of its requests was
    answered successfully, in which case it is the record of that
    answer. *)
Theorem fetch_card_info_outcome cfg ev cm card_name w :
  if session_unusable cm
  then fetch_card_info cfg ev cm card_name w
       = (Raise (RuntimeError
                   "CardManager session is not initialized or has been closed"),
          w)
  else exists c w1,
      fetch_card_info cfg ev cm card_name w = (Ok c, w1)
      /\ (c = not_found card_name /\ found c = false
          \/ exists i m,
               (i < Z.to_nat (Config.MAX_RETRIES cfg))%nat
               /\ success_body
                    (upstream ev (upstream_calls w + i) card_name) = Some m
               /\ c = found_card m /\ found c = true).
Proof.
  destruct (session_unusable cm) eqn:Hs.
  - apply fetch_card_info_unusable. exact Hs.
  - destruct (attempts_loop_shape cfg ev card_name
                (seq 0 (Z.to_nat (Config.MAX_RETRIES cfg)))
                (advance w 0 [EvAcquire]))
      as (c & calls & evs & Hloop & Hle & _ & Hc).
    rewrite length_seq in Hle.
    exists c, (advance (advance (advance w 0 [EvAcquire]) calls evs) 0
                 [EvRelease]).
    split; [apply fetch_card_info_open; assumption |].
    destruct Hc as [-> | (i & m & Hi & Hm & ->)].
    + left. split; reflexivity.
    + right. exists i, m. split; [lia |]. split; [| split; reflexivity].
      simpl in Hm. rewrite Nat.add_0_r in Hm. exact Hm.
Qed.

(** C2: when the session is open and every one of the [MAX_RETRIES]
    attempts fails transiently, [fetch_card_info] makes exactly
    [MAX_RETRIES] requests, sleeps [2^attempt] seconds after each failed
    attempt but the last, and returns the not-found record of the
    submitted name. *)
Theorem transient_failures_exhaust_retries cfg ev cm card_name w :
  session_unusable cm = false ->
  (forall i, (i < Z.to_nat (Config.MAX_RETRIES cfg))%nat ->
             transient (upstream ev (upstream_calls w + i) card_name) = true) ->
  let n := Z.to_nat (Config.MAX_RETRIES cfg) in
  let evs := exhausted_trace (Config.RATE_LIMIT_DELAY cfg) card_name n in
  fetch_card_info cfg ev cm card_name w
  = (Ok (not_found card_name),
     advance w n ([EvAcquire] ++ evs ++ [EvRelease]))
  /\ requests_made evs = n
  /\ backoffs evs
     = List.map (fun k => inject_Z (2 ^ Z.of_nat k)) (seq 0 (n - 1)).
Proof.
  intros Hs Htr n evs. subst evs. unfold n. clear n.
  destruct (Z.to_nat (Config.MAX_RETRIES cfg)) as [| n] eqn:En.
  - split; [| split; reflexivity].
    erewrite fetch_card_info_open; [| exact Hs | rewrite En; reflexivity].
    unfold ret. rewrite advance_advance. reflexivity.
  - split; [| split].
    + erewrite fetch_card_info_open; [| exact Hs |].
      2:{ rewrite En, seq_S. simpl.
          rewrite attempts_loop_retries.
          2:{ intros i Hi. simpl. rewrite Nat.add_0_r. apply Htr. lia. }
          2:{ lia. }
          simpl. unfold bind.
          rewrite attempt_once_transient.
          2:{ simpl. rewrite Nat.add_0_r. apply Htr. lia. }
          replace (Z.of_nat n =? Config.MAX_RETRIES cfg - 1) with true
            by (symmetry; apply Z.eqb_eq; lia).
          reflexivity. }
      rewrite !advance_advance. unfold exhausted_trace.
      f_equal. f_equal; [lia |].
      simpl. rewrite <- !app_assoc. reflexivity.
    + unfold exhausted_trace. rewrite requests_made_app, retries_from_requests.
      simpl. lia.
    + unfold exhausted_trace. rewrite retries_from_backoffs.
      simpl. rewrite Nat.sub_0_r, app_nil_r. reflexivity.
Qed.

(** The default configuration against a service that always answers 500:
    three requests, backoffs of one and two seconds. *)
Lemma transient_failures_exhaust_retries_witness :
  fetch_card_info Config.default Scenario.failing Scenario.manager
    "Black Lotus" Scenario.idle
  = (Ok (not_found "Black Lotus"),
     advance Scenario.idle 3
       [EvAcquire;
        EvSleep (1 # 10); EvGet "Black Lotus"; EvSleep (inject_Z 1);
        EvSleep (1 # 10); EvGet "Black Lotus"; EvSleep (inject_Z 2);
        EvSleep (1 # 10); EvGet "Black Lotus";
        EvRelease]).
Proof.
  assert (Hs : session_unusable Scenario.manager = false) by reflexivity.
  assert (Htr : forall i,
             (i < Z.to_nat (Config.MAX_RETRIES Config.default))%nat ->
             transient (upstream Scenario.failing
                          (upstream_calls Scenario.idle + i) "Black Lotus")
             = true) by (intros i _; reflexivity).
  exact (proj1 (transient_failures_exhaust_retries Config.default
                  Scenario.failing Scenario.manager "Black Lotus"
                  Scenario.idle Hs Htr)).
Defined.

(** C5, as the specification words it, fails: when the first attempt
    times out and the second is answered 404, two upstream calls have
    been made when [fetch_card_info] returns, not one. *)
Lemma one_call_on_not_found_fails : ~ one_call_on_not_found Config.default.
Proof.
  intros H.
  destruct (H Scenario.timeout_then_404 Scenario.manager "Xyzzyxnonexistent"
              Scenario.idle 1%nat) as [_ Hcalls].
  - reflexivity.
  - simpl. lia.
  - intros i Hi. replace i with 0%nat by lia. reflexivity.
  - reflexivity.
  - vm_compute in Hcalls. discriminate Hcalls.
Qed.

(** C5 (amended): when the session is open, the attempts before attempt
    [k] fail transiently and attempt [k] is answered with the not-found
    status, [fetch_card_info] returns the not-found record of the
    submitted name at once: it makes no request and no sleep after the
    one that observed the status, so [k + 1] upstream calls in all, and
    exactly one when the first attempt observes it. *)
Theorem not_found_is_terminal cfg ev cm card_name w (k : nat) :
  session_unusable cm = false ->
  (k < Z.to_nat (Config.MAX_RETRIES cfg))%nat ->
  (forall i, (i < k)%nat ->
             transient (upstream ev (upstream_calls w + i) card_name) = true) ->
  is_not_found (upstream ev (upstream_calls w + k) card_name) = true ->
  let d := Config.RATE_LIMIT_DELAY cfg in
  fetch_card_info cfg ev cm card_name w
  = (Ok (not_found card_name),
     advance w (S k)
       ([EvAcquire] ++ retries_from d card_name 0 k
        ++ [EvSleep d; EvGet card_name; EvRelease]))
  /\ requests_made (retries_from d card_name 0 k
                    ++ [EvSleep d; EvGet card_name; EvRelease]) = S k.
Proof.
  intros Hs Hk Htr Hnf d. subst d. split.
  - erewrite fetch_card_info_open; [| exact Hs |].
    2:{ replace (Z.to_nat (Config.MAX_RETRIES cfg))
          with (k + S (Z.to_nat (Config.MAX_RETRIES cfg) - S k))%nat by lia.
        rewrite seq_app. simpl.
        rewrite attempts_loop_retries.
        2:{ intros i Hi. simpl. rewrite Nat.add_0_r. apply Htr. exact Hi. }
        2:{ lia. }
        simpl. unfold bind.
        rewrite attempt_once_not_found.
        2:{ simpl. rewrite Nat.add_0_r. exact Hnf. }
        reflexivity. }
    rewrite !advance_advance. f_equal. f_equal. lia.
  - rewrite requests_made_app, retries_from_requests. simpl. lia.
Qed.

(** Scenario 3 of the specification: the first answer is 404. *)
Lemma not_found_is_terminal_witness :
  fetch_card_info Config.default
    {| upstream := fun _ _ => GetResponse 404 (JsonValue JNull);
       put_wait := fun _ => WaitTimedOut |}
    Scenario.manager "Xyzzyxnonexistent" Scenario.idle
  = (Ok (not_found "Xyzzyxnonexistent"),
     advance Scenario.idle 1
       [EvAcquire; EvSleep (1 # 10); EvGet "Xyzzyxnonexistent"; EvRelease]).
Proof.
  refine (proj1 (not_found_is_terminal Config.default _ Scenario.manager
                   "Xyzzyxnonexistent" Scenario.idle 0 _ _ _ _)).
  - reflexivity.
  - simpl. lia.
  - intros i Hi. lia.
  - reflexivity.
Defined.

(** C8: every record [fetch_card_info] returns with [found = false] has
    the empty string in each of its descriptive fields. *)
Theorem not_found_record_is_blank cfg ev cm card_name w c :
  fst (fetch_card_info cfg ev cm card_name w) = Ok c ->
  found c = false ->
  oracle_text c = JStr "" /\ mana_cost c = JStr ""
  /\ type_line c = JStr "" /\ set_name c = JStr "".
Proof.
  intros Hret Hfound.
  destruct (session_unusable cm) eqn:Hs.
  - rewrite fetch_card_info_unusable in Hret by exact Hs. discriminate Hret.
  - destruct (attempts_loop_shape cfg ev card_name
                (seq 0 (Z.to_nat (Config.MAX_RETRIES cfg)))
                (advance w 0 [EvAcquire]))
      as (c' & calls & evs & Hloop & _ & _ & Hc).
    rewrite (fetch_card_info_open _ _ _ _ _ _ _ Hs Hloop) in Hret.
    simpl in Hret. injection Hret as <-.
    destruct Hc as [-> | (i & m & _ & _ & ->)].
    + repeat split.
    + discriminate Hfound.
Qed.

(** The record returned when every attempt is answered 500. *)
Lemma not_found_record_is_blank_witness :
  oracle_text (not_found "Black Lotus") = JStr ""
  /\ mana_cost (not_found "Black Lotus") = JStr ""
  /\ type_line (not_found "Black Lotus") = JStr ""
  /\ set_name (not_found "Black Lotus") = JStr "".
Proof.
  apply (not_found_record_is_blank Config.default Scenario.failing
           Scenario.manager "Black Lotus" Scenario.idle).
  - vm_compute. reflexivity.
  - reflexivity.
Defined.

End CardManagerFacts.

Module QueueWorkerFacts.
Import QueueWorker.

Lemma done_items_app e1 e2 :
  done_items (e1 ++ e2) = (done_items e1 ++ done_items e2)%list.
Proof. unfold done_items. apply flat_map_app. Qed.

Lemma put_attempts_app e1 e2 :
  put_attempts (e1 ++ e2) = (put_attempts e1 ++ put_attempts e2)%list.
Proof. unfold put_attempts. apply flat_map_app. Qed.

Lemma put_attempts_app_one evs item timeout :
  put_attempts (evs ++ [EvPut item timeout])
  = (put_attempts evs ++ [item])%list.
Proof. rewrite put_attempts_app. reflexivity. Qed.

Lemma fetch_events_done evs :
  forallb CardManager.fetch_event evs = true -> done_items evs = [].
Proof.
  induction evs as [| e evs IH]; simpl; [reflexivity |].
  intros H. apply andb_true_iff in H. destruct H as [He Hevs].
  destruct e; try discriminate He; simpl; apply IH; exact Hevs.
Qed.

Lemma full_iff q :
  full q = true
  <-> 0 < maxsize q /\ maxsize q <= Z.of_nat (length (items q)).
Proof.
  unfold full. destruct (maxsize q <=? 0) eqn:E.
  - apply Z.leb_le in E. split; [discriminate | lia].
  - apply Z.leb_gt in E. rewrite Z.leb_le. split; [intros; lia | tauto].
Qed.

(** What [add_to_queue] does, case by case. *)
Lemma add_to_queue_run ev card_name w :
  exists b q,
    add_to_queue ev card_name w
    = (Ok b,
       {| upstream_calls := upstream_calls w;
          enqueue_waits := if full (queue w) then S (enqueue_waits w)
                           else enqueue_waits w;
          trace := trace w ++ [EvPut card_name 5];
          card_cache := card_cache w;
          queue := q |})
    /\ (if full (queue w)
        then match put_wait ev (enqueue_waits w) with
             | SlotFreed =>
                 b = true
                 /\ q = put_item card_name (take_head (queue w))
             | WaitTimedOut | WaitRaised _ => b = false /\ q = queue w
             end
        else b = true /\ q = put_item card_name (queue w)).
Proof.
  cbv [add_to_queue try_except wait_for_put bind emit get_world next_wait
       set_queue ret raise]. simpl.
  destruct (full (queue w)); simpl.
  - destruct (put_wait ev (enqueue_waits w)) as [| | e]; simpl.
    + eexists _, _. split; [reflexivity | split; reflexivity].
    + eexists _, _. split; [reflexivity | split; reflexivity].
    + destruct e; eexists _, _; (split; [reflexivity | split; reflexivity]).
  - eexists _, _. split; [reflexivity | split; reflexivity].
Qed.

(** C6: [add_to_queue] raises nothing and always returns a boolean after
    one wait bounded by its timeout of five seconds. It returns true
    exactly when the item was placed on the queue: at once when the queue
    is not full, or after a consumer freed a slot within the timeout. It
    returns false, leaving the queue as it was, when the queue is full
    (it holds [maxsize] items) and the wait times out or fails. *)
Theorem add_to_queue_outcome ev card_name w :
  exists b w1,
    add_to_queue ev card_name w = (Ok b, w1)
    /\ trace w1 = (trace w ++ [EvPut card_name 5])%list
    /\ card_cache w1 = card_cache w
    /\ (full (queue w) = true
        <-> 0 < maxsize (queue w)
            /\ maxsize (queue w) <= Z.of_nat (length (items (queue w))))
    /\ (if full (queue w)
        then match put_wait ev (enqueue_waits w) with
             | SlotFreed =>
                 b = true
                 /\ queue w1 = put_item card_name (take_head (queue w))
             | WaitTimedOut | WaitRaised _ =>
                 b = false /\ queue w1 = queue w
             end
        else b = true /\ queue w1 = put_item card_name (queue w)).
Proof.
  destruct (add_to_queue_run ev card_name w) as (b & q & Hrun & Hcases).
  eexists b, _. split; [exact Hrun |]. simpl.
  split; [reflexivity |]. split; [reflexivity |].
  split; [apply full_iff | exact Hcases].
Qed.

(** One item of a batch: whatever its processing does, it is marked
    done once, and the loop can go on. *)
Lemma process_item_run cfg ev cm card_name w :
  0 < unfinished_tasks (queue w) ->
  exists w1,
    process_item cfg ev cm card_name w = (Ok tt, w1)
    /\ items (queue w1) = items (queue w)
    /\ unfinished_tasks (queue w1) = unfinished_tasks (queue w) - 1
    /\ done_items (trace w1) = (done_items (trace w) ++ [card_name])%list
    /\ (forall k, is_Some (card_cache w !! k) -> is_Some (card_cache w1 !! k))
    /\ (CardManager.session_unusable cm = false ->
        is_Some (card_cache w1 !! card_name)).
Proof.
  intros Hpos.
  assert (Hgt : (unfinished_tasks (queue w) <=? 0) = false)
    by (apply Z.leb_gt; exact Hpos).
  unfold process_item, try_finally, try_except, bind, get_world.
  destruct (card_cache w !! card_name) as [cached |] eqn:Hc.
  - unfold ret, task_done, bind, get_world. rewrite Hgt.
    unfold emit, set_queue. simpl.
    eexists. split; [reflexivity |]. simpl.
    split; [reflexivity |]. split; [reflexivity |].
    split; [rewrite done_items_app; reflexivity |].
    split; [tauto | intros _; rewrite Hc; eauto].
  - destruct (CardManagerFacts.fetch_card_info_frame cfg ev cm card_name w)
      as (r & calls & evs & Hrun & Hev & Hok).
    rewrite Hrun.
    destruct r as [c | e].
    + unfold set_cache, task_done, bind, get_world. simpl. rewrite Hgt.
      unfold emit, set_queue, bind. simpl.
      eexists. split; [reflexivity |]. simpl.
      split; [reflexivity |]. split; [reflexivity |].
      split.
      { rewrite !done_items_app, (fetch_events_done evs Hev).
        rewrite app_nil_r. reflexivity. }
      split.
      { intros k Hk. destruct (decide (card_name = k)) as [-> | Hne].
        - rewrite lookup_insert_eq. eauto.
        - rewrite lookup_insert_ne by exact Hne. exact Hk. }
      intros _. rewrite lookup_insert_eq. eauto.
    + unfold ret, task_done, bind, get_world. simpl. rewrite Hgt.
      unfold emit, set_queue, bind. simpl.
      eexists. split; [reflexivity |]. simpl.
      split; [reflexivity |]. split; [reflexivity |].
      split.
      { rewrite !done_items_app, (fetch_events_done evs Hev).
        rewrite app_nil_r. reflexivity. }
      split; [tauto |].
      intros Hs. destruct (Hok Hs) as [c Hc']. discriminate Hc'.
Qed.

(** C4: whatever the upstream service answers and whether or not the
    manager's session is usable (so that every fetch raises), the loop
    over a batch of dequeued items marks every item done exactly once, in
    order, and reaches the end of the batch. *)
Theorem process_batch_marks_every_item cfg ev cm batch w :
  Z.of_nat (length batch) <= unfinished_tasks (queue w) ->
  exists w1,
    process_batch cfg ev cm batch w = (Ok tt, w1)
    /\ done_items (trace w1) = (done_items (trace w) ++ batch)%list
    /\ unfinished_tasks (queue w1)
       = unfinished_tasks (queue w) - Z.of_nat (length batch)
    /\ items (queue w1) = items (queue w).
Proof.
  revert w. induction batch as [| card_name rest IH]; intros w Hlen.
  - exists w. simpl. rewrite app_nil_r. repeat split. lia.
  - simpl length in Hlen. simpl. unfold bind.
    destruct (process_item_run cfg ev cm card_name w ltac:(lia))
      as (w1 & Hrun & Hitems & Hun & Hdone & _).
    rewrite Hrun.
    destruct (IH w1 ltac:(lia)) as (w2 & Hrest & Hdone2 & Hun2 & Hitems2).
    exists w2. split; [exact Hrest |].
    split; [rewrite Hdone2, Hdone, <- app_assoc; reflexivity |].
    split; [simpl length; lia | congruence].
Qed.

(** A closed session makes every fetch raise; both items are marked done
    all the same. *)
Lemma process_batch_marks_every_item_witness :
  exists w1,
    process_batch Config.default Scenario.failing Scenario.unopened
      ["Black Lotus"; "Mox Pearl"]
      {| upstream_calls := 0; enqueue_waits := 0; trace := [];
         card_cache := ∅;
         queue := {| items := []; unfinished_tasks := 2;
                     maxsize := 1000 |} |}
    = (Ok tt, w1)
    /\ done_items (trace w1) = ["Black Lotus"; "Mox Pearl"]
    /\ unfinished_tasks (queue w1) = 0
    /\ items (queue w1) = [].
Proof.
  apply (process_batch_marks_every_item Config.default Scenario.failing
           Scenario.unopened ["Black Lotus"; "Mox Pearl"]
           {| upstream_calls := 0; enqueue_waits := 0; trace := [];
              card_cache := ∅;
              queue := {| items := []; unfinished_tasks := 2;
                          maxsize := 1000 |} |}).
  simpl. lia.
Defined.

(** The collection takes the first [n] pending items, in order. *)
Lemma collect_batch_run : forall n batch w,
  collect_batch n batch w
  = (Ok (batch ++ take n (items (queue w)))%list,
     {| upstream_calls := upstream_calls w;
        enqueue_waits := enqueue_waits w;
        trace := trace w;
        card_cache := card_cache w;
        queue := {| items := drop n (items (queue w));
                    unfinished_tasks := unfinished_tasks (queue w);
                    maxsize := maxsize (queue w) |} |}).
Proof.
  induction n as [| n IH]; intros batch w.
  - simpl. unfold ret. rewrite app_nil_r, drop_0.
    destruct w as [? ? ? ? []]. reflexivity.
  - simpl. unfold bind, get_world.
    destruct (items (queue w)) as [| card_name rest] eqn:Hi.
    + unfold ret. rewrite app_nil_r.
      destruct w as [? ? ? ? []]. simpl in *. subst. reflexivity.
    + unfold set_queue, take_head. rewrite IH. simpl. rewrite Hi. simpl.
      rewrite <- app_assoc. reflexivity.
Qed.

(** One pass of the worker loop on a queue whose pending items are all
    counted as unfinished: the batch is the first [BATCH_SIZE] pending
    items, and exactly these are marked done. *)
Lemma process_queue_pass_run cfg ev cm w :
  Z.of_nat (length (items (queue w))) <= unfinished_tasks (queue w) ->
  let batch := take (Z.to_nat (Config.BATCH_SIZE cfg)) (items (queue w)) in
  exists w1,
    process_queue_pass cfg ev cm w = (Ok tt, w1)
    /\ items (queue w1)
       = drop (Z.to_nat (Config.BATCH_SIZE cfg)) (items (queue w))
    /\ done_items (trace w1) = (done_items (trace w) ++ batch)%list
    /\ unfinished_tasks (queue w1)
       = unfinished_tasks (queue w) - Z.of_nat (length batch).
Proof.
  intros Hinv batch.
  unfold process_queue_pass, try_except, bind.
  rewrite collect_batch_run. simpl. fold batch.
  destruct batch as [| card_name rest] eqn:Hb.
  - unfold sleep, emit. simpl. eexists. split; [reflexivity |]. simpl.
    split; [reflexivity |].
    split; [rewrite done_items_app, !app_nil_r; reflexivity | lia].
  - rewrite <- Hb.
    assert (Hloop : forall (b : list string) w0,
               Z.of_nat (length b) <= unfinished_tasks (queue w0) ->
               exists w1,
                 process_batch cfg ev cm b w0 = (Ok tt, w1)
                 /\ done_items (trace w1) = (done_items (trace w0) ++ b)%list
                 /\ unfinished_tasks (queue w1)
                    = unfinished_tasks (queue w0) - Z.of_nat (length b)
                 /\ items (queue w1) = items (queue w0)).
    { clear. induction b as [| card_name' rest' IH]; intros w0 Hlen.
      - exists w0. simpl. rewrite app_nil_r. repeat split. lia.
      - simpl length in Hlen. simpl. unfold bind.
        destruct (process_item_run cfg ev cm card_name' w0 ltac:(lia))
          as (w1 & Hrun & Hitems & Hun & Hdone & _).
        rewrite Hrun.
        destruct (IH w1 ltac:(lia)) as (w2 & Hrest & Hdone2 & Hun2 & Hitems2).
        exists w2. split; [exact Hrest |].
        split; [rewrite Hdone2, Hdone, <- app_assoc; reflexivity |].
        split; [simpl length; lia | congruence]. }
    match goal with
    | |- context [process_batch cfg ev cm batch ?w0] =>
        destruct (Hloop batch w0) as (w1 & Hrun & Hdone & Hun & Hitems)
    end.
    { simpl. subst batch. rewrite length_take. lia. }
    rewrite Hrun. exists w1. split; [reflexivity |].
    split; [exact Hitems |]. split; [exact Hdone | exact Hun].
Qed.

End QueueWorkerFacts.

Module RoutesFacts.
Import QueueWorker Routes.

Lemma card_entry_status card :
  card_entry card !! "status"
  = Some (JStr (if found card then "found" else "not found")).
Proof. vm_compute. reflexivity. Qed.

Lemma card_entry_name card : card_entry card !! "name" = Some (name card).
Proof. vm_compute. reflexivity. Qed.

Lemma queue_entry_status card_name queued :
  queue_entry card_name queued !! "status"
  = Some (JStr (if queued then "queued" else "queue full")).
Proof. vm_compute. reflexivity. Qed.

Lemma queue_entry_name card_name queued :
  queue_entry card_name queued !! "name" = Some (JStr card_name).
Proof. vm_compute. reflexivity. Qed.

Lemma card_entry_not_queued card :
  status_is "queued" (card_entry card) = false.
Proof.
  unfold status_is. rewrite card_entry_status.
  destruct (found card); reflexivity.
Qed.

Lemma queue_entry_queued card_name queued :
  status_is "queued" (queue_entry card_name queued) = queued.
Proof.
  unfold status_is. rewrite queue_entry_status.
  destruct queued; reflexivity.
Qed.

Lemma fetch_cards_loop_run ev : forall card_names acc w,
  exists new w1 d,
    fetch_cards_loop ev card_names acc w = (Ok (acc ++ new)%list, w1)
    /\ card_cache w1 = card_cache w
    /\ Forall2 (answers (card_cache w)) card_names new
    /\ put_attempts (trace w1)
       = (put_attempts (trace w) ++ uncached (card_cache w) card_names)%list
    /\ (d <= length (items (queue w)
                     ++ names_with_status "queued" card_names new))%nat
    /\ items (queue w1)
       = drop d (items (queue w)
                 ++ names_with_status "queued" card_names new)%list
    /\ unfinished_tasks (queue w1)
       = unfinished_tasks (queue w)
         + Z.of_nat (length (names_with_status "queued" card_names new)).
Proof.
  induction card_names as [| card_name rest IH]; intros acc w.
  - exists [], w, 0%nat. simpl. unfold ret. rewrite !app_nil_r.
    repeat split; try constructor. lia. lia.
  - simpl. unfold bind at 1. unfold get_world.
    destruct (card_cache w !! card_name) as [card |] eqn:Hc.
    + destruct (IH (acc ++ [card_entry card])%list w)
        as (new & w1 & d & Hrun & Hcache & Hall & Hputs & Hd & Hitems & Hun).
      exists (card_entry card :: new), w1, d.
      rewrite Hrun, <- app_assoc. simpl.
      rewrite card_entry_not_queued.
      split; [reflexivity |]. split; [exact Hcache |].
      split.
      { constructor; [| exact Hall]. unfold answers. rewrite Hc.
        split; [reflexivity | apply card_entry_status]. }
      split; [exact Hputs |]. split; [exact Hd |].
      split; [exact Hitems | exact Hun].
    + unfold bind.
      destruct (QueueWorkerFacts.add_to_queue_run ev card_name w)
        as (b & q & Hadd & Hcases).
      rewrite Hadd.
      match goal with
      | |- context [fetch_cards_loop ev rest ?acc0 ?w0] =>
          destruct (IH acc0 w0)
            as (new & w1 & d & Hrun & Hcache & Hall & Hputs & Hd & Hitems
                & Hun)
      end.
      simpl in Hcache, Hall, Hputs, Hd, Hitems, Hun.
      assert (Hq : exists d0,
                 (d0 <= length (items (queue w)
                                ++ (if b then [card_name] else [])))%nat
                 /\ items q = drop d0 (items (queue w)
                                       ++ (if b then [card_name] else []))%list
                 /\ unfinished_tasks q
                    = unfinished_tasks (queue w) + (if b then 1 else 0)).
      { destruct (full (queue w)) eqn:Hfull.
        - apply QueueWorkerFacts.full_iff in Hfull.
          destruct (put_wait ev (enqueue_waits w));
            destruct Hcases as [-> ->].
          + exists 1%nat. simpl.
            destruct (items (queue w)) as [| x xs]; [simpl in Hfull; lia |].
            simpl. rewrite drop_0. split; [lia |]. split; reflexivity.
          + exists 0%nat. rewrite app_nil_r, drop_0.
            split; [lia |]. split; [reflexivity | lia].
          + exists 0%nat. rewrite app_nil_r, drop_0.
            split; [lia |]. split; [reflexivity | lia].
        - destruct Hcases as [-> ->]. exists 0%nat. rewrite drop_0. simpl.
          split; [lia |]. split; [reflexivity | lia]. }
      destruct Hq as (d0 & Hd0 & Hq & Hunq).
      exists (queue_entry card_name b :: new), w1, (d0 + d)%nat.
      rewrite Hrun, <- app_assoc. simpl.
      rewrite queue_entry_queued.
      split; [reflexivity |]. split; [exact Hcache |].
      split.
      { constructor; [| exact Hall]. unfold answers. rewrite Hc.
        exists b. split; [reflexivity | apply queue_entry_status]. }
      split.
      { rewrite Hputs, QueueWorkerFacts.put_attempts_app_one. rewrite <- app_assoc.
        reflexivity. }
      rewrite Hq in Hitems, Hd.
      rewrite <- drop_app_le in Hitems, Hd by exact Hd0.
      rewrite drop_drop in Hitems.
      rewrite length_drop in Hd.
      assert (Heq : ((items (queue w) ++ (if b then [card_name] else []))
                     ++ names_with_status "queued" rest new)%list
                    = (items (queue w)
                       ++ (if b
                           then card_name :: names_with_status "queued" rest new
                           else names_with_status "queued" rest new))%list).
      { rewrite <- app_assoc. destruct b; reflexivity. }
      rewrite Heq in Hitems, Hd.
      split; [| split; [exact Hitems |]].
      * rewrite <- Heq in Hd |- *. rewrite (length_app (_ ++ _)) in Hd |- *. lia.
      * rewrite Hun, Hunq. destruct b; simpl length; lia.
Qed.

(** One turn of the loop, for a cached name and for an uncached one. *)
Lemma fetch_cards_loop_cached ev card_name rest acc w card :
  card_cache w !! card_name = Some card ->
  fetch_cards_loop ev (card_name :: rest) acc w
  = fetch_cards_loop ev rest (acc ++ [card_entry card])%list w.
Proof.
  intros Hc. simpl. unfold bind, get_world. rewrite Hc. reflexivity.
Qed.

Lemma fetch_cards_loop_uncached ev card_name rest acc w queued w' :
  card_cache w !! card_name = None ->
  add_to_queue ev card_name w = (Ok queued, w') ->
  fetch_cards_loop ev (card_name :: rest) acc w
  = fetch_cards_loop ev rest (acc ++ [queue_entry card_name queued])%list w'.
Proof.
  intros Hc Hadd. simpl. unfold bind, get_world. rewrite Hc, Hadd.
  reflexivity.
Qed.

(** The loop appends to the results it is given, and leaves the cache as
    it is. *)
Lemma fetch_cards_loop_acc ev : forall card_names acc w,
  exists new w1,
    fetch_cards_loop ev card_names [] w = (Ok new, w1)
    /\ fetch_cards_loop ev card_names acc w = (Ok (acc ++ new)%list, w1)
    /\ length new = length card_names
    /\ card_cache w1 = card_cache w.
Proof.
  induction card_names as [| card_name rest IH]; intros acc w.
  - exists [], w. simpl. unfold ret. rewrite app_nil_r. repeat split.
  - destruct (card_cache w !! card_name) as [card |] eqn:Hc.
    + rewrite !(fetch_cards_loop_cached ev card_name rest _ w card Hc).
      destruct (IH ([] ++ [card_entry card])%list w)
        as (new & w1 & Hnil & Hone & Hlen & Hk).
      destruct (IH (acc ++ [card_entry card])%list w)
        as (new' & w1' & Hnil' & Hacc & _).
      rewrite Hnil in Hnil'. injection Hnil' as <- <-.
      exists (card_entry card :: new), w1.
      split; [exact Hone |].
      split; [rewrite Hacc, <- app_assoc; reflexivity |].
      split; [simpl; rewrite Hlen; reflexivity | exact Hk].
    + destruct (QueueWorkerFacts.add_to_queue_run ev card_name w)
        as (b & q & Hadd & _).
      rewrite !(fetch_cards_loop_uncached ev card_name rest _ w b _ Hc Hadd).
      match goal with
      | |- context [fetch_cards_loop ev rest _ ?w0] =>
          destruct (IH ([] ++ [queue_entry card_name b])%list w0)
            as (new & w1 & Hnil & Hone & Hlen & Hk);
          destruct (IH (acc ++ [queue_entry card_name b])%list w0)
            as (new' & w1' & Hnil' & Hacc & _)
      end.
      rewrite Hnil in Hnil'. injection Hnil' as <- <-.
      exists (queue_entry card_name b :: new), w1.
      split; [exact Hone |].
      split; [rewrite Hacc, <- app_assoc; reflexivity |].
      split; [simpl; rewrite Hlen; reflexivity | exact Hk].
Qed.

(** The loop over two lists of names, one after the other. *)
Lemma fetch_cards_loop_app ev : forall names1 names2 w,
  exists r1 w1 r2 w2,
    fetch_cards_loop ev names1 [] w = (Ok r1, w1)
    /\ fetch_cards_loop ev names2 [] w1 = (Ok r2, w2)
    /\ fetch_cards_loop ev (names1 ++ names2) [] w = (Ok (r1 ++ r2)%list, w2).
Proof.
  assert (H : forall names1 names2 acc w,
            exists r1 w1 r2 w2,
              fetch_cards_loop ev names1 [] w = (Ok r1, w1)
              /\ fetch_cards_loop ev names2 [] w1 = (Ok r2, w2)
              /\ fetch_cards_loop ev (names1 ++ names2) acc w
                 = (Ok (acc ++ r1 ++ r2)%list, w2)).
  { induction names1 as [| card_name rest IH]; intros names2 acc w.
    - destruct (fetch_cards_loop_acc ev names2 acc w)
        as (new & w1 & Hnil & Hacc & _).
      exists [], w, new, w1.
      split; [reflexivity |]. split; [exact Hnil | exact Hacc].
    - change ((card_name :: rest) ++ names2)%list
        with (card_name :: (rest ++ names2))%list.
      destruct (card_cache w !! card_name) as [card |] eqn:Hc.
      + rewrite !(fetch_cards_loop_cached ev card_name _ _ w card Hc).
        destruct (IH names2 (acc ++ [card_entry card])%list w)
          as (r1 & w1 & r2 & w2 & H1 & H2 & H12).
        destruct (fetch_cards_loop_acc ev rest ([] ++ [card_entry card])%list w)
          as (new & w1' & Hnil & Hone & _).
        rewrite H1 in Hnil. injection Hnil as <- <-.
        exists (card_entry card :: r1), w1, r2, w2.
        split; [exact Hone |]. split; [exact H2 |].
        rewrite H12, <- app_assoc. reflexivity.
      + destruct (QueueWorkerFacts.add_to_queue_run ev card_name w)
          as (b & q & Hadd & _).
        rewrite !(fetch_cards_loop_uncached ev card_name _ _ w b _ Hc Hadd).
        match goal with
        | |- context [fetch_cards_loop ev rest _ ?w0] =>
            destruct (IH names2 (acc ++ [queue_entry card_name b])%list w0)
              as (r1 & w1 & r2 & w2 & H1 & H2 & H12);
            destruct (fetch_cards_loop_acc ev rest
                        ([] ++ [queue_entry card_name b])%list w0)
              as (new & w1' & Hnil & Hone & _)
        end.
        rewrite H1 in Hnil. injection Hnil as <- <-.
        exists (queue_entry card_name b :: r1), w1, r2, w2.
        split; [exact Hone |]. split; [exact H2 |].
        rewrite H12, <- app_assoc. reflexivity. }
  intros names1 names2 w. apply (H names1 names2 [] w).
Qed.

(** C7: for every list of submitted names [fetch_cards] answers 200 with
    one entry per name, in order. When the loop comes to a name, after the
    names before it, the entry is decided as follows. For a name in the
    cache it is the cached record, with status found or not found after its
    found flag, and nothing is enqueued: the world stays as it is. For a
    name not in the cache [add_to_queue] is called for it, once, and the
    entry is the name with status queued when that call returned true, in
    which case the name is the last item of the queue, and with status
    queue full when it returned false, in which case the queue was full and
    is left as it was. Placing on the queue is attempted for the uncached
    names only, in order. *)
Theorem fetch_cards_statuses ev (card_names : list string) w :
  exists results w1,
    fetch_cards ev card_names w = (Ok (JsonList results, 200), w1)
    /\ (card_names <> [] -> length results = length card_names)
    /\ put_attempts (trace w1)
       = (put_attempts (trace w) ++ uncached (card_cache w) card_names)%list
    /\ unfinished_tasks (queue w1)
       = unfinished_tasks (queue w)
         + Z.of_nat (length (names_with_status "queued" card_names results))
    /\ forall before card_name after,
         card_names = (before ++ card_name :: after)%list ->
         exists rs_before w_before r w_after rs_after,
           fetch_cards_loop ev before [] w = (Ok rs_before, w_before)
           /\ fetch_cards_loop ev after [] w_after = (Ok rs_after, w1)
           /\ results = (rs_before ++ r :: rs_after)%list
           /\ length rs_before = length before
           /\ match card_cache w !! card_name with
              | Some card =>
                  r = card_entry card
                  /\ r !! "status"
                     = Some (JStr (if found card
                                   then "found" else "not found"))
                  /\ w_after = w_before
              | None =>
                  exists queued,
                    add_to_queue ev card_name w_before = (Ok queued, w_after)
                    /\ r = queue_entry card_name queued
                    /\ r !! "status"
                       = Some (JStr (if queued
                                     then "queued" else "queue full"))
                    /\ put_attempts (trace w_after)
                       = (put_attempts (trace w_before) ++ [card_name])%list
                    /\ (if queued
                        then last (items (queue w_after)) = Some card_name
                             /\ unfinished_tasks (queue w_after)
                                = unfinished_tasks (queue w_before) + 1
                        else full (queue w_before) = true
                             /\ queue w_after = queue w_before)
              end.
Proof.
  destruct card_names as [| card_name0 rest0].
  - eexists _, w. unfold fetch_cards, try_except, bind, get_world, ret.
    split; [reflexivity |]. split; [congruence |].
    split; [simpl; rewrite app_nil_r; reflexivity |].
    split; [simpl; lia |].
    intros before card_name after H. destruct before; discriminate H.
  - destruct (fetch_cards_loop_run ev (card_name0 :: rest0) [] w)
      as (new & w1 & d & Hrun & _ & Hall & Hputs & _ & _ & Hun).
    exists new, w1.
    split; [unfold fetch_cards, try_except, bind; rewrite Hrun; reflexivity |].
    split; [intros _; symmetry; eapply Forall2_length; exact Hall |].
    split; [exact Hputs |]. split; [exact Hun |].
    intros before card_name after Hsplit.
    simpl app in Hrun. rewrite Hsplit in Hrun.
    destruct (fetch_cards_loop_app ev before (card_name :: after) w)
      as (r1 & w_before & r2 & w2 & H1 & H2 & H12).
    rewrite Hrun in H12. injection H12 as -> ->.
    destruct (fetch_cards_loop_acc ev before [] w)
      as (new1 & w1' & Hnil & _ & Hlen & Hcache).
    rewrite H1 in Hnil. injection Hnil as <- <-.
    destruct (card_cache w !! card_name) as [card |] eqn:Hc.
    + rewrite (fetch_cards_loop_cached ev card_name after [] w_before card)
        in H2 by (rewrite Hcache; exact Hc).
      destruct (fetch_cards_loop_acc ev after ([] ++ [card_entry card])%list
                  w_before)
        as (rs_after & w3 & Hnil & Hone & _).
      rewrite Hone in H2. injection H2 as <- <-.
      exists r1, w_before, (card_entry card), w_before, rs_after.
      split; [exact H1 |]. split; [exact Hnil |].
      split; [reflexivity |]. split; [exact Hlen |].
      split; [reflexivity |]. split; [apply card_entry_status | reflexivity].
    + destruct (QueueWorkerFacts.add_to_queue_run ev card_name w_before)
        as (b & q & Hadd & Hcases).
      rewrite (fetch_cards_loop_uncached ev card_name after [] w_before b _)
        in H2 by (rewrite ?Hcache; first [exact Hc | exact Hadd]).
      match type of H2 with
      | context [fetch_cards_loop ev after _ ?w0] =>
          destruct (fetch_cards_loop_acc ev after
                      ([] ++ [queue_entry card_name b])%list w0)
            as (rs_after & w3 & Hnil & Hone & _);
          exists r1, w_before, (queue_entry card_name b), w0, rs_after
      end.
      rewrite Hone in H2. injection H2 as <- <-.
      split; [exact H1 |]. split; [exact Hnil |].
      split; [reflexivity |]. split; [exact Hlen |].
      exists b. split; [exact Hadd |]. split; [reflexivity |].
      split; [apply queue_entry_status |].
      split; [simpl; apply QueueWorkerFacts.put_attempts_app_one |].
      simpl.
      destruct (full (queue w_before)) eqn:Hfull.
      * destruct (put_wait ev (enqueue_waits w_before));
          destruct Hcases as [-> ->].
        -- split; [simpl; apply last_snoc | reflexivity].
        -- split; reflexivity.
        -- split; reflexivity.
      * destruct Hcases as [-> ->].
        split; [simpl; apply last_snoc | reflexivity].
Qed.

End RoutesFacts.

(** ** The scenarios of the specification, run on the embedding *)

Module ScenarioFacts.
Import CardManager QueueWorker.

(** Scenario 2: a successful answer gives a record with [found = true] and
    the fields of the answer, missing ones empty. *)
Example successful_fetch :
  fst (fetch_card_info Config.default Scenario.echoing Scenario.manager
         "Black Lotus" Scenario.idle)
  = Ok {| name := JStr "Black Lotus"; oracle_text := JStr "";
          mana_cost := JStr "0"; type_line := JStr "Artifact";
          set_name := JStr ""; found := true |}.
Proof. vm_compute. reflexivity. Qed.

(** Scenario 5: one item more than the queue can hold, no consumer at
    work: the call returns false and the queue is as before. *)
Example enqueue_on_full_queue :
  add_to_queue Scenario.failing "c03" Scenario.full_queue
  = (Ok false,
     {| upstream_calls := 0; enqueue_waits := 1;
        trace := [EvPut "c03" 5];
        card_cache := ∅;
        queue := queue Scenario.full_queue |}).
Proof. vm_compute. reflexivity. Qed.

(** Scenario 6: with a batch size of ten, fifteen pending names are
    processed in two passes of ten and five, and all end up cached. *)
Example fifteen_names_in_two_passes :
  let w1 := snd (process_queue_pass Config.default Scenario.echoing
                   Scenario.manager Scenario.fifteen_pending) in
  let w2 := snd (process_queue_pass Config.default Scenario.echoing
                   Scenario.manager w1) in
  done_items (trace w1) = take 10 Scenario.fifteen
  /\ items (queue w1) = drop 10 Scenario.fifteen
  /\ done_items (trace w2) = Scenario.fifteen
  /\ items (queue w2) = []
  /\ unfinished_tasks (queue w2) = 0
  /\ forallb (fun n => match card_cache w2 !! n with
                       | Some c => found c
                       | None => false
                       end) Scenario.fifteen = true.
Proof. vm_compute. repeat split; reflexivity. Qed.

End ScenarioFacts.

(** * Further properties of the code *)

Module RetryFacts.
Import CardManager Retry CardManagerFacts.

(** An attempt whose answer is not transient ends the fetch, whatever its
    number. *)
Lemma attempt_once_final cfg ev card_name attempt w :
  transient (upstream ev (upstream_calls w) card_name) = false ->
  attempt_once cfg ev card_name attempt w
  = (Ok (Some (final_record card_name
                 (upstream ev (upstream_calls w) card_name))),
     advance w 1 [EvSleep (Config.RATE_LIMIT_DELAY cfg); EvGet card_name]).
Proof.
  intros H. unfold final_record.
  destruct (success_body (upstream ev (upstream_calls w) card_name))
    as [m |] eqn:Hs; [apply attempt_once_success; exact Hs |].
  run_attempt.
  destruct (upstream ev (upstream_calls w) card_name) as [e | status body];
    simpl in *.
  - destruct e; simpl in H; try discriminate H;
      try (apply negb_false_iff in H; rewrite H);
      simpl; f_equal; close_world.
  - destruct (status =? 404) eqn:E404; simpl; [f_equal; close_world |].
    destruct (400 <=? status) eqn:E400; [discriminate H |]. simpl.
    destruct body as [e | v]; simpl.
    + destruct e; simpl in H; try discriminate H;
        try (apply negb_false_iff in H; rewrite H);
        simpl; f_equal; close_world.
    + destruct v; try discriminate Hs; simpl; f_equal; close_world.
Qed.

(** Among [n] attempts there is a first one that is not transient, or all
    but the last are transient. *)
Lemma first_final (P : nat -> bool) : forall n, (0 < n)%nat ->
  exists k, (k < n)%nat
            /\ (forall i, (i < k)%nat -> P i = true)
            /\ (k = (n - 1)%nat \/ P k = false).
Proof.
  induction n as [| n IH]; intros Hn; [lia |].
  destruct n as [| n].
  - exists 0%nat. split; [lia |]. split; [intros i Hi; lia | left; lia].
  - destruct (IH ltac:(lia)) as (k & Hk & Hbefore & Hend).
    destruct Hend as [-> | Hend].
    + destruct (P (S n - 1)%nat) eqn:E.
      * exists (S n). split; [lia |]. split; [| left; lia].
        intros i Hi. destruct (decide (i = (S n - 1)%nat)) as [-> | Hne];
          [exact E | apply Hbefore; lia].
      * exists (S n - 1)%nat. split; [lia |]. split; [exact Hbefore |].
        right. exact E.
    + exists k. split; [lia |]. split; [exact Hbefore | right; exact Hend].
Qed.

Lemma transient_no_success o : transient o = true -> success_body o = None.
Proof.
  destruct o as [e | status body]; simpl; [reflexivity |].
  destruct (status =? 404); [discriminate |].
  destruct (400 <=? status).
  - intros _. destruct body as [e | []]; reflexivity.
  - destruct body as [e | v]; [| discriminate]. reflexivity.
Qed.

(** The loop from the attempt [k] on, when the attempts before it are
    transient and [k] is the last allowed one or not transient. *)
Lemma fetch_ends_at cfg ev cm card_name w (k : nat) :
  session_unusable cm = false ->
  (k < Z.to_nat (Config.MAX_RETRIES cfg))%nat ->
  (forall i, (i < k)%nat ->
             transient (upstream ev (upstream_calls w + i) card_name) = true) ->
  (k = (Z.to_nat (Config.MAX_RETRIES cfg) - 1)%nat
   \/ transient (upstream ev (upstream_calls w + k) card_name) = false) ->
  fetch_card_info cfg ev cm card_name w
  = (Ok (final_record card_name
           (upstream ev (upstream_calls w + k) card_name)),
     advance w (S k) (fetch_trace cfg card_name k)).
Proof.
  intros Hs Hk Htr Hend.
  erewrite fetch_card_info_open; [| exact Hs |].
  2:{ replace (Z.to_nat (Config.MAX_RETRIES cfg))
        with (k + S (Z.to_nat (Config.MAX_RETRIES cfg) - S k))%nat by lia.
      rewrite seq_app. simpl.
      rewrite attempts_loop_retries.
      2:{ intros i Hi. simpl. rewrite Nat.add_0_r. apply Htr. exact Hi. }
      2:{ lia. }
      simpl. unfold bind.
      destruct (transient (upstream ev (upstream_calls w + k) card_name))
        eqn:Et.
      - destruct Hend as [Hlast | Hfalse]; [| discriminate Hfalse].
        rewrite attempt_once_transient
          by (simpl; rewrite Nat.add_0_r; exact Et).
        replace (Z.of_nat k =? Config.MAX_RETRIES cfg - 1) with true
          by (symmetry; apply Z.eqb_eq; lia).
        unfold ret.
        replace (not_found card_name)
          with (final_record card_name
                  (upstream ev (upstream_calls w + k) card_name))
          by (unfold final_record; rewrite (transient_no_success _ Et);
              reflexivity).
        reflexivity.
      - rewrite attempt_once_final
          by (simpl; rewrite Nat.add_0_r; exact Et).
        simpl. rewrite Nat.add_0_r. reflexivity. }
  rewrite !advance_advance. unfold fetch_trace. f_equal. f_equal. lia.
Qed.

Lemma backoff_total_S k : backoff_total (S k) = backoff_total k + 2 ^ Z.of_nat k.
Proof.
  unfold backoff_total. rewrite seq_S, List.map_app, fold_right_app. simpl.
  generalize (List.map (fun i => 2 ^ Z.of_nat i) (seq 0 k)).
  induction l as [| x l IH]; simpl; [lia |]. rewrite IH. lia.
Qed.

Lemma backoff_total_closed k : backoff_total k = 2 ^ Z.of_nat k - 1.
Proof.
  induction k as [| k IH]; [reflexivity |].
  rewrite backoff_total_S, IH.
  replace (Z.of_nat (S k)) with (Z.of_nat k + 1) by lia.
  rewrite Z.pow_add_r by lia. lia.
Qed.

Lemma success_not_transient o m : success_body o = Some m -> transient o = false.
Proof.
  intros Hs. destruct (transient o) eqn:Et; [| reflexivity].
  rewrite (transient_no_success _ Et) in Hs. discriminate Hs.
Qed.

Lemma unexpected_final o :
  unexpected o = true -> transient o = false /\ success_body o = None.
Proof.
  destruct o as [e | status body]; simpl.
  - destruct e; simpl; try discriminate; intros _; split; reflexivity.
  - destruct (status =? 404); [discriminate |].
    destruct (400 <=? status); [discriminate |].
    destruct body as [e | v].
    + destruct e; simpl; try discriminate; intros _; split; reflexivity.
    + destruct v; try discriminate; intros _; split; reflexivity.
Qed.

Lemma fetch_trace_requests cfg card_name k :
  requests_made (fetch_trace cfg card_name k) = S k.
Proof.
  unfold fetch_trace. simpl.
  rewrite requests_made_app, retries_from_requests. simpl. lia.
Qed.

Lemma fetch_trace_backoffs cfg card_name k :
  backoffs (fetch_trace cfg card_name k)
  = List.map (fun i => inject_Z (2 ^ Z.of_nat i)) (seq 0 k).
Proof.
  unfold fetch_trace. simpl.
  rewrite retries_from_backoffs. simpl. apply app_nil_r.
Qed.

(** X1: with an open session, whatever the upstream service answers, a
    fetch is a run of transient failures, each followed by its backoff,
    ended by one last attempt: it makes at least one and at most
    [MAX_RETRIES] requests, returns the record of the last answer when that
    answer is a success and the not-found record otherwise, and gives its
    permit back at the end. With no attempt allowed it makes no request. *)
Theorem fetch_card_info_shape cfg ev cm card_name w :
  session_unusable cm = false ->
  match Z.to_nat (Config.MAX_RETRIES cfg) with
  | O =>
      fetch_card_info cfg ev cm card_name w
      = (Ok (not_found card_name), advance w 0 [EvAcquire; EvRelease])
  | S n =>
      exists k,
        (k <= n)%nat
        /\ (forall i, (i < k)%nat ->
              transient (upstream ev (upstream_calls w + i) card_name) = true)
        /\ (k = n
            \/ transient (upstream ev (upstream_calls w + k) card_name)
               = false)
        /\ fetch_card_info cfg ev cm card_name w
           = (Ok (final_record card_name
                    (upstream ev (upstream_calls w + k) card_name)),
              advance w (S k) (fetch_trace cfg card_name k))
        /\ requests_made (fetch_trace cfg card_name k) = S k
        /\ last (fetch_trace cfg card_name k) = Some EvRelease
  end.
Proof.
  intros Hs.
  destruct (Z.to_nat (Config.MAX_RETRIES cfg)) as [| n] eqn:En.
  - erewrite fetch_card_info_open; [| exact Hs | rewrite En; reflexivity].
    unfold ret. rewrite advance_advance. reflexivity.
  - destruct (first_final
                (fun i => transient
                            (upstream ev (upstream_calls w + i) card_name))
                (S n) ltac:(lia)) as (k & Hk & Hbefore & Hend).
    exists k. split; [lia |]. split; [exact Hbefore |].
    split; [destruct Hend as [-> | Hend]; [left; lia | right; exact Hend] |].
    split; [| split].
    + apply fetch_ends_at; [exact Hs | lia | exact Hbefore |].
      destruct Hend as [-> | Hend]; [left; lia | right; exact Hend].
    + apply fetch_trace_requests.
    + unfold fetch_trace. rewrite !app_assoc.
      change [EvSleep (Config.RATE_LIMIT_DELAY cfg); EvGet card_name; EvRelease]
        with ([EvSleep (Config.RATE_LIMIT_DELAY cfg); EvGet card_name]
              ++ [EvRelease])%list.
      rewrite app_assoc. apply last_snoc.
Qed.

(** A fetch against a service that times out once and then answers 404
    ends at its second attempt. *)
Lemma fetch_card_info_shape_witness :
  exists k,
    (k <= 2)%nat
    /\ (forall i, (i < k)%nat ->
          transient (upstream Scenario.timeout_then_404
                       (upstream_calls Scenario.idle + i) "Mox Pearl") = true)
    /\ (k = 2%nat
        \/ transient (upstream Scenario.timeout_then_404
                        (upstream_calls Scenario.idle + k) "Mox Pearl")
           = false)
    /\ fetch_card_info Config.default Scenario.timeout_then_404
         Scenario.manager "Mox Pearl" Scenario.idle
       = (Ok (final_record "Mox Pearl"
                (upstream Scenario.timeout_then_404
                   (upstream_calls Scenario.idle + k) "Mox Pearl")),
          advance Scenario.idle (S k)
            (fetch_trace Config.default "Mox Pearl" k))
    /\ requests_made (fetch_trace Config.default "Mox Pearl" k) = S k
    /\ last (fetch_trace Config.default "Mox Pearl" k) = Some EvRelease.
Proof.
  apply (fetch_card_info_shape Config.default Scenario.timeout_then_404
           Scenario.manager "Mox Pearl" Scenario.idle).
  reflexivity.
Defined.

Lemma Qsum_inject (l : list Z) :
  (Qsum (List.map inject_Z l) == inject_Z (fold_right Z.add 0%Z l))%Q.
Proof.
  induction l as [| x l IH]; simpl; [reflexivity |].
  rewrite IH, inject_Z_plus. reflexivity.
Qed.

(** X2: with an open session and at least one attempt allowed, whatever
    the upstream service answers, the backoffs of a fetch are
    [2^0, ..., 2^(k-1)] seconds for the number [k < MAX_RETRIES] of its
    attempts that were retried: [2^k - 1] seconds in all, and so never more
    than [2^(MAX_RETRIES-1) - 1] seconds. *)
Theorem backoff_bounded cfg ev cm card_name w :
  session_unusable cm = false ->
  0 < Config.MAX_RETRIES cfg ->
  exists k : nat,
    Z.of_nat k < Config.MAX_RETRIES cfg
    /\ requests_made (fetch_events cfg ev cm card_name w) = S k
    /\ backoffs (fetch_events cfg ev cm card_name w)
       = List.map inject_Z (List.map (fun i => 2 ^ Z.of_nat i) (seq 0 k))
    /\ (Qsum (backoffs (fetch_events cfg ev cm card_name w))
        == inject_Z (2 ^ Z.of_nat k - 1))%Q
    /\ (Qsum (backoffs (fetch_events cfg ev cm card_name w))
        <= inject_Z (2 ^ (Config.MAX_RETRIES cfg - 1) - 1))%Q.
Proof.
  intros Hs Hmax.
  destruct (first_final
              (fun i => transient
                          (upstream ev (upstream_calls w + i) card_name))
              (Z.to_nat (Config.MAX_RETRIES cfg)) ltac:(lia))
    as (k & Hk & Hbefore & Hend).
  assert (Hev : fetch_events cfg ev cm card_name w = fetch_trace cfg card_name k).
  { unfold fetch_events.
    rewrite (fetch_ends_at cfg ev cm card_name w k Hs Hk Hbefore Hend).
    simpl. rewrite drop_app_length. reflexivity. }
  assert (Hsum : (Qsum (backoffs (fetch_trace cfg card_name k))
                  == inject_Z (2 ^ Z.of_nat k - 1))%Q).
  { rewrite fetch_trace_backoffs, <- List.map_map, Qsum_inject.
    fold (backoff_total k). rewrite backoff_total_closed. reflexivity. }
  exists k. rewrite Hev.
  split; [lia |]. split; [apply fetch_trace_requests |].
  split; [rewrite fetch_trace_backoffs, List.map_map; reflexivity |].
  split; [exact Hsum |].
  rewrite Hsum. rewrite <- Zle_Qle.
  assert (2 ^ Z.of_nat k <= 2 ^ (Config.MAX_RETRIES cfg - 1))
    by (apply Z.pow_le_mono_r; lia).
  lia.
Qed.

(** Under the default configuration, against a service that always answers
    500, a fetch backs off three seconds, which is the most it can. *)
Lemma backoff_bounded_witness :
  exists k : nat,
    backoffs (fetch_events Config.default Scenario.failing Scenario.manager
                "Mox Pearl" Scenario.idle)
    = List.map inject_Z (List.map (fun i => 2 ^ Z.of_nat i) (seq 0 k))
    /\ (Qsum (backoffs (fetch_events Config.default Scenario.failing
                          Scenario.manager "Mox Pearl" Scenario.idle))
        <= inject_Z 3)%Q.
Proof.
  destruct (backoff_bounded Config.default Scenario.failing Scenario.manager
              "Mox Pearl" Scenario.idle)
    as (k & _ & _ & Hb & _ & Hle).
  - reflexivity.
  - simpl. lia.
  - exists k. split; [exact Hb | exact Hle].
Defined.

(** X3: when the attempts before attempt [k] fail transiently and attempt
    [k] is answered successfully, the fetch returns the record of that
    answer, with [found = true], after [k + 1] requests and [k]
    backoffs. *)
Theorem success_after_retries cfg ev cm card_name w (k : nat) m :
  session_unusable cm = false ->
  (k < Z.to_nat (Config.MAX_RETRIES cfg))%nat ->
  (forall i, (i < k)%nat ->
             transient (upstream ev (upstream_calls w + i) card_name) = true) ->
  success_body (upstream ev (upstream_calls w + k) card_name) = Some m ->
  fetch_card_info cfg ev cm card_name w
  = (Ok (found_card m), advance w (S k) (fetch_trace cfg card_name k))
  /\ found (found_card m) = true
  /\ requests_made (fetch_trace cfg card_name k) = S k
  /\ length (backoffs (fetch_trace cfg card_name k)) = k.
Proof.
  intros Hs Hk Htr Hm. split; [| split; [| split]].
  - rewrite (fetch_ends_at cfg ev cm card_name w k Hs Hk Htr)
      by (right; eapply success_not_transient; exact Hm).
    unfold final_record. rewrite Hm. reflexivity.
  - reflexivity.
  - apply fetch_trace_requests.
  - rewrite fetch_trace_backoffs, length_map, length_seq. reflexivity.
Qed.

(** Scenario 2 of the specification: a first answer with a name, a mana
    cost and a type line only. *)
Lemma success_after_retries_witness :
  fetch_card_info Config.default Scenario.echoing Scenario.manager
    "Black Lotus" Scenario.idle
  = (Ok {| name := JStr "Black Lotus"; oracle_text := JStr "";
           mana_cost := JStr "0"; type_line := JStr "Artifact";
           set_name := JStr ""; found := true |},
     advance Scenario.idle 1 (fetch_trace Config.default "Black Lotus" 0)).
Proof.
  refine (proj1 (success_after_retries Config.default Scenario.echoing
                   Scenario.manager "Black Lotus" Scenario.idle 0
                   (list_to_map
                      [("name", JStr "Black Lotus"); ("mana_cost", JStr "0");
                       ("type_line", JStr "Artifact")]) _ _ _ _)).
  - reflexivity.
  - simpl. lia.
  - intros i Hi. lia.
  - reflexivity.
Defined.

(** X4: an unexpected failure (an exception that is neither a response
    error nor a network error, or a body that is no JSON object) ends the
    fetch at once, also on an attempt that is not the last: the not-found
    record is returned with no backoff and no further request. *)
Theorem unexpected_failure_is_terminal cfg ev cm card_name w (k : nat) :
  session_unusable cm = false ->
  (k < Z.to_nat (Config.MAX_RETRIES cfg))%nat ->
  (forall i, (i < k)%nat ->
             transient (upstream ev (upstream_calls w + i) card_name) = true) ->
  unexpected (upstream ev (upstream_calls w + k) card_name) = true ->
  fetch_card_info cfg ev cm card_name w
  = (Ok (not_found card_name), advance w (S k) (fetch_trace cfg card_name k))
  /\ requests_made (fetch_trace cfg card_name k) = S k.
Proof.
  intros Hs Hk Htr Hu.
  destruct (unexpected_final _ Hu) as [Ht Hnone].
  split; [| apply fetch_trace_requests].
  rewrite (fetch_ends_at cfg ev cm card_name w k Hs Hk Htr)
    by (right; exact Ht).
  unfold final_record. rewrite Hnone. reflexivity.
Qed.

(** An answer with status 200 whose body is a JSON array, on the first
    attempt. *)
Lemma unexpected_failure_is_terminal_witness :
  fetch_card_info Config.default
    {| upstream := fun _ _ => GetResponse 200 (JsonValue (JArr []));
       put_wait := fun _ => WaitTimedOut |}
    Scenario.manager "Black Lotus" Scenario.idle
  = (Ok (not_found "Black Lotus"),
     advance Scenario.idle 1 (fetch_trace Config.default "Black Lotus" 0)).
Proof.
  refine (proj1 (unexpected_failure_is_terminal Config.default _
                   Scenario.manager "Black Lotus" Scenario.idle 0 _ _ _ _)).
  - reflexivity.
  - simpl. lia.
  - intros i Hi. lia.
  - reflexivity.
Defined.

(** X5: entering the manager makes its session usable, so that a fetch
    returns a record; leaving it makes the session unusable, so that a
    fetch raises [RuntimeError] and touches nothing; entering again after
    leaving opens a session anew. Entering twice or leaving twice is the
    same as once, and neither changes the semaphore. *)
Theorem session_lifetime cfg ev (cm : CardManager.t) card_name w :
  session_unusable (aenter cm) = false
  /\ session_unusable (aexit cm) = true
  /\ session_unusable (aenter (aexit (aenter cm))) = false
  /\ aenter (aenter cm) = aenter cm
  /\ aexit (aexit cm) = aexit cm
  /\ semaphore (aenter cm) = semaphore cm
  /\ semaphore (aexit cm) = semaphore cm
  /\ (exists c w1,
        fetch_card_info cfg ev (aenter cm) card_name w = (Ok c, w1))
  /\ (exists msg,
        fetch_card_info cfg ev (aexit cm) card_name w
        = (Raise (RuntimeError msg), w)).
Proof.
  assert (Hin : session_unusable (aenter cm) = false)
    by (destruct cm as [[[[|]] |] sem]; reflexivity).
  assert (Hout : session_unusable (aexit cm) = true)
    by (destruct cm as [[[[|]] |] sem]; reflexivity).
  split; [exact Hin |]. split; [exact Hout |].
  do 5 (split; [destruct cm as [[[[|]] |] sem]; reflexivity |]).
  split.
  - destruct (fetch_card_info_bracketed cfg ev (aenter cm) card_name w Hin)
      as (c & calls & body & Hrun & _).
    eexists _, _. exact Hrun.
  - eexists. apply fetch_card_info_unusable. exact Hout.
Qed.

End RetryFacts.

Module ConcurrentFacts.
Import Concurrent.

Lemma acquires_app e1 e2 : acquires (e1 ++ e2) = acquires e1 + acquires e2.
Proof. unfold acquires. rewrite List.filter_app, length_app. lia. Qed.

Lemma releases_app e1 e2 : releases (e1 ++ e2) = releases e1 + releases e2.
Proof. unfold releases. rewrite List.filter_app, length_app. lia. Qed.

(** The attempts of a fetch neither take nor give back a permit. *)
Lemma attempt_events_hold evs :
  forallb CardManager.attempt_event evs = true ->
  acquires evs = 0 /\ releases evs = 0.
Proof.
  induction evs as [| e evs IH]; simpl; [split; reflexivity |].
  intros H. apply andb_true_iff in H. destruct H as [He Hevs].
  destruct (IH Hevs) as [Ha Hr].
  destruct e; try discriminate He; split; assumption.
Qed.

Lemma forallb_prefix (f : event -> bool) l1 l2 :
  forallb f (l1 ++ l2) = true -> forallb f l1 = true.
Proof. rewrite forallb_app. intros H. apply andb_true_iff in H. tauto. Qed.

(** The permits held add up, place by place. *)
Lemma held_insert : forall (l : list task) (i : nat) x y,
  l !! i = Some x ->
  fold_right Z.add 0 (List.map held (<[i := y]> l))
  = fold_right Z.add 0 (List.map held l) - held x + held y.
Proof.
  induction l as [| a l IH]; intros i x y Hi; [discriminate Hi |].
  destruct i as [| i].
  - injection Hi as ->.
    change (<[0%nat := y]> (x :: l)) with (y :: l). simpl. lia.
  - change (<[S i := y]> (a :: l)) with (a :: <[i := y]> l).
    change ((a :: l) !! S i) with (l !! i) in Hi.
    simpl. rewrite (IH i x y Hi). lia.
Qed.

Lemma held_proceed t e rest :
  future t = e :: rest ->
  held (proceed t)
  = held t + match e with EvAcquire => 1 | EvRelease => -1 | _ => 0 end.
Proof.
  intros Hf. unfold proceed, held. rewrite Hf. simpl.
  rewrite acquires_app, releases_app.
  destruct e; unfold acquires, releases; simpl; lia.
Qed.

Lemma proceed_well_formed t :
  well_formed t -> well_formed (proceed t).
Proof.
  unfold well_formed, proceed. intros (body & Heq & Hbody).
  destruct (future t) as [| e rest] eqn:Hf.
  - exists body. rewrite Hf. split; assumption.
  - exists body. simpl. rewrite <- app_assoc. split; assumption.
Qed.

Lemma step_invariant total s i : invariant total s -> invariant total (step s i).
Proof.
  intros (Hpos & Hsum & Hwf). unfold step.
  destruct (tasks s !! i) as [t |] eqn:Hi; [| repeat split; assumption].
  assert (Ht : well_formed t).
  { rewrite List.Forall_forall in Hwf. apply Hwf.
    apply list_elem_of_In, list_elem_of_lookup. exists i. exact Hi. }
  assert (Hwf' : Forall well_formed (<[i := proceed t]> (tasks s))).
  { apply Forall_insert; [exact Hwf | apply proceed_well_formed; exact Ht]. }
  destruct (future t) as [| e rest] eqn:Hf; [repeat split; assumption |].
  pose proof (held_proceed t e rest Hf) as Hheld.
  pose proof (held_insert (tasks s) i t (proceed t) Hi) as Hins.
  unfold invariant, permits_held in *.
  destruct e; try (destruct (0 <? permits s) eqn:Hp;
                   [apply Z.ltb_lt in Hp | repeat split; assumption]);
    cbn [permits tasks]; rewrite Hins, Hheld;
    (split; [lia |]); (split; [lia | exact Hwf']).
Qed.

Lemma run_invariant total schedule : forall s,
  invariant total s -> invariant total (run s schedule).
Proof.
  unfold run. induction schedule as [| i schedule IH]; intros s Hs; simpl.
  - exact Hs.
  - apply IH, step_invariant. exact Hs.
Qed.

(** An invocation holds one permit from its entering the block to its
    leaving it, and none otherwise; it has a call in flight only while it
    holds one. *)
Lemma well_formed_held t :
  well_formed t ->
  (held t = 0 \/ held t = 1) /\ (requesting t = true -> held t = 1).
Proof.
  unfold well_formed, held, requesting.
  intros (body & Heq & Hbody).
  destruct (past t) as [| e p] eqn:Hp; [split; [left; reflexivity | discriminate] |].
  simpl in Heq. injection Heq as -> Heq.
  destruct (future t) as [| f fs] eqn:Hf.
  - rewrite app_nil_r in Heq. subst p.
    destruct (attempt_events_hold body Hbody) as [Ha Hr].
    change (EvAcquire :: body ++ [EvRelease])%list
      with ([EvAcquire] ++ body ++ [EvRelease])%list.
    rewrite !acquires_app, !releases_app, Ha, Hr.
    split; [left; reflexivity |].
    change ([EvAcquire] ++ body ++ [EvRelease])%list
      with ((EvAcquire :: body) ++ [EvRelease])%list.
    rewrite last_snoc. discriminate.
  - destruct (@exists_last _ (f :: fs) ltac:(discriminate)) as (fs' & y & Hy).
    rewrite Hy, app_assoc in Heq.
    apply app_inj_tail in Heq. destruct Heq as [Heq ->].
    rewrite <- Heq in Hbody.
    destruct (attempt_events_hold p (forallb_prefix _ _ _ Hbody)) as [Ha Hr].
    change (EvAcquire :: p) with ([EvAcquire] ++ p)%list.
    rewrite acquires_app, releases_app, Ha, Hr.
    split; [right; reflexivity | intros _; reflexivity].
Qed.

Lemma in_flight_held (l : list task) :
  Forall well_formed l ->
  Z.of_nat (length (List.filter requesting l))
  <= fold_right Z.add 0 (List.map held l).
Proof.
  induction 1 as [| t l Ht _ IH]; simpl; [lia |].
  destruct (well_formed_held t Ht) as [Hheld Hreq].
  destruct (requesting t); simpl.
  - rewrite Hreq by reflexivity. lia.
  - destruct Hheld as [-> | ->]; lia.
Qed.

Lemma start_invariant cfg cm calls :
  CardManager.session_unusable cm = false ->
  0 <= CardManager.semaphore cm ->
  invariant (CardManager.semaphore cm) (start cfg cm calls).
Proof.
  intros Hs Hsem. unfold invariant, start, permits_held. simpl.
  split; [exact Hsem |].
  assert (H : forall l : list (env * string),
            fold_right Z.add 0 (List.map held (List.map (arrived cfg cm) l)) = 0
            /\ Forall well_formed (List.map (arrived cfg cm) l)).
  { induction l as [| call l [IHsum IHwf]]; simpl;
      [split; [reflexivity | constructor] |].
    split; [rewrite IHsum; reflexivity |].
    constructor; [| exact IHwf].
    destruct (CardManagerFacts.fetch_card_info_bracketed cfg (fst call) cm
                (snd call) blank Hs) as (c & n & body & Hrun & Hbody).
    exists body. split; [| exact Hbody].
    unfold arrived, events_of. simpl. rewrite Hrun. reflexivity. }
  destruct (H calls) as [Hsum Hwf]. split; [lia | exact Hwf].
Qed.

(** With an attempt allowed, an invocation begins by taking a permit,
    sleeping and issuing a request. *)
Lemma events_of_head cfg cm call :
  CardManager.session_unusable cm = false ->
  0 < Config.MAX_RETRIES cfg ->
  exists rest,
    events_of cfg cm call
    = EvAcquire :: EvSleep (Config.RATE_LIMIT_DELAY cfg)
                :: EvGet (snd call) :: rest.
Proof.
  intros Hs Hmax.
  destruct (RetryFacts.first_final
              (fun i => CardManager.transient
                          (upstream (fst call) (upstream_calls blank + i)
                             (snd call)))
              (Z.to_nat (Config.MAX_RETRIES cfg)) ltac:(lia))
    as (k & Hk & Hbefore & Hend).
  unfold events_of.
  rewrite (RetryFacts.fetch_ends_at cfg (fst call) cm (snd call) blank k
             Hs Hk Hbefore Hend).
  unfold Retry.fetch_trace. destruct k as [| k]; simpl; eexists; reflexivity.
Qed.

Lemma insert_middle (l1 l2 : list task) x y :
  <[length l1 := y]> (l1 ++ x :: l2)%list = (l1 ++ y :: l2)%list.
Proof. induction l1 as [| a l1 IH]; simpl; [reflexivity | f_equal; exact IH]. Qed.

Lemma lookup_middle (l1 l2 : list task) x :
  (l1 ++ x :: l2)%list !! length l1 = Some x.
Proof. induction l1 as [| a l1 IH]; simpl; [reflexivity | exact IH]. Qed.

(** An invocation that has not begun takes a free permit and goes on to
    its first request. *)
Lemma first_request_steps cfg cm call (l1 l2 : list task) p :
  CardManager.session_unusable cm = false ->
  0 < Config.MAX_RETRIES cfg ->
  0 < p ->
  let i := length l1 in
  step (step (step {| permits := p;
                      tasks := (l1 ++ arrived cfg cm call :: l2)%list |} i) i) i
  = {| permits := p - 1;
       tasks := (l1 ++ first_request cfg cm call :: l2)%list |}
  /\ requesting (first_request cfg cm call) = true.
Proof.
  intros Hs Hmax Hp i. unfold first_request.
  destruct (events_of_head cfg cm call Hs Hmax) as (rest & Hev).
  assert (H1 : proceed (arrived cfg cm call)
               = {| past := [EvAcquire];
                    future := EvSleep (Config.RATE_LIMIT_DELAY cfg)
                              :: EvGet (snd call) :: rest |})
    by (unfold proceed, arrived; simpl; rewrite Hev; reflexivity).
  rewrite H1. split; [| reflexivity].
  unfold step at 3. cbn [tasks permits]. unfold i.
  rewrite lookup_middle. unfold arrived at 1. cbn [future]. rewrite Hev.
  replace (0 <? p) with true by (symmetry; apply Z.ltb_lt; exact Hp).
  rewrite insert_middle, H1.
  unfold step at 2. cbn [tasks permits].
  rewrite lookup_middle. cbn [future]. rewrite insert_middle.
  unfold step. cbn [tasks permits].
  rewrite lookup_middle. unfold proceed at 2. cbn [future past].
  rewrite insert_middle. reflexivity.
Qed.

(** The first [n] invocations take their permits and issue their first
    requests, as long as there are permits. *)
Lemma burst_run cfg cm calls :
  CardManager.session_unusable cm = false ->
  0 < Config.MAX_RETRIES cfg ->
  forall n,
    (n <= length calls)%nat ->
    Z.of_nat n <= CardManager.semaphore cm ->
    run (start cfg cm calls) (burst n)
    = {| permits := CardManager.semaphore cm - Z.of_nat n;
         tasks := (List.map (first_request cfg cm) (take n calls)
                   ++ List.map (arrived cfg cm) (drop n calls))%list |}.
Proof.
  intros Hs Hmax.
  induction n as [| n IH]; intros Hlen Hsem.
  - unfold burst, run, start. simpl. rewrite drop_0, Z.sub_0_r. reflexivity.
  - unfold burst, run in *. rewrite seq_S, flat_map_app, fold_left_app.
    rewrite IH by lia. simpl.
    destruct (lookup_lt_is_Some_2 calls n ltac:(lia)) as [call Hcall].
    rewrite (drop_S calls call n Hcall), (take_S_r calls n call Hcall).
    rewrite List.map_app. simpl.
    pose proof (first_request_steps cfg cm call
                  (List.map (first_request cfg cm) (take n calls))
                  (List.map (arrived cfg cm) (drop (S n) calls))
                  (CardManager.semaphore cm - Z.of_nat n) Hs Hmax ltac:(lia))
      as [Hsteps _].
    cbv zeta in Hsteps.
    rewrite length_map, length_take, Nat.min_l in Hsteps by lia.
    rewrite Hsteps, <- app_assoc. simpl. f_equal. lia.
Qed.

Lemma in_flight_burst cfg cm (l1 l2 : list (env * string)) :
  CardManager.session_unusable cm = false ->
  0 < Config.MAX_RETRIES cfg ->
  Z.of_nat (length (List.filter requesting
                      (List.map (first_request cfg cm) l1
                       ++ List.map (arrived cfg cm) l2)%list))
  = Z.of_nat (length l1).
Proof.
  intros Hs Hmax. rewrite List.filter_app, length_app.
  assert (H1 : length (List.filter requesting
                         (List.map (first_request cfg cm) l1)) = length l1).
  { induction l1 as [| call l1 IH]; simpl; [reflexivity |].
    destruct (first_request_steps cfg cm call [] [] 1 Hs Hmax ltac:(lia))
      as [_ ->].
    simpl. rewrite IH. reflexivity. }
  assert (H2 : length (List.filter requesting
                         (List.map (arrived cfg cm) l2)) = 0%nat).
  { induction l2 as [| call l2 IH]; simpl; [reflexivity | exact IH]. }
  rewrite H1, H2. lia.
Qed.

(** C9: on a manager made by [CardManager()] and entered, whatever
    invocations of [fetch_card_info] arrive, whatever the upstream service
    answers them and however the event loop interleaves them, the upstream
    calls in flight number at most [MAX_CONCURRENT_REQUESTS]: an invocation
    has a call in flight only while it holds a permit, and the permits held
    and the free ones add up to [MAX_CONCURRENT_REQUESTS]. When all
    permits are held an invocation that comes to the semaphore stays
    suspended there, and once an invocation inside gives its permit back a
    suspended one enters. The ceiling is reached: with an attempt allowed,
    when the invocations come one after the other to their first request,
    as many calls are in flight as there are invocations, or
    [MAX_CONCURRENT_REQUESTS] if they are more. *)
Theorem in_flight_bounded cfg cm0 (calls : list (env * string))
    (schedule : list nat) :
  CardManager.init cfg = Ok cm0 ->
  let cm := CardManager.aenter cm0 in
  let s := run (start cfg cm calls) schedule in
  in_flight s <= Config.MAX_CONCURRENT_REQUESTS cfg
  /\ in_flight s <= permits_held s
  /\ 0 <= permits s
  /\ permits s + permits_held s = Config.MAX_CONCURRENT_REQUESTS cfg
  /\ (forall i t,
        tasks s !! i = Some t ->
        (requesting t = true -> held t = 1)
        /\ (head (future t) = Some EvAcquire -> held t = 0))
  /\ (forall i t,
        tasks s !! i = Some t ->
        head (future t) = Some EvAcquire ->
        permits_held s = Config.MAX_CONCURRENT_REQUESTS cfg ->
        step s i = s)
  /\ (forall i j t u,
        tasks s !! i = Some t ->
        head (future t) = Some EvAcquire ->
        tasks s !! j = Some u ->
        head (future u) = Some EvRelease ->
        tasks (step (step s j) i) !! i = Some (proceed t)
        /\ held (proceed t) = 1)
  /\ (0 < Config.MAX_RETRIES cfg ->
      let n := Z.min (Z.of_nat (length calls))
                     (Config.MAX_CONCURRENT_REQUESTS cfg) in
      in_flight (run (start cfg cm calls) (burst (Z.to_nat n))) = n).
Proof.
  intros Hinit cm s.
  assert (Hsem : CardManager.semaphore cm = Config.MAX_CONCURRENT_REQUESTS cfg
                 /\ 0 <= Config.MAX_CONCURRENT_REQUESTS cfg
                 /\ CardManager.session_unusable cm = false).
  { unfold CardManager.init, CardManager.Semaphore in Hinit.
    destruct (Config.MAX_CONCURRENT_REQUESTS cfg <? 0) eqn:E;
      [discriminate Hinit |].
    injection Hinit as <-. apply Z.ltb_ge in E.
    split; [reflexivity |]. split; [exact E | reflexivity]. }
  destruct Hsem as (Hsem & Hnonneg & Hopen).
  assert (Hinv : invariant (Config.MAX_CONCURRENT_REQUESTS cfg) s).
  { apply run_invariant. rewrite <- Hsem.
    apply start_invariant; [exact Hopen | rewrite Hsem; exact Hnonneg]. }
  destruct Hinv as (Hpos & Hsum & Hwf).
  pose proof (in_flight_held (tasks s) Hwf) as Hle.
  fold (in_flight s) in Hle. fold (permits_held s) in Hle.
  assert (Htask : forall i t, tasks s !! i = Some t -> well_formed t).
  { intros i t Hi. rewrite List.Forall_forall in Hwf. apply Hwf.
    apply list_elem_of_In, list_elem_of_lookup. exists i. exact Hi. }
  assert (Hat : forall t, well_formed t ->
                          head (future t) = Some EvAcquire -> held t = 0).
  { intros t (body & Heq & Hbody) Hhead.
    destruct (future t) as [| e rest] eqn:Hf; [discriminate Hhead |].
    simpl in Hhead. injection Hhead as ->.
    destruct (past t) as [| e p] eqn:Hp; [unfold held; rewrite Hp; reflexivity |].
    exfalso. simpl in Heq. injection Heq as _ Heq.
    assert (Hin : In EvAcquire (body ++ [EvRelease])%list)
      by (rewrite <- Heq; apply List.in_app_iff; right; left; reflexivity).
    apply List.in_app_iff in Hin. destruct Hin as [Hin | [Hin | []]];
      [| discriminate Hin].
    rewrite List.forallb_forall in Hbody. specialize (Hbody _ Hin).
    discriminate Hbody. }
  split; [lia |]. split; [exact Hle |]. split; [exact Hpos |].
  split; [exact Hsum |]. split; [| split; [| split]].
  4:{ intros Hmax n.
      rewrite (burst_run cfg cm calls Hopen Hmax (Z.to_nat n)) by (unfold n; lia).
      unfold in_flight. cbn [tasks].
      rewrite (in_flight_burst cfg cm _ _ Hopen Hmax).
      rewrite length_take. unfold n. lia. }
  - intros i t Hi. split.
    + apply (well_formed_held t (Htask i t Hi)).
    + apply Hat. exact (Htask i t Hi).
  - intros i t Hi Hhead Hfull. unfold step. rewrite Hi.
    destruct (future t) as [| e rest]; [reflexivity |].
    simpl in Hhead. injection Hhead as ->.
    replace (0 <? permits s) with false
      by (symmetry; apply Z.ltb_ge; lia).
    reflexivity.
  - intros i j t u Hi Hti Hj Hu.
    assert (Hne : i <> j).
    { intros ->. rewrite Hi in Hj. injection Hj as ->.
      rewrite Hti in Hu. discriminate Hu. }
    assert (Hstep : tasks (step (step s j) i) !! i = Some (proceed t)).
    { unfold step at 2. rewrite Hj.
      destruct (future u) as [| e ru]; [discriminate Hu |].
      simpl in Hu. injection Hu as ->.
      unfold step. simpl.
      rewrite list_lookup_insert_ne by (intros E; apply Hne; symmetry; exact E).
      rewrite Hi.
      destruct (future t) as [| e rt] eqn:Hft; [discriminate Hti |].
      simpl in Hti. injection Hti as ->.
      replace (0 <? permits s + 1) with true
        by (symmetry; apply Z.ltb_lt; lia).
      simpl. apply list_lookup_insert_eq.
      rewrite length_insert. apply lookup_lt_Some in Hi. exact Hi. }
    split; [exact Hstep |].
    destruct (future t) as [| e rt] eqn:Hft; [discriminate Hti |].
    pose proof Hti as Hti'. simpl in Hti'. injection Hti' as ->.
    rewrite (held_proceed t EvAcquire rt Hft).
    rewrite (Hat t (Htask i t Hi)) by (rewrite Hft; reflexivity).
    reflexivity.
Qed.

(** Six invocations on the default configuration, against a service that
    answers 500: five take a permit and issue their first request, and the
    sixth stays suspended at the semaphore. *)
Lemma in_flight_bounded_witness :
  let calls := List.map (fun n : string => (Scenario.failing, n))
                        ["c01"; "c02"; "c03"; "c04"; "c05"; "c06"] in
  let s := run (start Config.default Scenario.manager calls)
             [0; 0; 0; 1; 1; 1; 2; 2; 2; 3; 3; 3; 4; 4; 4; 5]%nat in
  in_flight s = 5
  /\ in_flight s <= Config.MAX_CONCURRENT_REQUESTS Config.default
  /\ permits s = 0
  /\ step s 5%nat = s.
Proof.
  intros calls s.
  assert (Hinit : CardManager.init Config.default = Ok Scenario.unopened)
    by reflexivity.
  destruct (in_flight_bounded Config.default Scenario.unopened calls
              [0; 0; 0; 1; 1; 1; 2; 2; 2; 3; 3; 3; 4; 4; 4; 5]%nat Hinit)
    as (Hle & _ & _ & Hsum & _ & Hblock & _).
  split; [vm_compute; reflexivity |]. split; [exact Hle |].
  split; [vm_compute; reflexivity |].
  destruct (tasks s !! 5%nat) as [t |] eqn:Ht.
  - apply (Hblock 5%nat t Ht).
    + revert Ht. vm_compute. intros Ht. injection Ht as <-. reflexivity.
    + vm_compute. reflexivity.
  - revert Ht. vm_compute. discriminate.
Defined.

End ConcurrentFacts.

Module RateLimitedFacts.
Import RateLimiter RateLimiterFacts Routes RateLimited.

(** X6: a limiter whose limit is zero or negative admits no call at all
    and records nothing. *)
Theorem nonpositive_limit_admits_nothing (rl : RateLimiter.t) :
  limit rl <= 0 ->
  forall clock,
    fst (run rl clock) = repeat false (length clock)
    /\ (forall t, In t (requests (snd (run rl clock))) -> In t (requests rl)).
Proof.
  intros Hl clock. revert rl Hl.
  induction clock as [| now rest IH]; intros rl Hl; simpl.
  - split; [reflexivity | tauto].
  - unfold is_allowed.
    replace (Z.of_nat (length (List.filter (in_period (period rl) now)
                                 (requests rl))) <? limit rl)
      with false by (symmetry; apply Z.ltb_ge; lia).
    specialize (IH {| limit := limit rl; period := period rl;
                      requests := List.filter (in_period (period rl) now)
                                    (requests rl) |} Hl).
    destruct (run _ rest) as [bs rl2]. simpl in *.
    destruct IH as [-> Hin]. split; [reflexivity |].
    intros t Ht. specialize (Hin t Ht). apply List.filter_In in Hin. tauto.
Qed.

Lemma nonpositive_limit_admits_nothing_witness :
  fst (run (init 0 60) [0; 1; 100]%Q) = [false; false; false]
  /\ (forall t, In t (requests (snd (run (init 0 60) [0; 1; 100]%Q))) ->
                In t []).
Proof.
  apply (nonpositive_limit_admits_nothing (init 0 60)). simpl. lia.
Defined.

(** The window of a limiter holds only readings of its own calls. *)
Lemma requests_from_clock : forall clock rl t,
  In t (requests (snd (run rl clock))) -> In t (requests rl) \/ In t clock.
Proof.
  induction clock as [| now rest IH]; intros rl t; simpl; [tauto |].
  destruct (is_allowed now rl) as [b rl1] eqn:E.
  specialize (IH rl1 t). destruct (run rl1 rest) as [bs rl2]. simpl in *.
  intros Ht. destruct (IH Ht) as [H1 | H1]; [| tauto].
  unfold is_allowed in E.
  destruct (_ <? _); injection E as _ <-; simpl in H1.
  - apply List.in_app_iff in H1. destruct H1 as [H1 | [<- | []]].
    + apply List.filter_In in H1. tauto.
    + tauto.
  - apply List.filter_In in H1. tauto.
Qed.

(** A window that opens with every recorded admission expired. *)
Lemma run_fresh_window l p w t0 clock :
  Forall (fun t => (inject_Z p <= t0 - t)%Q) w ->
  Forall (fun t => (t0 <= t)%Q /\ (t - t0 < inject_Z p)%Q) clock ->
  fst (run {| limit := l; period := p; requests := w |} (t0 :: clock))
  = first_admitted l (S (length clock)).
Proof.
  intros Hexpired Hclock.
  unfold first_admitted. simpl. unfold is_allowed. simpl.
  rewrite (filter_none_kept (in_period p t0) w).
  2:{ eapply List.Forall_impl; [| exact Hexpired]. simpl. intros t Ht.
      apply Qltb_ge. exact Ht. }
  simpl. change (Z.of_nat 0) with 0. destruct (0 <? l) eqn:E.
  - apply Z.ltb_lt in E.
    pose proof (run_inside_window l p t0 clock [t0] 1) as H.
    destruct (run _ clock) as [bs rl2]. simpl in *. f_equal.
    apply H; [| exact Hclock | reflexivity | simpl; lia].
    constructor; [lra | constructor].
  - apply Z.ltb_ge in E.
    pose proof (run_inside_window l p t0 clock [] 1) as H.
    destruct (run _ clock) as [bs rl2]. simpl in *. f_equal.
    apply H; [constructor | exact Hclock | lia | simpl; lia].
Qed.

(** X7: whatever calls a limiter has answered before, once [period]
    seconds have passed since the last of them the limiter is as new:
    of the calls of the next [period] seconds exactly the first [limit]
    are admitted. *)
Theorem idle_period_resets (l p : Z) (history : list Q) (t0 : Q)
    (burst : list Q) :
  Forall (fun t => (inject_Z p <= t0 - t)%Q) history ->
  Forall (fun t => (t0 <= t)%Q /\ (t - t0 < inject_Z p)%Q) burst ->
  fst (run (snd (run (init l p) history)) (t0 :: burst))
  = first_admitted l (S (length burst))
  /\ fst (run (snd (run (init l p) history)) (t0 :: burst))
     = fst (run (init l p) (t0 :: burst)).
Proof.
  intros Hhist Hburst.
  assert (Hfresh : fst (run (init l p) (t0 :: burst))
                   = first_admitted l (S (length burst))).
  { apply run_fresh_window; [constructor | exact Hburst]. }
  split; [| rewrite Hfresh].
  all: pose proof (run_limit (init l p) history) as Hl;
    pose proof (run_period (init l p) history) as Hp;
    pose proof (requests_from_clock history (init l p)) as Hin;
    destruct (snd (run (init l p) history)) as [l' p' w']; simpl in *;
    subst l' p'; apply run_fresh_window; [| exact Hburst];
    apply List.Forall_forall; intros t Ht;
    destruct (Hin t Ht) as [[] | Hh];
    rewrite List.Forall_forall in Hhist; apply Hhist; exact Hh.
Qed.

(** Three calls at once, a pause of a minute, three calls again. *)
Lemma idle_period_resets_witness :
  fst (run (snd (run (init 2 60) [0; 0; 0]%Q)) [60; 61; 62]%Q)
  = [true; true; false].
Proof.
  refine (proj1 (idle_period_resets 2 60 [0; 0; 0]%Q 60 [61; 62]%Q _ _)).
  - repeat constructor; vm_compute; congruence.
  - repeat constructor; vm_compute; congruence.
Defined.

(** The lookup handler always answers 200. *)
Lemma fetch_cards_ok ev card_names w :
  exists results w1,
    fetch_cards ev card_names w = (Ok (JsonList results, 200), w1).
Proof.
  destruct card_names as [| card_name rest].
  - eexists _, _. reflexivity.
  - destruct (RoutesFacts.fetch_cards_loop_run ev (card_name :: rest) [] w)
      as (new & w1 & d & Hrun & _).
    exists new, w1. unfold fetch_cards, try_except, bind. rewrite Hrun.
    reflexivity.
Qed.

(** The route, request by request: the limiter decides, and the handler
    runs on the admitted requests only. *)
Lemma serve_run ev : forall reqs rl w,
  let admitted := fst (run rl (List.map fst reqs)) in
  List.map status_code (fst (serve ev reqs (rl, w)))
  = List.map (fun b : bool => Some (if b then 200 else 429)) admitted
  /\ fst (snd (serve ev reqs (rl, w)))
     = snd (run rl (List.map fst reqs))
  /\ snd (snd (serve ev reqs (rl, w)))
     = handle_admitted ev reqs admitted w.
Proof.
  induction reqs as [| [now card_names] rest IH]; intros rl w; simpl.
  - repeat split.
  - unfold fetch_route, rate_limit. simpl.
    destruct (is_allowed now rl) as [b rl1] eqn:E. destruct b.
    + destruct (fetch_cards_ok ev card_names w) as (results & w1 & Hf).
      unfold try_except. rewrite Hf.
      specialize (IH rl1 w1).
      destruct (serve ev rest (rl1, w1)) as [rs s2].
      destruct (run rl1 (List.map fst rest)) as [bs rl2]. simpl in *.
      destruct IH as (-> & -> & ->). repeat split.
    + specialize (IH rl1 w).
      destruct (serve ev rest (rl1, w)) as [rs s2].
      destruct (run rl1 (List.map fst rest)) as [bs rl2]. simpl in *.
      destruct IH as (-> & -> & ->). repeat split.
Qed.

Lemma served_of_status rs (bs : list bool) :
  List.map status_code rs
  = List.map (fun b : bool => Some (if b then 200 else 429)) bs ->
  List.map served rs = bs.
Proof.
  revert bs. induction rs as [| r rs IH]; intros [| b bs] H;
    try discriminate H; [reflexivity |].
  simpl in H. injection H as Hr Hrs. simpl. rewrite (IH bs Hrs).
  unfold served. rewrite Hr. destruct b; reflexivity.
Qed.

(** The decorated route, request by request: the limiter decides, and the
    handlers of the admitted requests alone run. *)
Lemma serve_with_run : forall (reqs : list (Q * M (body * Z))) rl w,
  let admitted := fst (run rl (List.map fst reqs)) in
  fst (serve_with reqs (rl, w)) = fst (answer_admitted reqs admitted w)
  /\ fst (snd (serve_with reqs (rl, w))) = snd (run rl (List.map fst reqs))
  /\ snd (snd (serve_with reqs (rl, w)))
     = snd (answer_admitted reqs admitted w).
Proof.
  induction reqs as [| [now f] rest IH]; intros rl w; simpl.
  - repeat split.
  - unfold rate_limit. simpl.
    destruct (is_allowed now rl) as [b rl1] eqn:E. destruct b.
    + unfold try_except, absorbed.
      destruct (f w) as [[a | e] w1]; simpl.
      * specialize (IH rl1 w1).
        destruct (serve_with rest (rl1, w1)) as [rs s2].
        destruct (run rl1 (List.map fst rest)) as [bs rl2]. simpl in *.
        destruct (answer_admitted rest bs w1) as [rs' w2]. simpl in *.
        destruct IH as (-> & -> & ->). repeat split.
      * specialize (IH rl1 w1).
        destruct (serve_with rest (rl1, w1)) as [rs s2].
        destruct (run rl1 (List.map fst rest)) as [bs rl2]. simpl in *.
        destruct (answer_admitted rest bs w1) as [rs' w2]. simpl in *.
        destruct IH as (-> & -> & ->). repeat split.
    + specialize (IH rl1 w).
      destruct (serve_with rest (rl1, w)) as [rs s2].
      destruct (run rl1 (List.map fst rest)) as [bs rl2]. simpl in *.
      destruct (answer_admitted rest bs w) as [rs' w2]. simpl in *.
      destruct IH as (-> & -> & ->). repeat split.
Qed.

Lemma answer_admitted_returns : forall (reqs : list (Q * M (body * Z)))
    admitted w,
  Forall (fun r => exists b code, r = Ok (b, code))
         (fst (answer_admitted reqs admitted w)).
Proof.
  induction reqs as [| [now f] rest IH]; intros admitted w; simpl;
    [constructor |].
  destruct admitted as [| [|] admitted']; simpl; [constructor | |].
  - destruct (f w) as [r w1].
    specialize (IH admitted' w1).
    destruct (answer_admitted rest admitted' w1) as [rs w2]. simpl in *.
    constructor; [| exact IH].
    unfold absorbed. destruct r as [[b code] | e]; eauto.
  - specialize (IH admitted' w).
    destruct (answer_admitted rest admitted' w) as [rs w2]. simpl in *.
    constructor; [| exact IH]. unfold refusal. eauto.
Qed.

(** X8: whatever handler [rate_limit] decorates and whatever the handler
    does with a request, the decorated route never raises: a request the
    limiter refuses is answered 429 without the handler being run, an
    admitted one is answered by the handler, or with 500 when the handler
    raises. On a clock that does not go backwards the requests whose
    handler is run in any window of [RATE_LIMIT_PERIOD] seconds number at
    most [RATE_LIMIT]. *)
Theorem served_requests_bounded cfg (reqs : list (Q * M (body * Z)))
    (w : world) (a : Q) :
  0 <= Config.RATE_LIMIT cfg ->
  monotone (List.map fst reqs) ->
  let rl := init (Config.RATE_LIMIT cfg) (Config.RATE_LIMIT_PERIOD cfg) in
  let admitted := fst (run rl (List.map fst reqs)) in
  let out := serve_with reqs (rl, w) in
  fst out = fst (answer_admitted reqs admitted w)
  /\ snd (snd out) = snd (answer_admitted reqs admitted w)
  /\ Forall (fun r => exists b code, r = Ok (b, code)) (fst out)
  /\ admissions (answers_in_window (Config.RATE_LIMIT_PERIOD cfg) a
                   (List.map fst reqs) admitted)
     <= Config.RATE_LIMIT cfg.
Proof.
  intros Hl Hm rl admitted out.
  destruct (serve_with_run reqs rl w) as (Hr & _ & Hw).
  fold admitted in Hr, Hw. fold out in Hr, Hw.
  split; [exact Hr |]. split; [exact Hw |].
  split; [rewrite Hr; apply answer_admitted_returns |].
  destruct (Z_lt_le_dec 0 (Config.RATE_LIMIT_PERIOD cfg)) as [Hp | Hp].
  - pose proof (window_budget (Config.RATE_LIMIT cfg)
                  (Config.RATE_LIMIT_PERIOD cfg) a Hp
                  (List.map fst reqs) [] Hm) as H.
    unfold recorded_from in H. simpl in H. unfold admitted, rl, init. lia.
  - rewrite answers_in_empty_window by exact Hp.
    unfold admissions. simpl. lia.
Qed.

(** Twelve lookups within a second under the default configuration: the
    handler runs for the first ten, the last two are answered 429. *)
Lemma served_requests_bounded_witness :
  let reqs := List.map (fun i => (inject_Z (Z.of_nat i) / 12,
                                  fetch_cards Scenario.failing ["c01"]))%Q
                       (seq 0 12) in
  let out := serve_with reqs (init 10 60, Scenario.idle) in
  List.map status_code (fst out)
  = (repeat (Some 200) 10 ++ repeat (Some 429) 2)%list
  /\ admissions (answers_in_window 60 0 (List.map fst reqs)
                   (fst (run (init 10 60) (List.map fst reqs)))) <= 10.
Proof.
  intros reqs out.
  destruct (served_requests_bounded Config.default reqs Scenario.idle 0%Q)
    as (_ & _ & _ & Hle).
  - simpl. lia.
  - simpl. repeat split; vm_compute; congruence.
  - split; [vm_compute; reflexivity | exact Hle].
Defined.

(** X9: a request the limiter refuses has no effect beyond the limiter:
    after any sequence of requests the world is what the handler,
    run on the served requests alone, makes of it, and the limiter is what
    its calls alone make of it. *)
Theorem refused_requests_have_no_effect ev
    (reqs : list (Q * list string)) (rl : RateLimiter.t) (w : world) :
  let out := serve ev reqs (rl, w) in
  snd (snd out) = handle_admitted ev reqs (List.map served (fst out)) w
  /\ fst (snd out) = snd (run rl (List.map fst reqs))
  /\ List.map served (fst out) = fst (run rl (List.map fst reqs)).
Proof.
  intros out. destruct (serve_run ev reqs rl w) as (Hst & Hrl & Hw).
  fold out in Hst, Hrl, Hw.
  pose proof (served_of_status _ _ Hst) as Hserved.
  rewrite Hserved. split; [exact Hw |]. split; [exact Hrl | reflexivity].
Qed.

End RateLimitedFacts.

Module WorkerFacts.
Import CardManager QueueWorker Accounting CardManagerFacts QueueWorkerFacts.

Lemma fetches_app e1 e2 : fetches (e1 ++ e2) = (fetches e1 + fetches e2)%nat.
Proof. unfold fetches. rewrite List.filter_app, length_app. reflexivity. Qed.

Lemma attempt_events_no_fetch evs :
  forallb attempt_event evs = true -> fetches evs = 0%nat.
Proof.
  induction evs as [| e evs IH]; simpl; [reflexivity |].
  intros H. apply andb_true_iff in H. destruct H as [He Hevs].
  destruct e; try discriminate He; apply IH; exact Hevs.
Qed.

(** With an open session a fetch makes at most [MAX_RETRIES] upstream
    calls, all inside its block. *)
Lemma fetch_bounded cfg ev cm card_name w :
  session_unusable cm = false ->
  exists c calls body,
    fetch_card_info cfg ev cm card_name w
    = (Ok c, advance w calls (EvAcquire :: body ++ [EvRelease]))
    /\ forallb attempt_event body = true
    /\ (calls <= Z.to_nat (Config.MAX_RETRIES cfg))%nat.
Proof.
  intros Hs.
  destruct (attempts_loop_shape cfg ev card_name
              (seq 0 (Z.to_nat (Config.MAX_RETRIES cfg)))
              (advance w 0 [EvAcquire]))
    as (c & calls & evs & Hloop & Hle & Hev & _).
  rewrite length_seq in Hle.
  exists c, calls, evs. split; [| split; [exact Hev | exact Hle]].
  erewrite fetch_card_info_open; [| exact Hs | exact Hloop].
  rewrite !advance_advance. f_equal. f_equal. lia.
Qed.

(** What the processing of one item does to the world. *)
Lemma process_item_effect cfg ev cm card_name w :
  0 < unfinished_tasks (queue w) ->
  exists w1 calls evs,
    process_item cfg ev cm card_name w = (Ok tt, w1)
    /\ upstream_calls w1 = (upstream_calls w + calls)%nat
    /\ (calls <= Z.to_nat (Config.MAX_RETRIES cfg))%nat
    /\ trace w1 = (trace w ++ evs ++ [EvTaskDone card_name])%list
    /\ queue w1 = {| items := items (queue w);
                     unfinished_tasks := unfinished_tasks (queue w) - 1;
                     maxsize := maxsize (queue w) |}
    /\ enqueue_waits w1 = enqueue_waits w
    /\ done_items evs = []
    /\ match card_cache w !! card_name with
       | Some _ =>
           card_cache w1 = card_cache w /\ calls = 0%nat /\ evs = []
       | None =>
           if session_unusable cm
           then card_cache w1 = card_cache w /\ calls = 0%nat /\ evs = []
           else fetches evs = 1%nat
                /\ exists c,
                     fst (fetch_card_info cfg ev cm card_name w) = Ok c
                     /\ card_cache w1 = <[card_name := c]> (card_cache w)
       end.
Proof.
  intros Hpos.
  assert (Hgt : (unfinished_tasks (queue w) <=? 0) = false)
    by (apply Z.leb_gt; exact Hpos).
  unfold process_item, try_finally, try_except, bind, get_world.
  destruct (card_cache w !! card_name) as [cached |] eqn:Hc.
  - unfold ret, task_done, bind, get_world. rewrite Hgt.
    unfold emit, set_queue. simpl.
    eexists _, 0%nat, []. split; [reflexivity |]. simpl.
    repeat split; lia.
  - destruct (session_unusable cm) eqn:Hs.
    + rewrite (fetch_card_info_unusable _ _ _ _ _ Hs).
      unfold ret, task_done, bind, get_world. simpl. rewrite Hgt.
      unfold emit, set_queue. simpl.
      eexists _, 0%nat, []. split; [reflexivity |]. simpl.
      repeat split; lia.
    + destruct (fetch_bounded cfg ev cm card_name w Hs)
        as (c & calls & body & Hrun & Hev & Hle).
      rewrite Hrun.
      unfold set_cache, task_done, bind, get_world. simpl. rewrite Hgt.
      unfold emit, set_queue, bind. simpl.
      eexists _, calls, (EvAcquire :: body ++ [EvRelease])%list.
      split; [reflexivity |]. simpl.
      split; [reflexivity |]. split; [exact Hle |].
      split; [rewrite <- app_assoc; reflexivity |].
      split; [reflexivity |]. split; [reflexivity |].
      split.
      { apply fetch_events_done. simpl.
        rewrite forallb_app, (attempt_events_fetch _ Hev). reflexivity. }
      split.
      * unfold fetches. simpl. f_equal.
        fold (fetches (body ++ [EvRelease])). rewrite fetches_app.
        rewrite (attempt_events_no_fetch _ Hev). reflexivity.
      * exists c. split; reflexivity.
Qed.

(** What the loop over a batch does to the world. *)
Lemma process_batch_effect cfg ev cm : forall batch w,
  Z.of_nat (length batch) <= unfinished_tasks (queue w) ->
  exists w1 evs,
    process_batch cfg ev cm batch w = (Ok tt, w1)
    /\ trace w1 = (trace w ++ evs)%list
    /\ (upstream_calls w <= upstream_calls w1)%nat
    /\ (upstream_calls w1
        <= upstream_calls w
           + length batch * Z.to_nat (Config.MAX_RETRIES cfg))%nat
    /\ queue w1 = {| items := items (queue w);
                     unfinished_tasks :=
                       unfinished_tasks (queue w) - Z.of_nat (length batch);
                     maxsize := maxsize (queue w) |}
    /\ enqueue_waits w1 = enqueue_waits w
    /\ done_items evs = batch
    /\ (forall k c, card_cache w !! k = Some c -> card_cache w1 !! k = Some c)
    /\ (forall k, is_Some (card_cache w1 !! k) ->
                  is_Some (card_cache w !! k) \/ In k batch)
    /\ (session_unusable cm = false ->
        Forall (fun n => is_Some (card_cache w1 !! n)) batch
        /\ size (card_cache w1) = (size (card_cache w) + fetches evs)%nat)
    /\ (session_unusable cm = true ->
        card_cache w1 = card_cache w /\ upstream_calls w1 = upstream_calls w)
    /\ (Forall (fun n => is_Some (card_cache w !! n)) batch ->
        card_cache w1 = card_cache w
        /\ upstream_calls w1 = upstream_calls w
        /\ evs = List.map EvTaskDone batch).
Proof.
  induction batch as [| card_name rest IH]; intros w Hlen.
  - exists w, []. simpl. unfold ret. rewrite app_nil_r.
    split; [reflexivity |]. split; [reflexivity |].
    split; [lia |]. split; [lia |].
    split; [destruct (queue w); simpl; f_equal; lia |].
    split; [reflexivity |]. split; [reflexivity |].
    split; [tauto |]. split; [tauto |].
    split; [intros _; split; [apply List.Forall_nil | unfold fetches; simpl; lia] |].
    split; [tauto | intros _; repeat split].
  - simpl length in Hlen. simpl. unfold bind.
    destruct (process_item_effect cfg ev cm card_name w ltac:(lia))
      as (w1 & calls & evs1 & Hrun & Hcalls & Hle & Htrace & Hq & Hwaits
          & Hdone1 & Hcache).
    rewrite Hrun.
    destruct (IH w1 ltac:(rewrite Hq; simpl; lia))
      as (w2 & evs2 & Hrest & Htrace2 & Hlo & Hhi & Hq2 & Hwaits2 & Hdone2
          & Hkeep & Honly & Hopen & Hclosed & Hcached).
    exists w2, ((evs1 ++ [EvTaskDone card_name]) ++ evs2)%list.
    split; [exact Hrest |].
    split; [rewrite Htrace2, Htrace, <- !app_assoc; reflexivity |].
    split; [lia |]. split; [simpl length; lia |].
    split; [rewrite Hq2, Hq; simpl; f_equal; lia |].
    split; [congruence |].
    split; [rewrite !done_items_app, Hdone1, Hdone2; reflexivity |].
    assert (Hkeep1 : forall k c, card_cache w !! k = Some c ->
                                 card_cache w1 !! k = Some c).
    { intros k c Hk.
      destruct (card_cache w !! card_name) as [cached |] eqn:Hc.
      - destruct Hcache as (-> & _). exact Hk.
      - destruct (session_unusable cm).
        + destruct Hcache as (-> & _). exact Hk.
        + destruct Hcache as (_ & c' & _ & ->).
          rewrite lookup_insert_ne by congruence. exact Hk. }
    assert (Honly1 : forall k, is_Some (card_cache w1 !! k) ->
                               is_Some (card_cache w !! k) \/ k = card_name).
    { intros k Hk.
      destruct (card_cache w !! card_name) as [cached |] eqn:Hc.
      - destruct Hcache as (Heq & _). rewrite Heq in Hk. tauto.
      - destruct (session_unusable cm).
        + destruct Hcache as (Heq & _). rewrite Heq in Hk. tauto.
        + destruct Hcache as (_ & c' & _ & Heq). rewrite Heq in Hk.
          destruct (decide (card_name = k)) as [-> | Hne]; [tauto |].
          rewrite lookup_insert_ne in Hk by exact Hne. tauto. }
    split; [intros k c Hk; apply Hkeep, Hkeep1; exact Hk |].
    split.
    { intros k Hk. destruct (Honly k Hk) as [H1 | H1]; [| simpl; tauto].
      destruct (Honly1 k H1) as [H2 | ->]; simpl; tauto. }
    split.
    { intros Hs. destruct (Hopen Hs) as [Hall Hsize]. split.
      - constructor; [| exact Hall].
        destruct (card_cache w !! card_name) as [cached |] eqn:Hc.
        + rewrite (Hkeep card_name cached); [eauto |].
          apply Hkeep1. exact Hc.
        + rewrite Hs in Hcache. destruct Hcache as (_ & c' & _ & Heq).
          rewrite (Hkeep card_name c'); [eauto |].
          rewrite Heq. apply lookup_insert_eq.
      - rewrite Hsize, !fetches_app. simpl.
        destruct (card_cache w !! card_name) as [cached |] eqn:Hc.
        + destruct Hcache as (-> & _ & ->). simpl. lia.
        + rewrite Hs in Hcache. destruct Hcache as (Hone & c' & _ & ->).
          rewrite map_size_insert_None by exact Hc.
          change (fetches [EvTaskDone card_name]) with 0%nat. lia. }
    split.
    { intros Hs. destruct (Hclosed Hs) as [Heq Hup]. rewrite Heq, Hup.
      destruct (card_cache w !! card_name) as [cached |] eqn:Hc.
      - destruct Hcache as (-> & -> & _). split; [reflexivity | lia].
      - rewrite Hs in Hcache.
        destruct Hcache as (-> & -> & _). split; [reflexivity | lia]. }
    intros Hall. apply List.Forall_cons_iff in Hall.
    destruct Hall as [[cached Hc] Hall'].
    rewrite Hc in Hcache. destruct Hcache as (Heq & -> & ->).
    rewrite Heq in Hcached. destruct (Hcached Hall') as (-> & -> & ->).
    split; [reflexivity |]. split; [lia | reflexivity].
Qed.

(** While nothing lapses and a new entry fits, storing it is an insertion:
    no entry gives way. *)
Lemma setitem_with_room p key value w :
  TTLCache.none_lapses p ->
  card_cache w !! key = None ->
  Z.of_nat (size (card_cache w)) + 1 <= TTLCache.capacity p ->
  TTLCache.setitem p key value w
  = set_cache (<[key := value]> (card_cache w)) w.
Proof.
  intros Hfresh Hkey Hroom.
  assert (Hlive : TTLCache.expire p w = card_cache w).
  { unfold TTLCache.expire. apply map_filter_id. intros i x _. apply Hfresh. }
  unfold TTLCache.setitem, bind, get_world. rewrite Hlive.
  unfold set_cache at 1. simpl.
  replace (TTLCache.capacity p <? 1) with false
    by (symmetry; apply Z.ltb_ge; lia).
  rewrite Hkey.
  assert (Hsame : TTLCache.make_room (size (card_cache w)) p (card_cache w)
                  = card_cache w).
  { destruct (size (card_cache w)) as [| n] eqn:Hn; [reflexivity |].
    simpl. rewrite Hn.
    replace (TTLCache.capacity p <? Z.of_nat (S n) + 1) with false
      by (symmetry; apply Z.ltb_ge; lia).
    reflexivity. }
  rewrite Hsame. reflexivity.
Qed.

(** While nothing lapses and there is room, capacity and time to live play
    no part in the processing of an item. *)
Lemma process_item_with_room cfg ev cm p card_name w :
  TTLCache.none_lapses p ->
  Z.of_nat (size (card_cache w)) + 1 <= TTLCache.capacity p ->
  TTLCache.process_item cfg ev cm p card_name w
  = process_item cfg ev cm card_name w.
Proof.
  intros Hfresh Hroom.
  unfold TTLCache.process_item, process_item.
  unfold try_finally, try_except, bind at 1 3, get_world.
  unfold TTLCache.contains. rewrite (Hfresh w card_name).
  destruct (card_cache w !! card_name) as [cached |] eqn:Hc; [reflexivity |].
  unfold bind.
  destruct (session_unusable cm) eqn:Hs.
  - rewrite (fetch_card_info_unusable _ _ _ _ _ Hs). reflexivity.
  - destruct (fetch_bounded cfg ev cm card_name w Hs)
      as (c & calls & body & Hrun & _).
    rewrite Hrun.
    rewrite (setitem_with_room p card_name c (advance w calls _) Hfresh)
      by (simpl; assumption).
    reflexivity.
Qed.

(** While nothing lapses and there is room for the batch, capacity and
    time to live play no part in the loop, and the cache grows by one entry
    per item at most. *)
Lemma process_batch_with_room cfg ev cm p : forall batch w,
  TTLCache.none_lapses p ->
  Z.of_nat (length batch) <= unfinished_tasks (queue w) ->
  TTLCache.room p batch w ->
  TTLCache.process_batch cfg ev cm p batch w
  = process_batch cfg ev cm batch w
  /\ Z.of_nat (size (card_cache (snd (process_batch cfg ev cm batch w))))
     <= Z.of_nat (size (card_cache w)) + Z.of_nat (length batch).
Proof.
  unfold TTLCache.room.
  induction batch as [| card_name rest IH]; intros w Hfresh Hlen Hroom.
  - simpl. split; [reflexivity | lia].
  - simpl length in Hlen, Hroom. simpl. unfold bind.
    rewrite process_item_with_room by (first [exact Hfresh | lia]).
    destruct (process_item_effect cfg ev cm card_name w ltac:(lia))
      as (w1 & calls & evs1 & Hrun & _ & _ & _ & Hq & _ & _ & Hcache).
    rewrite Hrun.
    assert (Hsize : Z.of_nat (size (card_cache w1))
                    <= Z.of_nat (size (card_cache w)) + 1).
    { destruct (card_cache w !! card_name) as [cached |] eqn:Hc.
      - destruct Hcache as (-> & _). lia.
      - destruct (session_unusable cm).
        + destruct Hcache as (-> & _). lia.
        + destruct Hcache as (_ & c & _ & ->).
          rewrite map_size_insert_None by exact Hc. lia. }
    destruct (IH w1 Hfresh ltac:(rewrite Hq; simpl; lia) ltac:(lia))
      as [Heq Hle].
    split; [exact Heq | simpl length; lia].
Qed.

(** X10: with an open session, while no entry outlives its time to live
    and the cache has room for a new entry per name of the batch, so that
    no entry has to give way, after the loop over the batch every name of
    the batch has a cache entry; no record that was cached before is
    changed or removed, only names of the batch are added, and the cache
    stays within its capacity. *)
Theorem batch_fills_cache cfg ev cm p batch w :
  session_unusable cm = false ->
  Z.of_nat (length batch) <= unfinished_tasks (queue w) ->
  TTLCache.none_lapses p ->
  TTLCache.room p batch w ->
  let w1 := snd (TTLCache.process_batch cfg ev cm p batch w) in
  Forall (fun n => is_Some (card_cache w1 !! n)) batch
  /\ (forall k c, card_cache w !! k = Some c -> card_cache w1 !! k = Some c)
  /\ (forall k, is_Some (card_cache w1 !! k) ->
                is_Some (card_cache w !! k) \/ In k batch)
  /\ Z.of_nat (size (card_cache w1)) <= TTLCache.capacity p.
Proof.
  intros Hs Hlen Hfresh Hroom.
  destruct (process_batch_with_room cfg ev cm p batch w Hfresh Hlen Hroom)
    as [Heq Hsize].
  rewrite Heq.
  destruct (process_batch_effect cfg ev cm batch w Hlen)
    as (w1 & evs & Hrun & _ & _ & _ & _ & _ & _ & Hkeep & Honly & Hopen & _).
  rewrite Hrun in Hsize |- *. simpl in *.
  split; [apply (Hopen Hs) |]. split; [exact Hkeep |].
  split; [exact Honly |]. unfold TTLCache.room in Hroom. lia.
Qed.

Lemma batch_fills_cache_witness :
  let w1 := snd (TTLCache.process_batch Config.default
                   Scenario.timeout_then_404 Scenario.manager
                   TTLCache.fresh ["c01"; "c02"; "c01"]
                   Scenario.fifteen_pending) in
  Forall (fun n => is_Some (card_cache w1 !! n)) ["c01"; "c02"; "c01"]
  /\ (forall k c, card_cache Scenario.fifteen_pending !! k = Some c ->
                  card_cache w1 !! k = Some c)
  /\ (forall k, is_Some (card_cache w1 !! k) ->
                is_Some (card_cache Scenario.fifteen_pending !! k)
                \/ In k ["c01"; "c02"; "c01"])
  /\ Z.of_nat (size (card_cache w1)) <= TTLCache.CACHE_SIZE.
Proof.
  apply (batch_fills_cache Config.default Scenario.timeout_then_404
           Scenario.manager TTLCache.fresh
           ["c01"; "c02"; "c01"] Scenario.fifteen_pending).
  - reflexivity.
  - simpl. lia.
  - intros w key. reflexivity.
  - vm_compute. discriminate.
Defined.

(** X11: the loop over a batch makes at most [MAX_RETRIES] upstream calls
    per item; when every name of the batch is cached already it makes
    none, leaves the cache as it is and only marks the items done. *)
Theorem batch_upstream_calls_bounded cfg ev cm batch w :
  Z.of_nat (length batch) <= unfinished_tasks (queue w) ->
  let w1 := snd (process_batch cfg ev cm batch w) in
  (upstream_calls w <= upstream_calls w1)%nat
  /\ (upstream_calls w1
      <= upstream_calls w
         + length batch * Z.to_nat (Config.MAX_RETRIES cfg))%nat
  /\ (Forall (fun n => is_Some (card_cache w !! n)) batch ->
      card_cache w1 = card_cache w
      /\ upstream_calls w1 = upstream_calls w
      /\ trace w1 = (trace w ++ List.map EvTaskDone batch)%list).
Proof.
  intros Hlen.
  destruct (process_batch_effect cfg ev cm batch w Hlen)
    as (w1 & evs & Hrun & Htrace & Hlo & Hhi & _ & _ & _ & _ & _ & _ & _
        & Hcached).
  rewrite Hrun. simpl. split; [exact Hlo |]. split; [exact Hhi |].
  intros Hall. destruct (Hcached Hall) as (Hc & Hu & ->).
  split; [exact Hc |]. split; [exact Hu | exact Htrace].
Qed.

Lemma batch_upstream_calls_bounded_witness :
  let w1 := snd (process_batch Config.default Scenario.failing
                   Scenario.manager ["c01"; "c02"]
                   Scenario.fifteen_pending) in
  (upstream_calls Scenario.fifteen_pending <= upstream_calls w1)%nat
  /\ (upstream_calls w1 <= upstream_calls Scenario.fifteen_pending + 2 * 3)%nat.
Proof.
  destruct (batch_upstream_calls_bounded Config.default Scenario.failing
              Scenario.manager ["c01"; "c02"] Scenario.fifteen_pending)
    as (Hlo & Hhi & _).
  - simpl. lia.
  - split; [exact Hlo | exact Hhi].
Defined.

(** X12: with an open session, while no entry outlives its time to live
    and the cache has room for a new entry per name of the batch, every
    fetch the loop over the batch begins adds one new entry to the cache,
    so that a name that is cached already, or that occurs in the batch a
    second time, is not fetched again; and no more than one fetch is begun
    per item. *)
Theorem one_fetch_per_new_entry cfg ev cm p batch w :
  session_unusable cm = false ->
  Z.of_nat (length batch) <= unfinished_tasks (queue w) ->
  TTLCache.none_lapses p ->
  TTLCache.room p batch w ->
  let w1 := snd (TTLCache.process_batch cfg ev cm p batch w) in
  (size (card_cache w1) + fetches (trace w)
   = size (card_cache w) + fetches (trace w1))%nat
  /\ (fetches (trace w1) <= fetches (trace w) + length batch)%nat.
Proof.
  intros Hs Hlen Hfresh Hroom.
  destruct (process_batch_with_room cfg ev cm p batch w Hfresh Hlen Hroom)
    as [Heq Hle].
  rewrite Heq.
  destruct (process_batch_effect cfg ev cm batch w Hlen)
    as (w1 & evs & Hrun & Htrace & _ & _ & _ & _ & _ & _ & _ & Hopen & _).
  rewrite Hrun in Hle |- *. simpl in *. destruct (Hopen Hs) as [_ Hsize].
  rewrite Htrace, fetches_app. lia.
Qed.

(** A batch that names one card twice: two fetches for three items. *)
Lemma one_fetch_per_new_entry_witness :
  let w1 := snd (TTLCache.process_batch Config.default Scenario.echoing
                   Scenario.manager TTLCache.fresh
                   ["c01"; "c02"; "c01"] Scenario.fifteen_pending) in
  (size (card_cache w1) + 0 = 0 + fetches (trace w1))%nat
  /\ (fetches (trace w1) <= 0 + 3)%nat.
Proof.
  apply (one_fetch_per_new_entry Config.default Scenario.echoing
           Scenario.manager TTLCache.fresh
           ["c01"; "c02"; "c01"] Scenario.fifteen_pending).
  - reflexivity.
  - simpl. lia.
  - intros w key. reflexivity.
  - vm_compute. discriminate.
Defined.

(** X13: when the session of the manager is not usable every fetch of the
    loop raises and the loop swallows it: each item is marked done, but
    nothing is cached, no upstream call is made and no item is put back. *)
Theorem unusable_session_drops_items cfg ev cm batch w :
  session_unusable cm = true ->
  Z.of_nat (length batch) <= unfinished_tasks (queue w) ->
  exists w1,
    process_batch cfg ev cm batch w = (Ok tt, w1)
    /\ card_cache w1 = card_cache w
    /\ upstream_calls w1 = upstream_calls w
    /\ done_items (trace w1) = (done_items (trace w) ++ batch)%list
    /\ items (queue w1) = items (queue w)
    /\ unfinished_tasks (queue w1)
       = unfinished_tasks (queue w) - Z.of_nat (length batch).
Proof.
  intros Hs Hlen.
  destruct (process_batch_effect cfg ev cm batch w Hlen)
    as (w1 & evs & Hrun & Htrace & _ & _ & Hq & _ & Hdone & _ & _ & _
        & Hclosed & _).
  exists w1. split; [exact Hrun |]. destruct (Hclosed Hs) as [Hc Hu].
  split; [exact Hc |]. split; [exact Hu |].
  split; [rewrite Htrace, done_items_app, Hdone; reflexivity |].
  rewrite Hq. split; reflexivity.
Qed.

Lemma unusable_session_drops_items_witness :
  exists w1,
    process_batch Config.default Scenario.echoing Scenario.unopened
      ["c01"; "c02"] Scenario.fifteen_pending = (Ok tt, w1)
    /\ card_cache w1 = card_cache Scenario.fifteen_pending
    /\ upstream_calls w1 = upstream_calls Scenario.fifteen_pending
    /\ done_items (trace w1)
       = (done_items (trace Scenario.fifteen_pending) ++ ["c01"; "c02"])%list
    /\ items (queue w1) = items (queue Scenario.fifteen_pending)
    /\ unfinished_tasks (queue w1)
       = unfinished_tasks (queue Scenario.fifteen_pending)
         - Z.of_nat (length ["c01"; "c02"]).
Proof.
  apply (unusable_session_drops_items Config.default Scenario.echoing
           Scenario.unopened ["c01"; "c02"] Scenario.fifteen_pending).
  - reflexivity.
  - simpl. lia.
Defined.

End WorkerFacts.

Module QueueFacts.
Import QueueWorker Routes Accounting QueueWorkerFacts.

(** A property of the queue that one [add_to_queue] keeps is kept by the
    loop of the lookup handler. *)
Lemma fetch_cards_loop_keeps ev (P : Queue -> Prop) :
  (forall card_name w,
      P (queue w) -> P (queue (snd (add_to_queue ev card_name w)))) ->
  forall card_names acc w,
    P (queue w) -> P (queue (snd (fetch_cards_loop ev card_names acc w))).
Proof.
  intros Hstep. induction card_names as [| card_name rest IH];
    intros acc w HP; simpl; [exact HP |].
  unfold bind at 1. unfold get_world.
  destruct (card_cache w !! card_name) as [card |].
  - apply IH. exact HP.
  - unfold bind. specialize (Hstep card_name w HP).
    destruct (add_to_queue_run ev card_name w) as (b & q & Hadd & _).
    rewrite Hadd in Hstep |- *. simpl in Hstep. apply IH. exact Hstep.
Qed.

Lemma fetch_cards_keeps ev (P : Queue -> Prop) :
  (forall card_name w,
      P (queue w) -> P (queue (snd (add_to_queue ev card_name w)))) ->
  forall card_names w,
    P (queue w) -> P (queue (snd (fetch_cards ev card_names w))).
Proof.
  intros Hstep card_names w HP.
  destruct card_names as [| card_name rest]; [exact HP |].
  pose proof (fetch_cards_loop_keeps ev P Hstep (card_name :: rest) [] w HP)
    as H.
  destruct (RoutesFacts.fetch_cards_loop_run ev (card_name :: rest) [] w)
    as (new & w1 & d & Hrun & _).
  unfold fetch_cards, try_except, bind. rewrite Hrun in H |- *. exact H.
Qed.

Lemma add_to_queue_accounted ev card_name w :
  accounted (queue w) -> accounted (queue (snd (add_to_queue ev card_name w))).
Proof.
  unfold accounted. intros H.
  destruct (add_to_queue_run ev card_name w) as (b & q & Hadd & Hcases).
  rewrite Hadd. simpl.
  destruct (full (queue w)).
  - destruct (put_wait ev (enqueue_waits w)); destruct Hcases as [_ ->];
      try exact H.
    simpl. rewrite length_app. simpl.
    destruct (items (queue w)); simpl in *; lia.
  - destruct Hcases as [_ ->]. simpl. rewrite length_app. simpl. lia.
Qed.

Lemma add_to_queue_within_capacity ev card_name w :
  within_capacity (queue w) ->
  within_capacity (queue (snd (add_to_queue ev card_name w))).
Proof.
  unfold within_capacity. intros H.
  destruct (add_to_queue_run ev card_name w) as (b & q & Hadd & Hcases).
  rewrite Hadd. simpl.
  destruct (full (queue w)) eqn:Hfull.
  - apply full_iff in Hfull.
    destruct (put_wait ev (enqueue_waits w)); destruct Hcases as [_ ->];
      try exact H.
    simpl. rewrite length_app. simpl.
    destruct (items (queue w)); simpl in *; lia.
  - destruct Hcases as [_ ->]. simpl. rewrite length_app. simpl.
    unfold full in Hfull.
    destruct (maxsize (queue w) <=? 0) eqn:E.
    + apply Z.leb_le in E. left. exact E.
    + apply Z.leb_gt in Hfull. right. lia.
Qed.

Lemma passes_keeps cfg ev cm (P : Queue -> Prop) :
  (forall w, P (queue w) -> P (queue (snd (process_queue_pass cfg ev cm w)))
             /\ exists w1, process_queue_pass cfg ev cm w = (Ok tt, w1)) ->
  forall n w, P (queue w) -> P (queue (snd (passes cfg ev cm n w))).
Proof.
  intros Hstep. induction n as [| n IH]; intros w HP; simpl; [exact HP |].
  unfold bind. destruct (Hstep w HP) as [HP1 [w1 Hrun]].
  rewrite Hrun in HP1 |- *. apply IH. exact HP1.
Qed.

(** X14: the accounting of the queue, that every pending item is counted
    as unfinished, is kept by [add_to_queue], by the lookup handler and by
    every pass of the worker, which moreover leaves the number of counted
    but no longer pending items as it was. *)
Theorem accounting_is_kept cfg ev cm card_name card_names (n : nat) w :
  accounted (queue w) ->
  accounted (queue (snd (add_to_queue ev card_name w)))
  /\ accounted (queue (snd (fetch_cards ev card_names w)))
  /\ accounted (queue (snd (process_queue_pass cfg ev cm w)))
  /\ accounted (queue (snd (passes cfg ev cm n w)))
  /\ unfinished_tasks (queue (snd (process_queue_pass cfg ev cm w)))
     - Z.of_nat (length (items (queue (snd (process_queue_pass cfg ev cm w)))))
     = unfinished_tasks (queue w) - Z.of_nat (length (items (queue w))).
Proof.
  intros H.
  assert (Hpass : forall w0, accounted (queue w0) ->
            (accounted (queue (snd (process_queue_pass cfg ev cm w0)))
             /\ unfinished_tasks (queue (snd (process_queue_pass cfg ev cm w0)))
                - Z.of_nat (length (items (queue
                                       (snd (process_queue_pass cfg ev cm w0)))))
                = unfinished_tasks (queue w0)
                  - Z.of_nat (length (items (queue w0))))
            /\ exists w1, process_queue_pass cfg ev cm w0 = (Ok tt, w1)).
  { intros w0 H0.
    destruct (process_queue_pass_run cfg ev cm w0 H0)
      as (w1 & Hrun & Hitems & _ & Hun).
    rewrite Hrun. simpl. split; [| exists w1; reflexivity].
    unfold accounted in *. rewrite Hitems, Hun.
    rewrite length_drop, length_take. split; lia. }
  split; [apply add_to_queue_accounted; exact H |].
  split; [apply fetch_cards_keeps;
          [intros; apply add_to_queue_accounted; assumption | exact H] |].
  split; [apply Hpass; exact H |].
  split; [| apply Hpass; exact H].
  apply passes_keeps; [| exact H].
  intros w0 H0. destruct (Hpass w0 H0) as [[Ha _] Hex].
  split; [exact Ha | exact Hex].
Qed.

Lemma accounting_is_kept_witness :
  accounted (queue (snd (passes Config.default Scenario.echoing
                           Scenario.manager 2 Scenario.fifteen_pending))).
Proof.
  assert (H : accounted (queue Scenario.fifteen_pending))
    by (unfold accounted; simpl; lia).
  exact (proj1 (proj2 (proj2 (proj2
           (accounting_is_kept Config.default Scenario.echoing
              Scenario.manager "c01" ["c01"] 2 Scenario.fifteen_pending H))))).
Defined.

(** X15: a queue with a capacity never holds more items than its
    capacity: [add_to_queue] and the lookup handler keep the pending items
    within [maxsize], however the waits on a full queue end. *)
Theorem capacity_is_kept ev card_name card_names w :
  within_capacity (queue w) ->
  within_capacity (queue (snd (add_to_queue ev card_name w)))
  /\ within_capacity (queue (snd (fetch_cards ev card_names w)))
  /\ maxsize (queue (snd (fetch_cards ev card_names w))) = maxsize (queue w).
Proof.
  intros H.
  split; [apply add_to_queue_within_capacity; exact H |].
  split.
  - apply fetch_cards_keeps;
      [intros; apply add_to_queue_within_capacity; assumption | exact H].
  - apply (fetch_cards_keeps ev (fun q => maxsize q = maxsize (queue w)));
      [| reflexivity].
    intros n w0 H0.
    destruct (add_to_queue_run ev n w0) as (b & q & Hadd & Hcases).
    rewrite Hadd. simpl.
    destruct (full (queue w0)).
    + destruct (put_wait ev (enqueue_waits w0)); destruct Hcases as [_ ->];
        exact H0.
    + destruct Hcases as [_ ->]. exact H0.
Qed.

Lemma capacity_is_kept_witness :
  within_capacity
    (queue (snd (fetch_cards Scenario.failing ["c03"; "c04"]
                   Scenario.full_queue))).
Proof.
  assert (H : within_capacity (queue Scenario.full_queue))
    by (unfold within_capacity; simpl; lia).
  exact (proj1 (proj2 (capacity_is_kept Scenario.failing "c03"
                         ["c03"; "c04"] Scenario.full_queue H))).
Defined.

(** X16: with no consumer at work, [add_to_queue] called for one name
    after the other on a queue of capacity [maxsize] succeeds exactly while
    fewer than [maxsize] items are pending: the names for which there is
    room join the queue in order, and every later call returns false. *)
Theorem enqueue_until_full ev : forall card_names w,
  no_consumer ev ->
  0 < maxsize (queue w) ->
  fst (enqueue_all ev card_names w)
  = Ok (List.map
          (fun i => Z.of_nat (length (items (queue w)) + i)
                    <? maxsize (queue w))
          (seq 0 (length card_names)))
  /\ items (queue (snd (enqueue_all ev card_names w)))
     = (items (queue w)
        ++ take (Z.to_nat (maxsize (queue w)
                           - Z.of_nat (length (items (queue w)))))
             card_names)%list
  /\ maxsize (queue (snd (enqueue_all ev card_names w))) = maxsize (queue w).
Proof.
  induction card_names as [| card_name rest IH]; intros w Hno Hmax.
  - simpl. unfold ret. simpl. rewrite take_nil, app_nil_r. repeat split.
  - simpl. unfold bind, ret.
    destruct (add_to_queue_run ev card_name w) as (b & q & Hadd & Hcases).
    rewrite Hadd.
    match goal with
    | |- context [enqueue_all ev rest ?w0] =>
        specialize (IH w0 Hno); set (w1 := w0) in *
    end.
    destruct (full (queue w)) eqn:Hfull.
    + apply full_iff in Hfull.
      assert (Hb : b = false /\ q = queue w).
      { specialize (Hno (enqueue_waits w)).
        destruct (put_wait ev (enqueue_waits w)); tauto. }
      destruct Hb as [-> ->]. simpl in IH. specialize (IH Hmax).
      destruct (enqueue_all ev rest w1) as [[bs | e] w2]; simpl in *;
        destruct IH as (Hbs & Hitems & Hms); [| discriminate Hbs].
      injection Hbs as ->.
      split; [| split; [| exact Hms]].
      * f_equal. rewrite Nat.add_0_r.
        replace (Z.of_nat (length (items (queue w))) <? maxsize (queue w))
          with false by (symmetry; apply Z.ltb_ge; lia).
        f_equal. rewrite <- seq_shift, List.map_map.
        apply List.map_ext. intros i.
        transitivity false; [apply Z.ltb_ge; lia |].
        symmetry. apply Z.ltb_ge. lia.
      * rewrite Hitems.
        replace (Z.to_nat (maxsize (queue w)
                           - Z.of_nat (length (items (queue w)))))
          with 0%nat by lia.
        reflexivity.
    + destruct Hcases as [-> ->].
      assert (Hroom : Z.of_nat (length (items (queue w))) < maxsize (queue w)).
      { unfold full in Hfull.
        destruct (maxsize (queue w) <=? 0) eqn:E;
          [apply Z.leb_le in E; lia | apply Z.leb_gt in Hfull; exact Hfull]. }
      simpl in IH. specialize (IH Hmax).
      destruct (enqueue_all ev rest w1) as [[bs | e] w2]; simpl in *;
        destruct IH as (Hbs & Hitems & Hms); [| discriminate Hbs].
      injection Hbs as ->.
      split; [| split; [| exact Hms]].
      * f_equal. rewrite Nat.add_0_r.
        replace (Z.of_nat (length (items (queue w))) <? maxsize (queue w))
          with true by (symmetry; apply Z.ltb_lt; lia).
        f_equal. rewrite <- seq_shift, List.map_map.
        apply List.map_ext. intros i. rewrite length_app. simpl.
        f_equal. lia.
      * rewrite Hitems, length_app. simpl.
        replace (Z.to_nat (maxsize (queue w)
                           - Z.of_nat (length (items (queue w)))))
          with (S (Z.to_nat (maxsize (queue w)
                             - Z.of_nat (length (items (queue w)) + 1))))
          by lia.
        simpl. rewrite <- app_assoc. reflexivity.
Qed.

(** Scenario 5 of the specification on a queue of capacity two that holds
    one item: of three names the first joins and the others are refused. *)
Lemma enqueue_until_full_witness :
  let w := {| upstream_calls := 0; enqueue_waits := 0; trace := [];
              card_cache := ∅;
              queue := {| items := ["c01"]; unfinished_tasks := 1;
                          maxsize := 2 |} |} in
  fst (enqueue_all Scenario.failing ["c02"; "c03"; "c04"] w)
  = Ok [true; false; false]
  /\ items (queue (snd (enqueue_all Scenario.failing ["c02"; "c03"; "c04"] w)))
     = ["c01"; "c02"].
Proof.
  intros w.
  destruct (enqueue_until_full Scenario.failing ["c02"; "c03"; "c04"] w)
    as (Hbs & Hitems & _).
  - intros n. discriminate.
  - simpl. lia.
  - split; [exact Hbs | exact Hitems].
Defined.

(** X17: the collection of a batch takes items from the head of the queue
    in order and loses none: the batch followed by what stays pending is
    the queue as it was, the batch has at most [n] items and fewer only
    when the queue ran empty, and nothing but the pending items changes. *)
Theorem collect_batch_conserves (n : nat) w :
  exists batch w1,
    collect_batch n [] w = (Ok batch, w1)
    /\ (batch ++ items (queue w1))%list = items (queue w)
    /\ (length batch <= n)%nat
    /\ ((length batch < n)%nat -> items (queue w1) = [])
    /\ unfinished_tasks (queue w1) = unfinished_tasks (queue w)
    /\ card_cache w1 = card_cache w
    /\ trace w1 = trace w.
Proof.
  eexists _, _. split; [apply collect_batch_run |]. simpl.
  split; [apply take_drop |].
  split; [rewrite length_take; lia |].
  split; [| repeat split].
  rewrite length_take. intros H. apply drop_ge. lia.
Qed.

End QueueFacts.

Module PipelineFacts.
Import CardManager QueueWorker Routes Accounting.
Import CardManagerFacts QueueWorkerFacts RoutesFacts WorkerFacts.

(** The lookup loop on names that are all uncached, with room in the queue
    for all of them: every name is placed and reported queued. *)
Lemma fetch_cards_loop_queues_all ev : forall card_names acc w,
  Forall (fun n => card_cache w !! n = None) card_names ->
  (maxsize (queue w) <= 0
   \/ Z.of_nat (length (items (queue w)) + length card_names)
      <= maxsize (queue w)) ->
  fetch_cards_loop ev card_names acc w
  = (Ok (acc ++ List.map (fun n => queue_entry n true) card_names)%list,
     {| upstream_calls := upstream_calls w;
        enqueue_waits := enqueue_waits w;
        trace := trace w ++ List.map (fun n => EvPut n 5) card_names;
        card_cache := card_cache w;
        queue := {| items := items (queue w) ++ card_names;
                    unfinished_tasks :=
                      unfinished_tasks (queue w)
                      + Z.of_nat (length card_names);
                    maxsize := maxsize (queue w) |} |}).
Proof.
  induction card_names as [| card_name rest IH]; intros acc w Hnone Hroom.
  - simpl. unfold ret. rewrite !app_nil_r, Z.add_0_r.
    destruct w as [? ? ? ? []]. reflexivity.
  - apply List.Forall_cons_iff in Hnone. destruct Hnone as [Hc Hnone].
    simpl. unfold bind at 1. unfold get_world. rewrite Hc. unfold bind.
    assert (Hfull : full (queue w) = false).
    { unfold full. destruct (maxsize (queue w) <=? 0) eqn:E; [reflexivity |].
      apply Z.leb_gt in E. apply Z.leb_gt. simpl length in Hroom. lia. }
    destruct (add_to_queue_run ev card_name w) as (b & q & Hadd & Hcases).
    rewrite Hfull in Hadd, Hcases. destruct Hcases as [-> ->].
    rewrite Hadd, IH.
    + simpl. rewrite <- !app_assoc. simpl.
      do 3 f_equal. lia.
    + exact Hnone.
    + simpl. rewrite length_app. simpl. simpl length in Hroom.
      destruct Hroom as [Hroom | Hroom]; [left; exact Hroom | right; lia].
Qed.

(** The lookup loop on names that are all cached: every name is answered
    from the cache and the world stays as it is. *)
Lemma fetch_cards_loop_all_cached ev : forall card_names acc w,
  Forall (fun n => is_Some (card_cache w !! n)) card_names ->
  exists results,
    fetch_cards_loop ev card_names acc w = (Ok (acc ++ results)%list, w)
    /\ Forall2 (fun n r => exists c, card_cache w !! n = Some c
                                     /\ r = card_entry c)
               card_names results.
Proof.
  induction card_names as [| card_name rest IH]; intros acc w Hall.
  - exists []. simpl. unfold ret. rewrite app_nil_r.
    split; [reflexivity | constructor].
  - apply List.Forall_cons_iff in Hall. destruct Hall as [[c Hc] Hall].
    simpl. unfold bind, get_world. rewrite Hc.
    destruct (IH (acc ++ [card_entry c])%list w Hall) as (results & Hrun & H2).
    exists (card_entry c :: results). rewrite Hrun, <- app_assoc.
    split; [reflexivity |].
    constructor; [exists c; split; [exact Hc | reflexivity] | exact H2].
Qed.

(** X18: names that are not cached, submitted to an idle worker with room
    in its queue and no more than a batch of them, are all reported queued;
    one pass of the worker with an open session then leaves each of them
    cached and the queue empty with nothing unfinished; and the same
    lookup afterwards answers every name from the cache and changes
    nothing. *)
Theorem submitted_names_get_answered cfg ev cm (card_names : list string) w :
  session_unusable cm = false ->
  card_names <> [] ->
  Forall (fun n => card_cache w !! n = None) card_names ->
  items (queue w) = [] ->
  unfinished_tasks (queue w) = 0 ->
  (maxsize (queue w) <= 0
   \/ Z.of_nat (length card_names) <= maxsize (queue w)) ->
  Z.of_nat (length card_names) <= Config.BATCH_SIZE cfg ->
  let w1 := snd (fetch_cards ev card_names w) in
  let w2 := snd (process_queue_pass cfg ev cm w1) in
  fst (fetch_cards ev card_names w)
  = Ok (JsonList (List.map (fun n => queue_entry n true) card_names), 200)
  /\ items (queue w1) = card_names
  /\ items (queue w2) = []
  /\ unfinished_tasks (queue w2) = 0
  /\ exists results,
       fetch_cards ev card_names w2 = (Ok (JsonList results, 200), w2)
       /\ Forall2 (fun n r => exists c, card_cache w2 !! n = Some c
                                        /\ r = card_entry c)
                  card_names results.
Proof.
  intros Hs Hne Hnone Hitems Hun Hroom Hbatch.
  assert (Hlookup : fetch_cards ev card_names w
            = (Ok (JsonList (List.map (fun n => queue_entry n true)
                               card_names), 200),
               {| upstream_calls := upstream_calls w;
                  enqueue_waits := enqueue_waits w;
                  trace := trace w ++ List.map (fun n => EvPut n 5) card_names;
                  card_cache := card_cache w;
                  queue := {| items := card_names;
                              unfinished_tasks :=
                                Z.of_nat (length card_names);
                              maxsize := maxsize (queue w) |} |})).
  { destruct card_names as [| n rest]; [congruence |].
    unfold fetch_cards, try_except, bind.
    rewrite (fetch_cards_loop_queues_all ev (n :: rest) [] w Hnone)
      by (rewrite Hitems; simpl; simpl length in Hroom; lia).
    rewrite Hitems, Hun. reflexivity. }
  intros w1 w2. subst w1 w2. rewrite Hlookup. simpl.
  split; [reflexivity |]. split; [reflexivity |].
  unfold process_queue_pass, try_except, bind.
  rewrite collect_batch_run. simpl.
  rewrite take_ge by lia. rewrite drop_ge by lia.
  assert (Hbranch : forall (A : Type) (a b : A),
             match card_names with [] => a | _ :: _ => b end = b)
    by (intros; destruct card_names; [congruence | reflexivity]).
  rewrite Hbranch.
  match goal with
  | |- context [process_batch cfg ev cm card_names ?w0] =>
      destruct (process_batch_effect cfg ev cm card_names w0)
        as (w2 & evs & Hrun & _ & _ & _ & Hq & _ & _ & _ & _ & Hopen & _)
  end.
  { simpl. lia. }
  rewrite Hrun. simpl.
  rewrite Hq. simpl. split; [reflexivity |]. split; [lia |].
  destruct (Hopen Hs) as [Hall _].
  destruct (fetch_cards_loop_all_cached ev card_names [] w2 Hall)
    as (results & Hloop & H2).
  exists results. split; [| exact H2].
  unfold fetch_cards, try_except, bind.
  rewrite Hbranch, Hloop. reflexivity.
Qed.

(** Two names submitted to the idle worker of the default configuration. *)
Lemma submitted_names_get_answered_witness :
  let w1 := snd (fetch_cards Scenario.echoing ["c01"; "c02"] Scenario.idle) in
  let w2 := snd (process_queue_pass Config.default Scenario.echoing
                   Scenario.manager w1) in
  fst (fetch_cards Scenario.echoing ["c01"; "c02"] Scenario.idle)
  = Ok (JsonList (List.map (fun n => queue_entry n true) ["c01"; "c02"]), 200)
  /\ items (queue w1) = ["c01"; "c02"]
  /\ items (queue w2) = []
  /\ unfinished_tasks (queue w2) = 0
  /\ exists results,
       fetch_cards Scenario.echoing ["c01"; "c02"] w2
       = (Ok (JsonList results, 200), w2)
       /\ Forall2 (fun n r => exists c, card_cache w2 !! n = Some c
                                        /\ r = card_entry c)
                  ["c01"; "c02"] results.
Proof.
  apply (submitted_names_get_answered Config.default Scenario.echoing
           Scenario.manager ["c01"; "c02"] Scenario.idle).
  - reflexivity.
  - discriminate.
  - repeat constructor.
  - reflexivity.
  - reflexivity.
  - right. simpl. lia.
  - simpl. lia.
Defined.

(** A fetch whose attempts all fail transiently returns the not-found
    record. *)
Lemma exhausted_fetch_result cfg ev cm card_name w :
  session_unusable cm = false ->
  (forall i, (i < Z.to_nat (Config.MAX_RETRIES cfg))%nat ->
             transient (upstream ev (upstream_calls w + i) card_name) = true) ->
  fst (fetch_card_info cfg ev cm card_name w) = Ok (not_found card_name).
Proof.
  intros Hs Htr.
  destruct (attempts_loop_shape cfg ev card_name
              (seq 0 (Z.to_nat (Config.MAX_RETRIES cfg)))
              (advance w 0 [EvAcquire]))
    as (c & calls & evs & Hloop & Hle & _ & Hc).
  rewrite length_seq in Hle.
  rewrite (fetch_card_info_open _ _ _ _ _ _ _ Hs Hloop). simpl.
  destruct Hc as [-> | (i & m & Hi & Hm & _)]; [reflexivity |].
  simpl in Hm. rewrite Nat.add_0_r in Hm.
  rewrite (RetryFacts.transient_no_success _ (Htr i ltac:(lia))) in Hm.
  discriminate Hm.
Qed.

(** X19: a name whose fetch fails transiently on every attempt is cached
    as not found all the same: afterwards the lookup answers it with
    status not found and without enqueueing it, and processing it again
    makes no upstream call. *)
Theorem transient_outage_is_cached cfg ev cm card_name w :
  session_unusable cm = false ->
  card_cache w !! card_name = None ->
  0 < unfinished_tasks (queue w) ->
  (forall i, (i < Z.to_nat (Config.MAX_RETRIES cfg))%nat ->
             transient (upstream ev (upstream_calls w + i) card_name) = true) ->
  let w1 := snd (process_item cfg ev cm card_name w) in
  card_cache w1 !! card_name = Some (not_found card_name)
  /\ fetch_cards ev [card_name] w1
     = (Ok (JsonList [card_entry (not_found card_name)], 200), w1)
  /\ card_entry (not_found card_name) !! "status" = Some (JStr "not found")
  /\ (forall w2,
        card_cache w2 = card_cache w1 ->
        0 < unfinished_tasks (queue w2) ->
        upstream_calls (snd (process_item cfg ev cm card_name w2))
        = upstream_calls w2).
Proof.
  intros Hs Hc Hpos Htr.
  destruct (process_item_effect cfg ev cm card_name w Hpos)
    as (w1 & calls & evs & Hrun & _ & _ & _ & _ & _ & _ & Hcache).
  rewrite Hc, Hs in Hcache. destruct Hcache as (_ & c & Hfetch & Hins).
  rewrite (exhausted_fetch_result cfg ev cm card_name w Hs Htr) in Hfetch.
  injection Hfetch as <-.
  rewrite Hrun. simpl.
  assert (Hin : card_cache w1 !! card_name = Some (not_found card_name))
    by (rewrite Hins; apply lookup_insert_eq).
  split; [exact Hin |]. split; [| split].
  - unfold fetch_cards, try_except. simpl. unfold bind, get_world.
    rewrite Hin. reflexivity.
  - apply card_entry_status.
  - intros w2 Hsame Hpos2.
    destruct (process_item_effect cfg ev cm card_name w2 Hpos2)
      as (w3 & calls3 & evs3 & Hrun3 & Hcalls3 & _ & _ & _ & _ & _ & Hcache3).
    rewrite Hsame, Hin in Hcache3. destruct Hcache3 as (_ & -> & _).
    rewrite Hrun3. simpl. lia.
Qed.

(** A service that answers every request with status 500. *)
Lemma transient_outage_is_cached_witness :
  let w1 := snd (process_item Config.default Scenario.failing
                   Scenario.manager "c01" Scenario.fifteen_pending) in
  card_cache w1 !! "c01" = Some (not_found "c01")
  /\ fetch_cards Scenario.failing ["c01"] w1
     = (Ok (JsonList [card_entry (not_found "c01")], 200), w1).
Proof.
  intros w1.
  destruct (transient_outage_is_cached Config.default Scenario.failing
              Scenario.manager "c01" Scenario.fifteen_pending)
    as (H1 & H2 & _).
  - reflexivity.
  - reflexivity.
  - simpl. lia.
  - intros i _. reflexivity.
  - split; [exact H1 | exact H2].
Defined.

End PipelineFacts.

Module ExportFacts.
Import Routes ExportRoute.

Lemma export_row_length cache card_name :
  length (export_row cache card_name) = 6%nat.
Proof. unfold export_row. destruct (cache !! card_name); reflexivity. Qed.

(** The rows written for the keys of the cache are the rows of its
    records. *)
Lemma rows_of_keys (cache : gmap string CardData) (row : list json) :
  In row (List.map (export_row cache) (map_to_list cache).*1)
  <-> exists k c, cache !! k = Some c /\ row = card_row c.
Proof.
  rewrite List.in_map_iff. split.
  - intros (k & <- & Hk). apply list_elem_of_In in Hk.
    apply list_elem_of_fmap in Hk. destruct Hk as ([k' c] & -> & Hkc).
    apply elem_of_map_to_list in Hkc. simpl.
    exists k', c. split; [exact Hkc |]. unfold export_row. rewrite Hkc.
    reflexivity.
  - intros (k & c & Hkc & ->). exists k. split.
    + unfold export_row. rewrite Hkc. reflexivity.
    + apply list_elem_of_In, list_elem_of_fmap. exists (k, c).
      split; [reflexivity |]. apply elem_of_map_to_list. exact Hkc.
Qed.

(** X20: the export answers with one header row and one row of six cells
    per submitted name, in order, each the row of the cached record or,
    for a name that is not cached, the name with empty cells and status
    not found; with no name submitted it exports one row per cached
    record. It changes nothing, and when the sending fails it answers 500
    instead of raising. *)
Theorem export_rows (sent : result unit) (card_names : list string) w :
  match sent with
  | Ok _ =>
      exists rows,
        export_cards sent card_names w
        = (Ok (CsvFile (header :: rows), 200), w)
        /\ Forall (fun row => length row = 6%nat) (header :: rows)
        /\ match card_names with
           | [] =>
               length rows = size (card_cache w)
               /\ forall row,
                    In row rows
                    <-> exists k c, card_cache w !! k = Some c
                                    /\ row = card_row c
           | _ => rows = List.map (export_row (card_cache w)) card_names
           end
  | Raise _ =>
      export_cards sent card_names w
      = (Ok (ExportError "Internal server error", 500), w)
  end.
Proof.
  destruct sent as [[] | e]; [| reflexivity].
  eexists. split; [reflexivity |]. split.
  - constructor; [reflexivity |].
    apply List.Forall_forall. intros row Hrow.
    apply List.in_map_iff in Hrow. destruct Hrow as (n & <- & _).
    apply export_row_length.
  - destruct card_names as [| n rest]; [| reflexivity]. simpl. split.
    + rewrite length_map, length_fmap. apply length_map_to_list.
    + intros row. apply rows_of_keys.
Qed.

(** X21: for a cached name the cells of its export row are the values of
    its lookup entry, status included; a name that is not cached is
    exported exactly as a cached not-found record of that name would be,
    and unlike the lookup the export does not try to enqueue it. *)
Theorem export_agrees_with_lookup ev (card_name : string) w :
  match card_cache w !! card_name with
  | Some card =>
      fst (fetch_cards ev [card_name] w)
      = Ok (JsonList [card_entry card], 200)
      /\ fst (export_cards (Ok tt) [card_name] w)
         = Ok (CsvFile [header; card_row card], 200)
      /\ List.map Some (card_row card) = entry_cells (card_entry card)
  | None =>
      fst (export_cards (Ok tt) [card_name] w)
      = Ok (CsvFile [header; card_row (CardManager.not_found card_name)], 200)
      /\ snd (export_cards (Ok tt) [card_name] w) = w
      /\ QueueWorker.put_attempts (trace (snd (fetch_cards ev [card_name] w)))
         = (QueueWorker.put_attempts (trace w) ++ [card_name])%list
  end.
Proof.
  destruct (card_cache w !! card_name) as [card |] eqn:Hc.
  - split; [| split].
    + unfold fetch_cards, try_except. simpl. unfold bind, get_world.
      rewrite Hc. reflexivity.
    + unfold export_cards, try_except, bind, get_world. simpl.
      unfold export_row. rewrite Hc. reflexivity.
    + vm_compute. reflexivity.
  - split; [| split].
    + unfold export_cards, try_except, bind, get_world. simpl.
      unfold export_row. rewrite Hc. reflexivity.
    + reflexivity.
    + unfold fetch_cards, try_except. simpl. unfold bind at 1 2.
      unfold get_world. rewrite Hc. unfold bind.
      destruct (QueueWorkerFacts.add_to_queue_run ev card_name w)
        as (b & q & Hadd & _).
      rewrite Hadd. simpl.
      apply QueueWorkerFacts.put_attempts_app_one.
Qed.

(** X22: the lookup with no name submitted lists the cached records, one
    entry each, and touches neither the queue nor anything else. *)
Theorem lookup_without_names_lists_cache ev w :
  exists entries,
    fetch_cards ev [] w = (Ok (JsonList entries, 200), w)
    /\ length entries = size (card_cache w)
    /\ (forall r, In r entries
                  <-> exists k c, card_cache w !! k = Some c
                                  /\ r = card_entry c)
    /\ (card_cache w = ∅ -> entries = []).
Proof.
  eexists. split; [reflexivity |]. split; [| split].
  - rewrite !length_fmap. apply length_map_to_list.
  - intros r. rewrite <- list_elem_of_In, list_elem_of_fmap. split.
    + intros (c & -> & Hc). apply list_elem_of_fmap in Hc.
      destruct Hc as ([k c'] & -> & Hkc).
      apply elem_of_map_to_list in Hkc. exists k, c'. split; [exact Hkc |].
      reflexivity.
    + intros (k & c & Hkc & ->). exists c. split; [reflexivity |].
      apply list_elem_of_fmap. exists (k, c). split; [reflexivity |].
      apply elem_of_map_to_list. exact Hkc.
  - intros ->. rewrite map_to_list_empty. reflexivity.
Qed.

End ExportFacts.

Module LifecycleFacts.
Import QueueWorker Accounting Lifecycle.

Lemma running_app t1 t2 : running (t1 ++ t2) = (running t1 + running t2)%nat.
Proof. unfold running. rewrite List.filter_app, length_app. reflexivity. Qed.

Lemma running_cons t ts :
  running (t :: ts)
  = ((match t with TaskRunning => 1 | _ => 0 end) + running ts)%nat.
Proof. unfold running. destruct t; reflexivity. Qed.

(** Ending the running task at [i] leaves one running task fewer. *)
Lemma running_insert : forall (ts : list task_state) (i : nat) st,
  ts !! i = Some TaskRunning ->
  st <> TaskRunning ->
  S (running (<[i := st]> ts)) = running ts.
Proof.
  induction ts as [| t ts IH]; intros i st Hi Hst; [discriminate Hi |].
  destruct i as [| i].
  - injection Hi as ->.
    change (<[0%nat := st]> (TaskRunning :: ts)) with (st :: ts).
    rewrite !running_cons. destruct st; try reflexivity. congruence.
  - change (<[S i := st]> (t :: ts)) with (t :: <[i := st]> ts).
    change ((t :: ts) !! S i) with (ts !! i) in Hi.
    rewrite !running_cons, <- (IH i st Hi Hst). lia.
Qed.

Lemma ended_over j : ended j <> TaskRunning.
Proof. destruct j; discriminate. Qed.

(** Once its task has ended no task of a consistent worker is running. *)
Lemma end_task_effect st b wk :
  st <> TaskRunning ->
  consistent wk ->
  let wk' := {| is_running := b; worker_task := worker_task wk;
                tasks := end_task st wk |} in
  running (tasks wk') = 0%nat /\ alive wk' = false.
Proof.
  intros Hst [Hrun _]. unfold alive in *. unfold end_task. simpl.
  destruct (worker_task wk) as [i |]; [| split; [exact Hrun | reflexivity]].
  destruct (tasks wk !! i) as [[| | | e] |] eqn:Hi;
    try (rewrite Hi; split; [exact Hrun | reflexivity]).
  pose proof (running_insert (tasks wk) i st Hi Hst) as Hone.
  split; [lia |].
  rewrite list_lookup_insert_eq by (apply lookup_lt_is_Some; eauto).
  destruct st; try reflexivity. congruence.
Qed.

Lemma start_consistent wk : consistent wk -> consistent (start wk).
Proof.
  intros Hc. unfold start. destruct (is_running wk) eqn:E; [exact Hc |].
  destruct Hc as [Hrun Hal].
  assert (Hdead : alive wk = false).
  { destruct (alive wk); [| reflexivity]. rewrite Hal in E by reflexivity.
    discriminate E. }
  rewrite Hdead in Hrun.
  unfold consistent, alive. simpl.
  rewrite lookup_app_r by lia. rewrite Nat.sub_diag. simpl.
  rewrite running_app, Hrun. split; reflexivity.
Qed.

Lemma stop_consistent j wk : consistent wk -> consistent (stop j wk).
Proof.
  intros Hc. unfold stop. destruct (is_running wk) eqn:E; [| exact Hc].
  destruct (end_task_effect (ended j) false wk (ended_over j) Hc)
    as [Hrun Hdead].
  unfold consistent. rewrite Hdead, Hrun. split; [reflexivity | discriminate].
Qed.

Lemma loop_ends_consistent e wk : consistent wk -> consistent (loop_ends e wk).
Proof.
  intros Hc.
  destruct (end_task_effect (TaskFailed e) (is_running wk) wk
              ltac:(discriminate) Hc) as [Hrun Hdead].
  unfold consistent, loop_ends. rewrite Hdead, Hrun.
  split; [reflexivity | discriminate].
Qed.

Lemma after_calls_consistent calls : consistent (after_calls calls).
Proof.
  unfold after_calls.
  assert (H : forall wk, consistent wk ->
                         consistent (fold_left apply_call calls wk)).
  { induction calls as [| c calls IH]; intros wk Hwk; simpl; [exact Hwk |].
    apply IH. destruct c; simpl.
    - apply start_consistent. exact Hwk.
    - apply stop_consistent. exact Hwk.
    - apply start_consistent, stop_consistent. exact Hwk.
    - apply loop_ends_consistent. exact Hwk. }
  apply H. split; [reflexivity | discriminate].
Qed.

Lemma consistent_bound wk :
  consistent wk ->
  (running (tasks wk) <= (if is_running wk then 1 else 0))%nat.
Proof.
  intros [Hrun Hal]. destruct (alive wk).
  - rewrite Hal by reflexivity. lia.
  - destruct (is_running wk); lia.
Qed.

Lemma stop_stopped j wk : is_running (stop j wk) = false.
Proof. unfold stop. destruct (is_running wk) eqn:E; [reflexivity | exact E]. Qed.

Lemma start_started wk : is_running (start wk) = true.
Proof. unfold start. destruct (is_running wk) eqn:E; [exact E | reflexivity]. Qed.

(** X23: whatever starts, stops and clears the worker has seen one after
    the other, however its stops ended and whenever its loop died by
    itself, at most one of the loops it has launched is running, and none
    while the worker is not running. A stop leaves no loop running, whether the loop left in time,
    was cancelled after the grace period or failed; stopping twice and
    starting twice are the same as doing it once. *)
Theorem worker_runs_one_loop (calls : list call) (j j' : join_outcome) :
  let wk := after_calls calls in
  (running (tasks wk) <= (if is_running wk then 1 else 0))%nat
  /\ is_running (stop j wk) = false
  /\ running (tasks (stop j wk)) = 0%nat
  /\ stop j' (stop j wk) = stop j wk
  /\ is_running (start wk) = true
  /\ (running (tasks (start wk)) <= 1)%nat
  /\ start (start wk) = start wk.
Proof.
  intros wk.
  pose proof (after_calls_consistent calls) as Hc. fold wk in Hc.
  pose proof (consistent_bound _ (stop_consistent j wk Hc)) as Hs.
  pose proof (consistent_bound _ (start_consistent wk Hc)) as Hst.
  rewrite stop_stopped in Hs. rewrite start_started in Hst.
  split; [apply consistent_bound; exact Hc |].
  split; [apply stop_stopped |].
  split; [lia |].
  split; [unfold stop at 1; rewrite stop_stopped; reflexivity |].
  split; [apply start_started |].
  split; [exact Hst |].
  unfold start at 1. rewrite start_started. reflexivity.
Qed.

(** A pass of the worker on an accounted queue, with an open session:
    every name of its batch is cached afterwards. *)
Lemma pass_caches_batch cfg ev cm w :
  accounted (queue w) ->
  CardManager.session_unusable cm = false ->
  Forall (fun n => is_Some (card_cache
                              (snd (process_queue_pass cfg ev cm w)) !! n))
         (take (Z.to_nat (Config.BATCH_SIZE cfg)) (items (queue w))).
Proof.
  intros Hacc Hs. unfold accounted in Hacc.
  unfold process_queue_pass, try_except, bind.
  rewrite QueueWorkerFacts.collect_batch_run. simpl.
  destruct (take (Z.to_nat (Config.BATCH_SIZE cfg)) (items (queue w)))
    as [| n rest] eqn:Hb; [apply List.Forall_nil |].
  rewrite <- Hb.
  match goal with
  | |- context [process_batch cfg ev cm ?b ?w0] =>
      destruct (WorkerFacts.process_batch_effect cfg ev cm b w0)
        as (w1 & evs & Hrun & _ & _ & _ & _ & _ & _ & _ & _ & Hopen & _)
  end.
  { simpl. rewrite length_take. lia. }
  rewrite Hb in Hrun |- *. rewrite Hrun. simpl.
  rewrite <- Hb. rewrite Hb in Hopen. rewrite Hb. apply (Hopen Hs).
Qed.


(** A pass of the worker on an accounted queue leaves pending what it did
    not take. *)
Lemma pass_keeps_rest cfg ev cm w :
  accounted (queue w) ->
  items (queue (snd (process_queue_pass cfg ev cm w)))
  = drop (Z.to_nat (Config.BATCH_SIZE cfg)) (items (queue w)).
Proof.
  intros Hacc. unfold accounted in Hacc.
  unfold process_queue_pass, try_except, bind.
  rewrite QueueWorkerFacts.collect_batch_run. simpl.
  destruct (take (Z.to_nat (Config.BATCH_SIZE cfg)) (items (queue w)))
    as [| n rest] eqn:Hb; [reflexivity |].
  rewrite <- Hb.
  match goal with
  | |- context [process_batch cfg ev cm ?b ?w0] =>
      destruct (WorkerFacts.process_batch_effect cfg ev cm b w0)
        as (w1 & evs & Hrun & _ & _ & _ & Hq & _)
  end.
  { simpl. rewrite length_take. lia. }
  rewrite Hb in Hrun |- *. rewrite Hrun. simpl. rewrite Hq. reflexivity.
Qed.

Lemma end_task_length st wk : length (end_task st wk) = length (tasks wk).
Proof.
  unfold end_task. destruct (worker_task wk) as [i |]; [| reflexivity].
  destruct (tasks wk !! i) as [[| | | e] |]; try reflexivity.
  apply length_insert.
Qed.

(** X24: a clear that no other call overlaps answers 200 and leaves the
    worker running with exactly one running loop, which is a loop it has
    just launched: whatever the worker has been through before, whether it was running, stopped, or running
    with a dead loop, and however the stop inside the clear ended. The
    status reported next says that the worker is fetching. *)
Theorem clear_restarts_worker (calls : list call) (j : join_outcome)
    (during : world -> world) (w : world) :
  let wk := after_calls calls in
  let out := clear_cards j during (w, wk) in
  let wk1 := snd (snd out) in
  snd (fst out) = 200
  /\ is_running wk1 = true
  /\ running (tasks wk1) = 1%nat
  /\ worker_task wk1 = Some (length (tasks wk))
  /\ length (tasks wk1) = S (length (tasks wk))
  /\ alive wk1 = true
  /\ exists size_ cache_,
       status (snd out)
       = (JObj (list_to_map [("queue_size", JNum size_);
                             ("cache_size", JNum cache_);
                             ("is_fetching", JBool true)]), 200).
Proof.
  intros wk out wk1.
  pose proof (after_calls_consistent calls) as Hc. fold wk in Hc.
  pose proof (stop_consistent j wk Hc) as Hs.
  pose proof (consistent_bound _ Hs) as Hzero. rewrite stop_stopped in Hzero.
  assert (Hlen : length (tasks (stop j wk)) = length (tasks wk)).
  { unfold stop. destruct (is_running wk); [apply end_task_length | reflexivity]. }
  assert (Hwk1 : wk1 = {| is_running := true;
                          worker_task := Some (length (tasks wk));
                          tasks := tasks (stop j wk) ++ [TaskRunning] |}).
  { unfold wk1, out, clear_cards. simpl. unfold start.
    rewrite stop_stopped, Hlen. reflexivity. }
  split; [reflexivity |].
  split; [rewrite Hwk1; reflexivity |].
  split; [rewrite Hwk1; simpl; rewrite running_app; unfold running at 2;
          simpl; lia |].
  split; [rewrite Hwk1; reflexivity |].
  split; [rewrite Hwk1; simpl; rewrite length_app, Hlen; simpl; lia |].
  split.
  { rewrite Hwk1. unfold alive. simpl.
    rewrite lookup_app_r by lia. rewrite Hlen, Nat.sub_diag. reflexivity. }
  eexists _, _. unfold status. fold wk1. rewrite Hwk1. reflexivity.
Qed.

(** X25: a clear issued while no loop of the worker is running (the worker
    is stopped, or its loop is dead) empties the cache and not the queue:
    when the handler returns the cache is empty and the names that were
    pending are still queued, in order and counted as before; and a first
    pass of the new loop from there, with an open session, fetches and
    caches the first batch of them. *)
Theorem clear_keeps_the_queue cfg ev cm (calls : list call)
    (j : join_outcome) (during : world -> world) (w : world) :
  alive (after_calls calls) = false ->
  accounted (queue w) ->
  CardManager.session_unusable cm = false ->
  let out := clear_cards j during (w, after_calls calls) in
  let w1 := fst (snd out) in
  snd (fst out) = 200
  /\ card_cache w1 = ∅
  /\ queue w1 = queue w
  /\ Forall (fun n => is_Some (card_cache
                                 (snd (process_queue_pass cfg ev cm w1)) !! n))
            (take (Z.to_nat (Config.BATCH_SIZE cfg)) (items (queue w)))
  /\ items (queue (snd (process_queue_pass cfg ev cm w1)))
     = drop (Z.to_nat (Config.BATCH_SIZE cfg)) (items (queue w)).
Proof.
  intros Hdead Hacc Hs out w1.
  assert (Hw1 : w1 = {| upstream_calls := upstream_calls w;
                        enqueue_waits := enqueue_waits w;
                        trace := trace w;
                        card_cache := ∅;
                        queue := queue w |}).
  { unfold w1, out, clear_cards. simpl. rewrite Hdead, andb_false_r.
    reflexivity. }
  split; [reflexivity |].
  split; [rewrite Hw1; reflexivity |].
  split; [rewrite Hw1; reflexivity |].
  replace (queue w) with (queue w1) by (rewrite Hw1; reflexivity).
  split; [apply pass_caches_batch; [rewrite Hw1; exact Hacc | exact Hs] |].
  apply pass_keeps_rest. rewrite Hw1. exact Hacc.
Qed.

(** A clear before the worker was ever started, with fifteen names
    pending. *)
Lemma clear_keeps_the_queue_witness :
  let out := clear_cards GraceElapsed (fun w => w)
               (Scenario.fifteen_pending, after_calls []) in
  card_cache (fst (snd out)) = ∅
  /\ queue (fst (snd out)) = queue Scenario.fifteen_pending.
Proof.
  intros out.
  assert (Hdead : alive (after_calls []) = false) by reflexivity.
  assert (Hacc : accounted (queue Scenario.fifteen_pending))
    by (unfold accounted; simpl; lia).
  assert (Hs : CardManager.session_unusable Scenario.manager = false)
    by reflexivity.
  destruct (clear_keeps_the_queue Config.default Scenario.echoing
              Scenario.manager [] GraceElapsed (fun w => w)
              Scenario.fifteen_pending Hdead Hacc Hs)
    as (_ & Hcache & Hq & _).
  split; [exact Hcache | exact Hq].
Defined.

End LifecycleFacts.
